(** * Banded (sliding-window) attention kernels of
      [fast_transformers/local_product/local_product_cuda.cu]

    A shallow embedding of the four entry points [local_dot_product],
    [local_dot_backward], [local_weighted_average] and
    [local_weighted_average_backward], of the block matmul driver
    [sliding_dot] with its two selection kernels, and of the two tiled
    kernels [local_copy_scaled] and [local_copy_scaled_transpose].

    Conventions of the embedding.
    - C++ [int] values are integers in [Z]; [/] on [int] is truncating
      division, [Z.quot].  The 32-bit packed accessors used by every kernel
      refuse tensors with more than [2^31 - 1] elements, so index arithmetic
      is modelled without wrap-around.
    - [float] is an abstract carrier with the operations the kernels use
      (class [Scalar]).  Statements that regroup sums are proved under the
      laws of exact arithmetic (class [ExactArith]); rounding is not
      modelled.
    - A tensor is its shape together with its indexing function (what a
      packed accessor offers); a store builds the updated tensor.  The
      statements below are about the cells inside the shapes.
    - A kernel launch runs its threads one after the other in increasing
      thread index; inside a thread block of the tiled kernels the phases
      separated by [__syncthreads()] run one after the other. *)

From Stdlib Require Import ZArith List Lia Bool.
Import ListNotations.
Open Scope Z_scope.

Set Implicit Arguments.

(** ** Scalars *)

Class Scalar (F : Type) : Type := {
  fzero : F;
  fone : F;
  fninf : F;                 (* -std::numeric_limits<float>::infinity() *)
  fadd : F -> F -> F;
  fmul : F -> F -> F
}.

Class ExactArith (F : Type) `{Scalar F} : Prop := {
  fadd_0_l : forall x, fadd fzero x = x;
  fadd_0_r : forall x, fadd x fzero = x;
  fadd_assoc : forall x y z, fadd x (fadd y z) = fadd (fadd x y) z;
  fmul_0_l : forall x, fmul fzero x = fzero;
  fmul_0_r : forall x, fmul x fzero = fzero;
  fmul_1_l : forall x, fmul fone x = x;
  fmul_comm : forall x y, fmul x y = fmul y x
}.

Arguments ExactArith F {_}.

(** Integers extended with minus infinity: a concrete carrier on which the
    statements below are instantiated. *)
Inductive xint : Type :=
| NInf : xint
| Fin : Z -> xint.

Definition xadd (a b : xint) : xint :=
  match a, b with
  | Fin x, Fin y => Fin (x + y)
  | _, _ => NInf
  end.

Definition xmul (a b : xint) : xint :=
  match a, b with
  | Fin x, Fin y => Fin (x * y)
  | Fin 0, NInf => Fin 0
  | NInf, Fin 0 => Fin 0
  | _, _ => NInf
  end.

#[export] Instance xint_scalar : Scalar xint :=
  {| fzero := Fin 0; fone := Fin 1; fninf := NInf; fadd := xadd; fmul := xmul |}.

(** ** Index ranges and loops *)

Definition in_range (i n : Z) : bool := (0 <=? i) && (i <? n).

Definition zrange (n : nat) : list Z := map Z.of_nat (seq 0 n).

(** [for (i = start; i < bound; i += step) body(i)], with fuel. *)
Fixpoint for_loop {St : Type} (fuel : nat) (i bound step : Z)
    (body : Z -> St -> St) (st : St) : St :=
  match fuel with
  | O => st
  | S fuel' =>
      if i <? bound
      then for_loop fuel' (i + step) bound step body (body i st)
      else st
  end.

(** A kernel launch of [blocks] blocks of [threads] threads, for a kernel
    that only uses the flat index [blockIdx.x*blockDim.x + threadIdx.x]. *)
Definition launch_flat {St : Type} (blocks threads : Z)
    (thread : Z -> St -> St) (st : St) : St :=
  fold_left (fun st idx => thread idx st)
            (zrange (Z.to_nat (blocks * threads))) st.

(** Left-to-right accumulation [r = 0; for (i = 0; i < n; i++) r += f(i)]. *)
Definition fsum {F} `{Scalar F} (n : nat) (f : Z -> F) : F :=
  fold_left (fun acc i => fadd acc (f i)) (zrange n) fzero.

(** ** Tensors *)

Section Tensors.
Context {F : Type} `{Scalar F}.

Record tensor1 : Type := T1 { len1 : Z; get1 : Z -> Z }.
Record tensor2 : Type := T2 { rows2 : Z; cols2 : Z; get2 : Z -> Z -> F }.
Record tensor3 : Type :=
  T3 { size3_0 : Z; size3_1 : Z; size3_2 : Z; get3 : Z -> Z -> Z -> F }.
Record tensor4 : Type :=
  T4 { size4_0 : Z; size4_1 : Z; size4_2 : Z; size4_3 : Z;
       get4 : Z -> Z -> Z -> Z -> F }.

(** [t[n][l][k] = v] *)
Definition set3 (t : tensor3) (n l k : Z) (v : F) : tensor3 :=
  T3 (size3_0 t) (size3_1 t) (size3_2 t)
     (fun n' l' k' =>
        if (n' =? n) && (l' =? l) && (k' =? k) then v else get3 t n' l' k').

(** [t[n][h][l][e] = v] *)
Definition set4 (t : tensor4) (n h l e : Z) (v : F) : tensor4 :=
  T4 (size4_0 t) (size4_1 t) (size4_2 t) (size4_3 t)
     (fun n' h' l' e' =>
        if (n' =? n) && (h' =? h) && (l' =? l) && (e' =? e)
        then v else get4 t n' h' l' e').

Definition full3 (d0 d1 d2 : Z) (v : F) : tensor3 :=
  T3 d0 d1 d2 (fun _ _ _ => v).

Definition full4 (d0 d1 d2 d3 : Z) (v : F) : tensor4 :=
  T4 d0 d1 d2 d3 (fun _ _ _ _ => v).

Definition zeros_like (t : tensor4) : tensor4 :=
  full4 (size4_0 t) (size4_1 t) (size4_2 t) (size4_3 t) fzero.

(** [t.view({N*H, L, E})] of a contiguous [(N, H, L, E)] tensor: row
    [n*H + h] of the view is row [(n, h)] of [t]. *)
Definition view3 (t : tensor4) (NH L E : Z) : tensor3 :=
  T3 NH L E
     (fun b l e => get4 t (Z.quot b (size4_1 t)) (Z.rem b (size4_1 t)) l e).

(** The [(N, H, L, C)] tensor whose [view({N*H, L, C})] is [t]. *)
Definition unview3 (t : tensor3) (N H : Z) : tensor4 :=
  T4 N H (size3_1 t) (size3_2 t) (fun n h l k => get3 t (n * H + h) l k).

(** [t.narrow(1, 0, n1).narrow(2, 0, n2)]: same storage, smaller shape. *)
Definition narrow12 (t : tensor3) (n1 n2 : Z) : tensor3 :=
  T3 (size3_0 t) n1 n2 (get3 t).

Definition numel3 (t : tensor3) : Z := size3_0 t * size3_1 t * size3_2 t.

(** [sum_e a[e] * b[e]] over [E] features, accumulated from the left. *)
Definition dot (E : Z) (a b : Z -> F) : F :=
  fsum (Z.to_nat E) (fun e => fmul (a e) (b e)).

(** ATen's batched product written into the narrowed scratch view:
    [at::matmul_out(buff, A.narrow(1, l, n_a),
                    B.narrow(1, s_start, n_b).transpose(1, 2))]
    stores [sum_e A[n][l+i][e] * B[n][s_start+j][e]] at [buff[n][i][j]]
    for every cell of [buff]; the rest of the scratch storage is kept. *)
Definition matmul_out (buffer A B : tensor3) (l n_a s_start n_b : Z)
  : tensor3 :=
  T3 (size3_0 buffer) (size3_1 buffer) (size3_2 buffer)
     (fun n i j =>
        if in_range n (size3_0 A) && in_range i n_a && in_range j n_b
        then dot (size3_2 A) (get3 A n (l + i)) (get3 B n (s_start + j))
        else get3 buffer n i j).
End Tensors.

Arguments tensor2 F : clear implicits.
Arguments tensor3 F : clear implicits.
Arguments tensor4 F : clear implicits.

Definition ceildiv (a b : Z) : Z := Z.quot (a + b - 1) b.

(** ** The selection kernels and the block matmul driver *)

Section SlidingDot.
Context {F : Type} `{Scalar F}.

(** The operator() of a copy implementation, run by the thread of flat
    index [idx]; the result is the output tensor after the thread. *)
Class CopyImplementation (T : Type) : Type :=
  copy_call : T -> tensor3 F -> tensor3 F -> Z -> Z -> Z -> Z -> Z -> Z
              -> tensor3 F.

Record masked_lp_copy : Type :=
  Masked_lp_copy { attn_mask : tensor2 F; key_lengths : tensor1 }.

Definition masked_lp_copy_call (self : masked_lp_copy)
    (buffer output : tensor3 F)
    (local_context l_start s_start buffer_dim12 buffer_dim2 : Z)
    (idx0 : Z) : tensor3 F :=
  let idx := idx0 in
  let n := Z.quot idx buffer_dim12 in
  let idx := idx - n * buffer_dim12 in
  let l_offset := Z.quot idx buffer_dim2 in
  let idx := idx - l_offset * buffer_dim2 in
  let s_offset := idx in
  if n >=? size3_0 buffer then output else
  let l := l_start + l_offset in
  let s := s_start + s_offset in
  let k := s - l + Z.quot local_context 2 in
  if (k <? 0) || (k >=? local_context) then output else
  set3 output n l k
       (fadd (get3 buffer n l_offset s_offset) (get2 (attn_mask self) l s)).

#[export] Instance masked_lp_copy_impl : CopyImplementation masked_lp_copy :=
  masked_lp_copy_call.

Definition masked_lp_copy_factory (attn_mask : tensor2 F)
    (key_lengths : tensor1) : masked_lp_copy :=
  Masked_lp_copy attn_mask key_lengths.

Inductive lp_copy : Type := Lp_copy.

Definition lp_copy_call (self : lp_copy) (buffer output : tensor3 F)
    (local_context l_start s_start buffer_dim12 buffer_dim2 : Z)
    (idx0 : Z) : tensor3 F :=
  let idx := idx0 in
  let n := Z.quot idx buffer_dim12 in
  let idx := idx - n * buffer_dim12 in
  let l_offset := Z.quot idx buffer_dim2 in
  let idx := idx - l_offset * buffer_dim2 in
  let s_offset := idx in
  if n >=? size3_0 buffer then output else
  let l := l_start + l_offset in
  let s := s_start + s_offset in
  let k := s - l + Z.quot local_context 2 in
  if (k <? 0) || (k >=? local_context) then output else
  set3 output n l k (get3 buffer n l_offset s_offset).

#[export] Instance lp_copy_impl : CopyImplementation lp_copy := lp_copy_call.

(** The shape both copy implementations share: the selected cell receives
    [val l s (buffer[n][l_offset][s_offset])]. *)
Definition select_call (val : Z -> Z -> F -> F) (buffer output : tensor3 F)
    (local_context l_start s_start buffer_dim12 buffer_dim2 : Z)
    (idx0 : Z) : tensor3 F :=
  let idx := idx0 in
  let n := Z.quot idx buffer_dim12 in
  let idx := idx - n * buffer_dim12 in
  let l_offset := Z.quot idx buffer_dim2 in
  let idx := idx - l_offset * buffer_dim2 in
  let s_offset := idx in
  if n >=? size3_0 buffer then output else
  let l := l_start + l_offset in
  let s := s_start + s_offset in
  let k := s - l + Z.quot local_context 2 in
  if (k <? 0) || (k >=? local_context) then output else
  set3 output n l k (val l s (get3 buffer n l_offset s_offset)).

#[export] Instance select_impl : CopyImplementation (Z -> Z -> F -> F) :=
  select_call.

Definition masked_val (self : masked_lp_copy) : Z -> Z -> F -> F :=
  fun l s x => fadd x (get2 (attn_mask self) l s).

Definition plain_val : Z -> Z -> F -> F := fun _ _ x => x.

Definition sliding_dot_copy_kernel {T} `{CopyImplementation T} (copy : T)
    (buffer output : tensor3 F)
    (local_context l_start s_start buffer_dim12 buffer_dim2 : Z)
    (idx : Z) : tensor3 F :=
  copy_call copy buffer output local_context l_start s_start
            buffer_dim12 buffer_dim2 idx.

(** One iteration of the loop of [sliding_dot], on the pair
    (scratch buffer, out). *)
Definition sliding_dot_body {T} `{CopyImplementation T} (a_blocks : Z)
    (copy_implementation : T) (A B : tensor3 F) (local_context : Z)
    (l : Z) (st : tensor3 F * tensor3 F) : tensor3 F * tensor3 F :=
  let L := size3_1 A in
  let s_start := Z.max 0 (l - Z.quot local_context 2) in
  let s_end :=
    Z.min L (l - Z.quot local_context 2 + local_context + a_blocks) in
  let n_b := s_end - s_start in
  let n_a := Z.min (L - l) a_blocks in
  let buffer := matmul_out (fst st) A B l n_a s_start n_b in
  let buff := narrow12 buffer n_a n_b in
  let threads := 1024 in
  let blocks := ceildiv (numel3 buff) threads in
  (buffer,
   launch_flat blocks threads
     (fun idx out =>
        sliding_dot_copy_kernel copy_implementation buff out local_context
          l s_start (size3_1 buff * size3_2 buff) (size3_2 buff) idx)
     (snd st)).

Definition sliding_dot {T} `{CopyImplementation T} (a_blocks : Z)
    (copy_implementation : T) (A B out : tensor3 F) (local_context : Z)
  : tensor3 F :=
  let N := size3_0 A in
  let L := size3_1 A in
  let buffer := full3 N a_blocks (a_blocks + local_context) fzero in
  snd (for_loop (Z.to_nat L) 0 L a_blocks
         (sliding_dot_body a_blocks copy_implementation A B local_context)
         (buffer, out)).
End SlidingDot.

(** ** The tiled kernels *)

Record dim3 : Type := Dim3 { dim3_x : Z; dim3_y : Z; dim3_z : Z }.

(** [blockIdx.x] split along the strides into (n, h, length tile, feature
    tile), as the first lines of both tiled kernels do. *)
Definition block_coords (strides : dim3) (blockIdx : Z) : Z * Z * Z * Z :=
  let idx := blockIdx in
  let n := Z.quot idx (dim3_x strides) in
  let idx := idx - n * dim3_x strides in
  let h := Z.quot idx (dim3_y strides) in
  let idx := idx - h * dim3_y strides in
  let lblock := Z.quot idx (dim3_z strides) in
  let idx := idx - lblock * dim3_z strides in
  let eblock := idx in
  (n, h, lblock, eblock).

(** The index-lookup policies of [local_copy_scaled_transpose]. *)
Class LkPolicy (T : Type) : Type := lk_call : T -> Z -> Z -> Z -> Z.

Inductive IncreasingLK : Type := IncreasingLK_mk.
Inductive ReverseLK : Type := ReverseLK_mk.

Definition IncreasingLK_call (self : IncreasingLK)
    (k e_local local_context : Z) : Z :=
  k + e_local.

Definition ReverseLK_call (self : ReverseLK)
    (k e_local local_context : Z) : Z :=
  local_context - k - e_local - 1.

#[export] Instance IncreasingLK_policy : LkPolicy IncreasingLK :=
  IncreasingLK_call.
#[export] Instance ReverseLK_policy : LkPolicy ReverseLK := ReverseLK_call.

Section Tiled.
Context {F : Type} `{Scalar F}.

(** The dynamic shared memory of a block, [extern __shared__ float
    shared_mem[]], as a flat array; [s_factors] starts at offset 0 and
    [s_values] at offset [LB*KB]. *)
Definition shared := Z -> F.

Definition store (m : shared) (i : Z) (v : F) : shared :=
  fun j => if j =? i then v else m j.

(** What the shared memory holds when a block starts (never initialised
    by the kernels). *)
Variable shared_init : shared.

(** *** local_copy_scaled *)

(** The loads of one thread in iteration [k], up to the first
    [__syncthreads()]. *)
Definition local_copy_scaled_load (LB KB EB : Z)
    (factors values : tensor4 F) (strides : dim3)
    (blockIdx k threadIdx : Z) (shared_mem : shared) : shared :=
  let '(n, h, lblock, eblock) := block_coords strides blockIdx in
  let local_context := size4_3 factors in
  let l_local := Z.quot threadIdx EB in
  let e_local := threadIdx - l_local * EB in
  let l := lblock * LB + l_local in
  let e := eblock * EB + e_local in
  let s_factors := 0 in
  let s_values := s_factors + LB * KB in
  let s1 := l - Z.quot local_context 2 + k in
  let s2 := s1 + LB in
  let scurrent := s1 + e_local in
  let shared_mem :=
    store shared_mem (s_factors + (l_local * KB + e_local))
      (if (l <? size4_2 factors) && (k + e_local <? local_context)
          && (scurrent >=? 0) && (scurrent <? size4_2 values)
       then get4 factors n h l (k + e_local) else fzero) in
  let shared_mem :=
    store shared_mem (s_values + (l_local * EB + e_local))
      (if (e <? size4_3 values) && (s1 >=? 0) && (s1 <? size4_2 values)
       then get4 values n h s1 e else fzero) in
  store shared_mem (s_values + ((l_local + LB) * EB + e_local))
    (if (e <? size4_3 values) && (s2 >=? 0) && (s2 <? size4_2 values)
     then get4 values n h s2 e else fzero).

(** The dot product and accumulation of one thread in iteration [k],
    between the two [__syncthreads()]. *)
Definition local_copy_scaled_compute (LB KB EB : Z)
    (factors values : tensor4 F) (strides : dim3)
    (blockIdx k : Z) (shared_mem : shared) (threadIdx : Z)
    (output : tensor4 F) : tensor4 F :=
  let '(n, h, lblock, eblock) := block_coords strides blockIdx in
  let l_local := Z.quot threadIdx EB in
  let e_local := threadIdx - l_local * EB in
  let l := lblock * LB + l_local in
  let e := eblock * EB + e_local in
  let s_factors := 0 in
  let s_values := s_factors + LB * KB in
  let result :=
    fsum (Z.to_nat KB)
      (fun k_local =>
         fmul (shared_mem (s_factors + (l_local * KB + k_local)))
              (shared_mem (s_values + ((k_local + l_local) * EB + e_local))))
  in
  if (l <? size4_2 factors) && (e <? size4_3 values)
  then set4 output n h l e (fadd (get4 output n h l e) result)
  else output.

(** One thread block: every thread leaves at once when
    [n > factors.size(0)] ([n] only depends on [blockIdx.x]); otherwise
    the block runs the loop over [k] in lock step, the loads of all
    threads before the barrier and the accumulations after it. *)
Definition local_copy_scaled_block (LB KB EB blockDim : Z)
    (factors values : tensor4 F) (strides : dim3)
    (blockIdx : Z) (output : tensor4 F) : tensor4 F :=
  let '(n, _, _, _) := block_coords strides blockIdx in
  let local_context := size4_3 factors in
  if n >? size4_0 factors then output else
  snd (for_loop (Z.to_nat local_context) 0 local_context KB
         (fun k st =>
            let shared_mem :=
              fold_left
                (fun m t =>
                   local_copy_scaled_load LB KB EB factors values strides
                                          blockIdx k t m)
                (zrange (Z.to_nat blockDim)) (fst st) in
            (shared_mem,
             fold_left
               (fun o t =>
                  local_copy_scaled_compute LB KB EB factors values strides
                                            blockIdx k shared_mem t o)
               (zrange (Z.to_nat blockDim)) (snd st)))
         (shared_init, output)).

(** [local_copy_scaled<<<blocks, threads, shared_mem>>>(...)] *)
Definition local_copy_scaled (LB KB EB : Z) (blocks threads : Z)
    (factors values output : tensor4 F) (strides : dim3) : tensor4 F :=
  fold_left
    (fun o b =>
       local_copy_scaled_block LB KB EB threads factors values strides b o)
    (zrange (Z.to_nat blocks)) output.

(** *** local_copy_scaled_transpose *)

Definition local_copy_scaled_transpose_load {P} `{LkPolicy P}
    (LB KB EB : Z) (factors values : tensor4 F) (strides : dim3)
    (lk_policy : P) (blockIdx k threadIdx : Z) (shared_mem : shared)
  : shared :=
  let '(n, h, sblock, eblock) := block_coords strides blockIdx in
  let local_context := size4_3 factors in
  let s_local := Z.quot threadIdx EB in
  let e_local := threadIdx - s_local * EB in
  let s := sblock * LB + s_local in
  let e := eblock * EB + e_local in
  let s_factors := 0 in
  let s_values := s_factors + LB * KB in
  let l := s - Z.quot (local_context - 1) 2 + k in
  let l2 := l + LB in
  let shared_mem :=
    store shared_mem (s_values + (s_local * EB + e_local))
      (if (l >=? 0) && (l <? size4_2 factors) && (e <? size4_3 values)
       then get4 values n h l e else fzero) in
  let shared_mem :=
    store shared_mem (s_values + ((s_local + LB) * EB + e_local))
      (if (l2 >=? 0) && (l2 <? size4_2 factors) && (e <? size4_3 values)
       then get4 values n h l2 e else fzero) in
  let lcurrent := l + e_local in
  let kcurrent := k + e_local in
  store shared_mem (s_factors + (s_local * KB + e_local))
    (if (lcurrent >=? 0) && (lcurrent <? size4_2 factors)
        && (kcurrent <? local_context)
     then
       let t := lk_call lk_policy k e_local local_context in
       get4 factors n h (l + e_local) t
     else fzero).

Definition local_copy_scaled_transpose_compute (LB KB EB : Z)
    (factors values : tensor4 F) (strides : dim3)
    (blockIdx k : Z) (shared_mem : shared) (threadIdx : Z)
    (output : tensor4 F) : tensor4 F :=
  let '(n, h, sblock, eblock) := block_coords strides blockIdx in
  let s_local := Z.quot threadIdx EB in
  let e_local := threadIdx - s_local * EB in
  let s := sblock * LB + s_local in
  let e := eblock * EB + e_local in
  let s_factors := 0 in
  let s_values := s_factors + LB * KB in
  let result :=
    fsum (Z.to_nat KB)
      (fun k_local =>
         fmul (shared_mem (s_values + ((s_local + k_local) * EB + e_local)))
              (shared_mem (s_factors + (s_local * KB + k_local))))
  in
  if (s <? size4_2 values) && (e <? size4_3 values)
  then set4 output n h s e (fadd (get4 output n h s e) result)
  else output.

Definition local_copy_scaled_transpose_block {P} `{LkPolicy P}
    (LB KB EB blockDim : Z) (factors values : tensor4 F) (strides : dim3)
    (lk_policy : P) (blockIdx : Z) (output : tensor4 F) : tensor4 F :=
  let '(n, _, _, _) := block_coords strides blockIdx in
  let local_context := size4_3 factors in
  if n >? size4_0 factors then output else
  snd (for_loop (Z.to_nat local_context) 0 local_context KB
         (fun k st =>
            let shared_mem :=
              fold_left
                (fun m t =>
                   local_copy_scaled_transpose_load LB KB EB factors values
                     strides lk_policy blockIdx k t m)
                (zrange (Z.to_nat blockDim)) (fst st) in
            (shared_mem,
             fold_left
               (fun o t =>
                  local_copy_scaled_transpose_compute LB KB EB factors
                    values strides blockIdx k shared_mem t o)
               (zrange (Z.to_nat blockDim)) (snd st)))
         (shared_init, output)).

(** [local_copy_scaled_transpose<<<blocks, threads, shared_mem>>>(...)] *)
Definition local_copy_scaled_transpose {P} `{LkPolicy P} (LB KB EB : Z)
    (blocks threads : Z) (factors values output : tensor4 F)
    (strides : dim3) (lk_policy : P) : tensor4 F :=
  fold_left
    (fun o b =>
       local_copy_scaled_transpose_block LB KB EB threads factors values
         strides lk_policy b o)
    (zrange (Z.to_nat blocks)) output.

(** ** The four public operations *)

Definition local_dot_product (queries keys : tensor4 F)
    (attn_mask : tensor2 F) (key_lengths : tensor1) (local_context : Z)
  : tensor4 F :=
  let N := size4_0 queries in
  let H := size4_1 queries in
  let L := size4_2 queries in
  let S := size4_2 keys in
  let E := size4_3 queries in
  let output := full4 N H L local_context fninf in
  unview3
    (sliding_dot 64
       (masked_lp_copy_factory attn_mask key_lengths)
       (view3 queries (N * H) L E)
       (view3 keys (N * H) L E)
       (view3 output (N * H) L local_context)
       local_context)
    N H.

Definition local_dot_backward (queries keys : tensor4 F)
    (key_lengths : tensor1) (grad : tensor4 F) (local_context : Z)
  : tensor4 F * tensor4 F :=
  let N := size4_0 grad in
  let H := size4_1 grad in
  let L := size4_2 grad in
  let K := size4_3 grad in
  let E := size4_3 keys in
  let grad_queries := zeros_like queries in
  let grad_keys := zeros_like keys in
  let threads := 32 * 32 in
  let lblocks := ceildiv L 32 in
  let eblocks := ceildiv E 32 in
  let blocks := N * H * lblocks * eblocks in
  let strides :=
    Dim3 (H * lblocks * eblocks) (lblocks * eblocks) eblocks in
  (local_copy_scaled 32 32 32 blocks threads grad keys grad_queries strides,
   local_copy_scaled_transpose 32 32 32 blocks threads grad queries
     grad_keys strides IncreasingLK_mk).

Definition local_weighted_average (attention values : tensor4 F)
  : tensor4 F :=
  let N := size4_0 attention in
  let H := size4_1 attention in
  let L := size4_2 attention in
  let K := size4_3 attention in
  let E := size4_3 values in
  let output := zeros_like values in
  let threads := 32 * 32 in
  let lblocks := ceildiv L 32 in
  let eblocks := ceildiv E 32 in
  let blocks := N * H * lblocks * eblocks in
  let strides :=
    Dim3 (H * lblocks * eblocks) (lblocks * eblocks) eblocks in
  local_copy_scaled 32 32 32 blocks threads attention values output strides.

Definition local_weighted_average_backward
    (attention values grad : tensor4 F) : tensor4 F * tensor4 F :=
  let N := size4_0 attention in
  let H := size4_1 attention in
  let L := size4_2 attention in
  let local_context := size4_3 attention in
  let S := size4_2 values in
  let E := size4_3 values in
  let grad_attention := zeros_like attention in
  let grad_values := zeros_like values in
  let grad_values :=
    let threads := 32 * 32 in
    let lblocks := ceildiv L 32 in
    let eblocks := ceildiv E 32 in
    let blocks := N * H * lblocks * eblocks in
    let strides :=
      Dim3 (H * lblocks * eblocks) (lblocks * eblocks) eblocks in
    local_copy_scaled_transpose 32 32 32 blocks threads attention grad
      grad_values strides ReverseLK_mk in
  let grad_attention :=
    unview3
      (sliding_dot 64 Lp_copy
         (view3 grad (N * H) L E)
         (view3 values (N * H) L E)
         (view3 grad_attention (N * H) L local_context)
         local_context)
      N H in
  (grad_attention, grad_values).
End Tiled.

(** ** Reference quantities the statements are phrased with *)

Section Reference.
Context {F : Type} `{Scalar F}.

(** The key position that relative index [k] of query [l] stands for. *)
Definition key_index (local_context l k : Z) : Z :=
  l - Z.quot local_context 2 + k.

(** Query positions visited by the loop of [sliding_dot]. *)
Definition chunk_starts (a_blocks L : Z) : list Z :=
  map (fun i => a_blocks * i) (zrange (Z.to_nat (ceildiv L a_blocks))).

(** [sum_{k=0}^{C-1} w[k] * v[l - C/2 + k]], keys outside [0, L)
    contributing zero. *)
Definition windowed_sum (L C l : Z) (w v : Z -> F) : F :=
  fsum (Z.to_nat C)
    (fun k =>
       if in_range (key_index C l k) L
       then fmul (w k) (v (key_index C l k)) else fzero).

(** [sum over (l, k), 0 <= l < L, 0 <= k < C, l - C/2 + k = s, of
    w[l][k] * x[l]]: the adjoint of the windowed gather at key [s]. *)
Definition scatter_sum (L C s : Z) (w : Z -> Z -> F) (x : Z -> F) : F :=
  fsum (Z.to_nat L)
    (fun l =>
       fsum (Z.to_nat C)
         (fun k =>
            if key_index C l k =? s then fmul (w l k) (x l) else fzero)).

(** What [local_copy_scaled_transpose] accumulates at key [s] with the
    policy [lk]: the queries [l = s - (C-1)/2 + kk] for [kk = 0 .. C-1],
    each paired with band column [lk kk]. *)
Definition transpose_sum (L C s : Z) (lk : Z -> Z) (w : Z -> Z -> F)
    (x : Z -> F) : F :=
  fsum (Z.to_nat C)
    (fun kk =>
       let l := s - Z.quot (C - 1) 2 + kk in
       if in_range l L then fmul (x l) (w l (lk kk)) else fzero).

(** The dense reference: the full score matrix [Q K^T + mask]. *)
Definition dense_scores (Q K : tensor4 F) (mask : tensor2 F)
    (n h l s : Z) : F :=
  fadd (dot (size4_3 Q) (get4 Q n h l) (get4 K n h s)) (get2 mask l s).

(** Dense entries that survive discarding every [|l-s| >= C/2]. *)
Definition dense_kept (C l s : Z) : bool := Z.abs (l - s) <? Z.quot C 2.

(** Dense entries inside the window [-C/2 <= s - l < C/2]. *)
Definition window_kept (C l s : Z) : bool :=
  (- Z.quot C 2 <=? s - l) && (s - l <? Z.quot C 2).

(** The banded scores agree with the dense entries selected by [kept]:
    every selected dense entry sits at [k = s - l + C/2], and every band
    cell different from minus infinity is a selected dense entry. *)
Definition dense_band_equiv (kept : Z -> Z -> Z -> bool)
    (scores : tensor4 F) (Q K : tensor4 F) (mask : tensor2 F) (C : Z)
  : Prop :=
  let N := size4_0 Q in
  let H := size4_1 Q in
  let L := size4_2 Q in
  (forall n h l s,
      0 <= n < N -> 0 <= h < H -> 0 <= l < L -> 0 <= s < L ->
      kept C l s = true ->
      get4 scores n h l (s - l + Z.quot C 2) = dense_scores Q K mask n h l s)
  /\
  (forall n h l k,
      0 <= n < N -> 0 <= h < H -> 0 <= l < L -> 0 <= k < C ->
      get4 scores n h l k <> fninf ->
      exists s, 0 <= s < L /\ kept C l s = true /\ k = s - l + Z.quot C 2
                /\ get4 scores n h l k = dense_scores Q K mask n h l s).

(** The key range of the chunk starting at [l0]. *)
Definition chunk_s_start (C l0 : Z) : Z := Z.max 0 (l0 - Z.quot C 2).
Definition chunk_s_end (a_blocks L C l0 : Z) : Z :=
  Z.min L (l0 - Z.quot C 2 + C + a_blocks).

(** The cells of [out] a selection kernel may write in a call of
    [sliding_dot] on [N] rows of length [L]: in-shape cells whose key index
    lies in the clipped key range of the chunk holding [l]. *)
Definition writable (a_blocks N L C n l k : Z) : Prop :=
  let l0 := a_blocks * Z.quot l a_blocks in
  0 <= n < N /\ 0 <= l < L /\ 0 <= k < C /\
  chunk_s_start C l0 <= key_index C l k < chunk_s_end a_blocks L C l0.

(** The cells the selection threads of one chunk can reach. *)
Definition chunk_cell (N C l_start n_a s_start n_b n l k : Z) : Prop :=
  0 <= n < N /\ l_start <= l < l_start + n_a /\ 0 <= k < C /\
  s_start <= key_index C l k < s_start + n_b.

(** The thread that owns a cell of the chunk. *)
Definition owner_idx (l_start s_start n_a n_b C n l k : Z) : Z :=
  n * (n_a * n_b) + (l - l_start) * n_b + (key_index C l k - s_start).

Definition shape4 (t : tensor4 F) (d0 d1 d2 d3 : Z) : Prop :=
  size4_0 t = d0 /\ size4_1 t = d1 /\ size4_2 t = d2 /\ size4_3 t = d3.

End Reference.

(** ** Auxiliary quantities for the tiled kernels *)

Section TiledReference.
Context {F : Type} `{Scalar F}.

(** The shared memory of block [b] after the loads of iteration [k] of
    [local_copy_scaled]. *)
Definition lcs_loaded (factors values : tensor4 F) (strides : dim3)
    (b k : Z) (m : shared) : shared :=
  fold_left
    (fun m t =>
       local_copy_scaled_load 32 32 32 factors values strides b k t m)
    (zrange (Z.to_nat 1024)) m.

(** The cells of the tile that block [(n, h, lblk, eblk)] owns. *)
Definition in_tile (n h lblk eblk n' h' l' e' : Z) : Prop :=
  n' = n /\ h' = h /\ lblk * 32 <= l' < lblk * 32 + 32
  /\ eblk * 32 <= e' < eblk * 32 + 32.

(** The product a thread of [local_copy_scaled] forms for window position
    [kk]: zero-padded factor times zero-padded value. *)
Definition lcs_term (factors values : tensor4 F) (n h l e kk : Z) : F :=
  let s := l - Z.quot (size4_3 factors) 2 + kk in
  fmul (if (l <? size4_2 factors) && (kk <? size4_3 factors)
           && (s >=? 0) && (s <? size4_2 values)
        then get4 factors n h l kk else fzero)
       (if (e <? size4_3 values) && (s >=? 0) && (s <? size4_2 values)
        then get4 values n h s e else fzero).

(** The shared memory of block [b] after the loads of iteration [k] of
    [local_copy_scaled_transpose]. *)
Definition lcst_loaded {P} `{LkPolicy P} (factors values : tensor4 F)
    (strides : dim3) (lk_policy : P) (b k : Z) (m : shared) : shared :=
  fold_left
    (fun m t =>
       local_copy_scaled_transpose_load 32 32 32 factors values strides
                                        lk_policy b k t m)
    (zrange (Z.to_nat 1024)) m.

(** The product a thread of [local_copy_scaled_transpose] forms for
    window position [kk]: zero-padded value times zero-padded factor,
    the factor read at band column [lk kk]. *)
Definition lcst_term (lk : Z -> Z) (factors values : tensor4 F)
    (n h s e kk : Z) : F :=
  let l := s - Z.quot (size4_3 factors - 1) 2 + kk in
  fmul (if (l >=? 0) && (l <? size4_2 factors) && (e <? size4_3 values)
        then get4 values n h l e else fzero)
       (if (l >=? 0) && (l <? size4_2 factors) && (kk <? size4_3 factors)
        then get4 factors n h l (lk kk) else fzero).
End TiledReference.

(** ** A small instance: N = H = 1, L = 2, E = 1, window C = 2 *)

Definition ex_Q : tensor4 xint :=
  T4 1 1 2 1 (fun _ _ l _ => Fin (if l =? 0 then 2 else 3)).
Definition ex_K : tensor4 xint :=
  T4 1 1 2 1 (fun _ _ l _ => Fin (if l =? 0 then 5 else 7)).
Definition ex_mask : tensor2 xint := T2 2 2 (fun l s => Fin (100 * l + 10 * s)).
Definition ex_key_lengths : tensor1 := T1 1 (fun _ => 2).
Definition ex_grad_scores : tensor4 xint :=
  T4 1 1 2 2 (fun _ _ l k => Fin (if (l =? 1) && (k =? 1) then 1 else 0)).
Definition ex_grad_edge : tensor4 xint :=
  T4 1 1 2 2 (fun _ _ l k => Fin (if (l =? 0) && (k =? 0) then 1 else 0)).
Definition ex_attn : tensor4 xint :=
  T4 1 1 2 2 (fun _ _ l k => Fin (1 + l + 2 * k)).
Definition ex_ones : tensor4 xint := T4 1 1 2 1 (fun _ _ _ _ => Fin 1).
Definition ex_shared : shared := fun _ => NInf.

(** * Proofs *)

(** ** Ranges, folds and loops *)

Lemma in_zrange (n : nat) (i : Z) :
  In i (zrange n) <-> 0 <= i < Z.of_nat n.
Proof.
  unfold zrange. rewrite in_map_iff. split.
  - intros [x [<- Hx]]. apply in_seq in Hx. lia.
  - intros Hi. exists (Z.to_nat i). split; [lia|]. apply in_seq. lia.
Qed.

Lemma zrange_S (n : nat) : zrange (S n) = zrange n ++ [Z.of_nat n].
Proof.
  unfold zrange. rewrite seq_S, map_app. reflexivity.
Qed.

Lemma zrange_app (a b : nat) :
  zrange (a + b) = zrange a ++ map (fun j => Z.of_nat a + j) (zrange b).
Proof.
  induction b as [|b IH].
  - rewrite Nat.add_0_r. simpl. now rewrite app_nil_r.
  - replace (a + S b)%nat with (S (a + b)) by lia.
    rewrite !zrange_S, IH, map_app, <- app_assoc. simpl.
    do 3 f_equal. lia.
Qed.

Lemma zrange_cons (n : nat) : zrange (S n) = 0 :: map Z.succ (zrange n).
Proof.
  change (S n) with (1 + n)%nat. rewrite zrange_app.
  change (zrange 1) with [0]. cbn [app]. f_equal.
  apply map_ext. intros a. change (Z.of_nat 1) with 1. lia.
Qed.

Lemma NoDup_zrange (n : nat) : NoDup (zrange n).
Proof.
  unfold zrange. apply NoDup_map_inv with (f := Z.to_nat).
  rewrite map_map. erewrite map_ext; [rewrite map_id; apply seq_NoDup|].
  intros a. apply Nat2Z.id.
Qed.

Lemma fold_left_ext_in {A B : Type} (f g : A -> B -> A) (xs : list B) :
  (forall a x, In x xs -> f a x = g a x) ->
  forall a, fold_left f xs a = fold_left g xs a.
Proof.
  induction xs as [|x xs IH]; intros Hfg a; simpl; [reflexivity|].
  rewrite Hfg by now left. apply IH. intros; apply Hfg; now right.
Qed.

(** Steps that keep an invariant keep it along a fold. *)
Lemma fold_left_inv {St X : Type} (Inv : St -> Prop) (body : St -> X -> St)
    (xs : list X) :
  (forall x st, In x xs -> Inv st -> Inv (body st x)) ->
  forall st, Inv st -> Inv (fold_left body xs st).
Proof.
  induction xs as [|x xs IH]; intros Hb st Hst; simpl; [assumption|].
  apply IH; [intros; apply Hb; auto; now right|]. apply Hb; auto; now left.
Qed.

(** Steps that leave an observation alone leave it alone in a fold. *)
Lemma fold_left_frame {St A X : Type} (Inv : St -> Prop) (obs : St -> A)
    (body : St -> X -> St) (xs : list X) :
  (forall x st, In x xs -> Inv st -> Inv (body st x)) ->
  (forall x st, In x xs -> Inv st -> obs (body st x) = obs st) ->
  forall st, Inv st -> obs (fold_left body xs st) = obs st.
Proof.
  induction xs as [|x xs IH]; intros Hi Hb st Hst; simpl; [reflexivity|].
  rewrite IH.
  - apply Hb; auto; now left.
  - intros; apply Hi; auto; now right.
  - intros; apply Hb; auto; now right.
  - apply Hi; auto; now left.
Qed.

(** When a single step [x0] of a fold touches an observation, the fold
    acts on it as that step does. *)
Lemma fold_left_owner {St A X : Type} (Inv : St -> Prop) (obs : St -> A)
    (body : St -> X -> St) (g : A -> A) (xs : list X) (x0 : X) :
  NoDup xs -> In x0 xs ->
  (forall x st, In x xs -> Inv st -> Inv (body st x)) ->
  (forall x st, In x xs -> x <> x0 -> Inv st -> obs (body st x) = obs st) ->
  (forall st, Inv st -> obs (body st x0) = g (obs st)) ->
  forall st, Inv st -> obs (fold_left body xs st) = g (obs st).
Proof.
  induction xs as [|x xs IH]; intros Hnd Hin Hi Hother Hown st Hst; [easy|].
  inversion Hnd as [|? ? Hnotin Hnd']; subst. simpl.
  assert (Hix : Inv (body st x)) by (apply Hi; auto; now left).
  destruct Hin as [-> | Hin].
  - rewrite (fold_left_frame Inv obs body); auto.
    + intros; apply Hi; auto; now right.
    + intros y st' Hy Hst'. apply Hother; auto; [now right|].
      intros ->. contradiction.
  - rewrite IH; auto.
    + f_equal. apply Hother; auto; [now left|]. intros ->. contradiction.
    + intros; apply Hi; auto; now right.
    + intros y st' Hy Hne Hst'. apply Hother; auto; now right.
Qed.

(** When every step adds to the observation, the fold adds up. *)
Lemma fold_left_accumulate {St A X : Type} (obs : St -> A)
    (body : St -> X -> St) (add : A -> X -> A) (xs : list X) :
  (forall x st, In x xs -> obs (body st x) = add (obs st) x) ->
  forall st, obs (fold_left body xs st) = fold_left add xs (obs st).
Proof.
  induction xs as [|x xs IH]; intros Hb st; simpl; [reflexivity|].
  rewrite IH by (intros; apply Hb; now right).
  f_equal. apply Hb; now left.
Qed.

Lemma fold_left_map {A B C : Type} (f : A -> C -> A) (g : B -> C)
    (xs : list B) (a : A) :
  fold_left f (map g xs) a = fold_left (fun a x => f a (g x)) xs a.
Proof.
  revert a. induction xs as [|x xs IH]; intros a; simpl; auto.
Qed.

(** The loop runs its body at [i, i + step, ..., i + step*(m-1)] when
    these are exactly the values below the bound and the fuel suffices. *)
Lemma for_loop_unroll {St : Type} (body : Z -> St -> St) (bound step : Z)
    (m : nat) :
  0 < step ->
  forall (fuel : nat) (i : Z) (st : St),
    (m <= fuel)%nat ->
    i + step * (Z.of_nat m - 1) < bound \/ m = O ->
    bound <= i + step * Z.of_nat m ->
    for_loop fuel i bound step body st =
    fold_left (fun st j => body (i + step * j) st) (zrange m) st.
Proof.
  intros Hstep. induction m as [|m IH]; intros fuel i st Hfuel Hlast Hbound.
  - simpl. destruct fuel; simpl; [reflexivity|].
    destruct (Z.ltb_spec i bound); [lia|reflexivity].
  - destruct fuel as [|fuel]; [lia|]. cbn [for_loop].
    destruct Hlast as [Hlast|]; [|discriminate].
    rewrite Nat2Z.inj_succ in Hlast, Hbound.
    assert (0 <= step * Z.of_nat m) by (apply Z.mul_nonneg_nonneg; lia).
    destruct (Z.ltb_spec i bound); [|lia].
    rewrite IH; [| lia | | lia].
    + rewrite zrange_cons. cbn [fold_left]. rewrite Z.mul_0_r, Z.add_0_r.
      rewrite fold_left_map. apply fold_left_ext_in.
      intros a x _. f_equal. lia.
    + destruct m; [now right|left]. lia.
Qed.

Lemma ceildiv_bounds (a b : Z) :
  0 <= a -> 0 < b ->
  0 <= ceildiv a b /\ b * (ceildiv a b - 1) < a <= b * ceildiv a b
  \/ a = 0 /\ ceildiv a b = 0.
Proof.
  intros Ha Hb. unfold ceildiv.
  rewrite Z.quot_div_nonneg by lia.
  pose proof (Z.div_mod (a + b - 1) b ltac:(lia)).
  pose proof (Z.mod_pos_bound (a + b - 1) b Hb).
  destruct (Z.eq_dec a 0) as [->|].
  - right. split; [reflexivity|]. apply Z.div_small. lia.
  - left. nia.
Qed.

Lemma for_loop_chunks {St : Type} (body : Z -> St -> St) (bound step : Z)
    (st : St) :
  0 <= bound -> 0 < step ->
  for_loop (Z.to_nat bound) 0 bound step body st =
  fold_left (fun st j => body (step * j) st)
            (zrange (Z.to_nat (ceildiv bound step))) st.
Proof.
  intros Hb Hs.
  destruct (ceildiv_bounds Hb Hs) as [[H0 [H1 H2]] | [-> ->]].
  - rewrite (@for_loop_unroll St body bound step
               (Z.to_nat (ceildiv bound step)) Hs).
    + apply fold_left_ext_in. intros. reflexivity.
    + apply Z2Nat.inj_le; nia.
    + destruct (Z.eq_dec (ceildiv bound step) 0) as [e|ne].
      * right. rewrite e. reflexivity.
      * left. rewrite Z2Nat.id by lia. lia.
    + rewrite Z2Nat.id by lia. lia.
  - reflexivity.
Qed.

(** ** Sums *)

Section Sums.
Context {F : Type} `{Scalar F}.

Lemma fsum_ext (n : nat) (f g : Z -> F) :
  (forall i, 0 <= i < Z.of_nat n -> f i = g i) -> fsum n f = fsum n g.
Proof.
  intros Hfg. unfold fsum. apply fold_left_ext_in.
  intros a x Hx. rewrite Hfg; [reflexivity|]. now apply in_zrange.
Qed.

Lemma dot_ext (E : Z) (a a' b b' : Z -> F) :
  (forall e, 0 <= e < E -> a e = a' e) ->
  (forall e, 0 <= e < E -> b e = b' e) ->
  dot E a b = dot E a' b'.
Proof.
  intros Ha Hb. unfold dot. apply fsum_ext. intros i Hi.
  rewrite Ha, Hb by lia. reflexivity.
Qed.

Context `{!ExactArith F}.

Lemma fsum_acc (n : nat) (f : Z -> F) (a : F) :
  fold_left (fun acc i => fadd acc (f i)) (zrange n) a = fadd a (fsum n f).
Proof.
  unfold fsum. induction n as [|n IH].
  - simpl. now rewrite fadd_0_r.
  - rewrite zrange_S, !fold_left_app. cbn [fold_left].
    rewrite IH, fadd_assoc. reflexivity.
Qed.

Lemma fsum_S (n : nat) (f : Z -> F) :
  fsum (S n) f = fadd (fsum n f) (f (Z.of_nat n)).
Proof.
  unfold fsum. rewrite zrange_S, fold_left_app. reflexivity.
Qed.

Lemma fsum_app (n m : nat) (f : Z -> F) :
  fsum (n + m) f = fadd (fsum n f) (fsum m (fun i => f (Z.of_nat n + i))).
Proof.
  unfold fsum at 1. rewrite zrange_app, fold_left_app, fold_left_map.
  fold (fsum n f). apply fsum_acc.
Qed.

Lemma fsum_zero (n : nat) (f : Z -> F) :
  (forall i, 0 <= i < Z.of_nat n -> f i = fzero) -> fsum n f = fzero.
Proof.
  induction n as [|n IH]; intros Hf; [reflexivity|].
  rewrite fsum_S, IH, Hf by (try intros; try apply Hf; lia).
  apply fadd_0_l.
Qed.

(** A sum whose terms vanish away from [j] is its term at [j]. *)
Lemma fsum_single (n : nat) (f : Z -> F) (j : Z) :
  0 <= j < Z.of_nat n ->
  (forall i, 0 <= i < Z.of_nat n -> i <> j -> f i = fzero) ->
  fsum n f = f j.
Proof.
  intros Hj Hf.
  replace n with (Z.to_nat j + (1 + (n - Z.to_nat j - 1)))%nat by lia.
  rewrite fsum_app, (fsum_app 1).
  rewrite (fsum_zero (Z.to_nat j)) by (intros; apply Hf; lia).
  rewrite (fsum_zero (n - Z.to_nat j - 1))
    by (intros; apply Hf; change (Z.of_nat 1) with 1; lia).
  rewrite fadd_0_l, fadd_0_r. unfold fsum. cbn. rewrite fadd_0_l.
  f_equal. lia.
Qed.

(** Adding up per block of [m] terms is adding up all terms. *)
Lemma fsum_chunks (m n : nat) (t : Z -> F) (a : F) :
  fold_left
    (fun acc c => fadd acc (fsum m (fun j => t (Z.of_nat m * c + j))))
    (zrange n) a
  = fadd a (fsum (n * m) t).
Proof.
  induction n as [|n IH].
  - change (fsum (0 * m) t) with (@fzero F _). cbn [zrange seq map fold_left].
    symmetry. apply fadd_0_r.
  - rewrite zrange_S, fold_left_app. cbn [fold_left]. rewrite IH.
    replace (S n * m)%nat with (n * m + m)%nat by lia.
    rewrite fsum_app, fadd_assoc. f_equal.
    apply fsum_ext. intros i _. f_equal. lia.
Qed.

(** Terms past the end that vanish can be dropped. *)
Lemma fsum_trailing (n m : nat) (f : Z -> F) :
  (n <= m)%nat ->
  (forall i, Z.of_nat n <= i < Z.of_nat m -> f i = fzero) ->
  fsum m f = fsum n f.
Proof.
  intros Hnm Hf. replace m with (n + (m - n))%nat by lia.
  rewrite fsum_app, (fsum_zero (m - n)), fadd_0_r; [reflexivity|].
  intros; apply Hf; lia.
Qed.

(** A sum over [0 <= l < L] restricted to [a <= l < a + C] is the sum
    over [0 <= kk < C] restricted to [0 <= a + kk < L]. *)
Lemma fsum_window (L C : nat) (a : Z) (t : Z -> F) :
  fsum L (fun l => if (a <=? l) && (l <? a + Z.of_nat C) then t l else fzero)
  = fsum C (fun kk => if in_range (a + kk) (Z.of_nat L)
                      then t (a + kk) else fzero).
Proof.
  destruct (Z_lt_dec (Z.max 0 a) (Z.min (Z.of_nat L) (a + Z.of_nat C)))
    as [Hne|Hempty].
  2:{ rewrite !fsum_zero; [reflexivity| |].
      - intros i Hi. unfold in_range.
        destruct (Z.leb_spec 0 (a + i)); [|reflexivity].
        destruct (Z.ltb_spec (a + i) (Z.of_nat L)); [lia|reflexivity].
      - intros i Hi. destruct (Z.leb_spec a i); [|reflexivity].
        destruct (Z.ltb_spec i (a + Z.of_nat C)); [lia|reflexivity]. }
  set (lo := Z.max 0 a) in *.
  set (hi := Z.min (Z.of_nat L) (a + Z.of_nat C)) in *.
  transitivity (fsum (Z.to_nat (hi - lo)) (fun i => t (lo + i))).
  - replace L with (Z.to_nat lo + (Z.to_nat (hi - lo)
                                   + Z.to_nat (Z.of_nat L - hi)))%nat by lia.
    rewrite fsum_app, fsum_app.
    rewrite (fsum_zero (Z.to_nat lo)).
    2:{ intros i Hi. destruct (Z.leb_spec a i); [|reflexivity].
        destruct (Z.ltb_spec i (a + Z.of_nat C)); [lia|reflexivity]. }
    rewrite (fsum_zero (Z.to_nat (Z.of_nat L - hi))).
    2:{ intros i Hi.
        destruct (Z.leb_spec a (Z.of_nat (Z.to_nat lo) +
                                (Z.of_nat (Z.to_nat (hi - lo)) + i)));
          [|reflexivity].
        destruct (Z.ltb_spec (Z.of_nat (Z.to_nat lo) +
                    (Z.of_nat (Z.to_nat (hi - lo)) + i)) (a + Z.of_nat C));
          [lia|reflexivity]. }
    rewrite fadd_0_l, fadd_0_r. apply fsum_ext. intros i Hi.
    destruct (Z.leb_spec a (Z.of_nat (Z.to_nat lo) + i)); [|lia].
    destruct (Z.ltb_spec (Z.of_nat (Z.to_nat lo) + i) (a + Z.of_nat C));
      [|lia].
    cbn [andb]. f_equal. lia.
  - set (lo' := lo - a).
    replace C with (Z.to_nat lo' + (Z.to_nat (hi - lo)
                    + Z.to_nat (Z.of_nat C - (hi - a))))%nat by lia.
    rewrite fsum_app, fsum_app.
    rewrite (fsum_zero (Z.to_nat lo')).
    2:{ intros i Hi. unfold in_range.
        destruct (Z.leb_spec 0 (a + i)); [|reflexivity].
        destruct (Z.ltb_spec (a + i) (Z.of_nat L)); [lia|reflexivity]. }
    rewrite (fsum_zero (Z.to_nat (Z.of_nat C - (hi - a)))).
    2:{ intros i Hi. unfold in_range.
        destruct (Z.leb_spec 0 (a + (Z.of_nat (Z.to_nat lo') +
                                   (Z.of_nat (Z.to_nat (hi - lo)) + i))));
          [|reflexivity].
        destruct (Z.ltb_spec (a + (Z.of_nat (Z.to_nat lo') +
                    (Z.of_nat (Z.to_nat (hi - lo)) + i))) (Z.of_nat L));
          [lia|reflexivity]. }
    rewrite fadd_0_l, fadd_0_r. symmetry. apply fsum_ext. intros i Hi.
    unfold in_range.
    destruct (Z.leb_spec 0 (a + (Z.of_nat (Z.to_nat lo') + i))); [|lia].
    destruct (Z.ltb_spec (a + (Z.of_nat (Z.to_nat lo') + i)) (Z.of_nat L));
      [|lia].
    cbn [andb]. f_equal. lia.
Qed.
End Sums.

(** ** Index arithmetic *)

(** Case analysis on the integer tests met in a goal. *)
Ltac ztests :=
  repeat match goal with
    | |- context [?a <? ?b] => destruct (Z.ltb_spec a b)
    | |- context [?a <=? ?b] => destruct (Z.leb_spec a b)
    | |- context [?a >=? ?b] => rewrite (Z.geb_leb a b)
    | |- context [?a >? ?b] => rewrite (Z.gtb_ltb a b)
    | |- context [?a =? ?b] => destruct (Z.eqb_spec a b)
    end;
  cbn [andb orb negb].

Lemma flat3_decomp (idx n_a n_b : Z) :
  0 <= idx -> 0 < n_a -> 0 < n_b ->
  let n := Z.quot idx (n_a * n_b) in
  let r := idx - n * (n_a * n_b) in
  let lo := Z.quot r n_b in
  let so := r - lo * n_b in
  0 <= n /\ 0 <= lo < n_a /\ 0 <= so < n_b.
Proof.
  intros Hidx Ha Hb n r lo so.
  assert (Hab : 0 < n_a * n_b) by nia.
  assert (Hn : n = idx / (n_a * n_b))
    by (subst n; apply Z.quot_div_nonneg; lia).
  pose proof (Z.div_mod idx (n_a * n_b) ltac:(lia)) as E1.
  pose proof (Z.mod_pos_bound idx (n_a * n_b) Hab) as B1.
  assert (Hr : r = idx mod (n_a * n_b)) by (subst r; rewrite Hn; lia).
  assert (Hlo : lo = r / n_b)
    by (subst lo; apply Z.quot_div_nonneg; lia).
  pose proof (Z.div_mod r n_b ltac:(lia)) as E2.
  pose proof (Z.mod_pos_bound r n_b Hb) as B2.
  assert (Hso : so = r mod n_b) by (subst so; rewrite Hlo; lia).
  assert (0 <= idx / (n_a * n_b)) by (apply Z.div_pos; lia).
  assert (0 <= r / n_b) by (apply Z.div_pos; lia).
  repeat split; try lia.
  rewrite Hlo. apply Z.div_lt_upper_bound; lia.
Qed.

Lemma flat3_compose (n lo so n_a n_b : Z) :
  0 <= n -> 0 <= lo < n_a -> 0 <= so < n_b ->
  let idx := n * (n_a * n_b) + lo * n_b + so in
  Z.quot idx (n_a * n_b) = n /\ Z.quot (idx - n * (n_a * n_b)) n_b = lo.
Proof.
  intros Hn Hlo Hso idx.
  assert (0 <= lo * n_b + so < n_a * n_b) by nia.
  assert (0 <= n * (n_a * n_b)) by nia.
  split.
  - rewrite Z.quot_div_nonneg by lia.
    symmetry. apply Z.div_unique with (r := lo * n_b + so); lia.
  - rewrite Z.quot_div_nonneg by lia.
    symmetry. apply Z.div_unique with (r := so); lia.
Qed.

Lemma quot_chunk (a l j : Z) :
  0 < a -> 0 <= l -> a * j <= l < a * j + a -> Z.quot l a = j.
Proof.
  intros Ha Hl0 Hl.
  rewrite Z.quot_div_nonneg by lia.
  symmetry. apply Z.div_unique with (r := l - a * j); lia.
Qed.

Lemma quot_chunk_bounds (a l : Z) :
  0 < a -> 0 <= l ->
  0 <= Z.quot l a /\ a * Z.quot l a <= l < a * Z.quot l a + a.
Proof.
  intros Ha Hl. rewrite Z.quot_div_nonneg by lia.
  pose proof (Z.div_mod l a ltac:(lia)).
  pose proof (Z.mod_pos_bound l a Ha).
  assert (0 <= l / a) by (apply Z.div_pos; lia). lia.
Qed.

(** ** The selection kernel and the driver *)

Section SlidingDotProofs.
Context {F : Type} `{Scalar F}.

Lemma get3_set3 (t : tensor3 F) (n l k n' l' k' : Z) (v : F) :
  get3 (set3 t n l k v) n' l' k' =
  if (n' =? n) && (l' =? l) && (k' =? k) then v else get3 t n' l' k'.
Proof. reflexivity. Qed.

(** A thread writes nothing outside the cells of its chunk. *)
Lemma select_call_frame (val : Z -> Z -> F -> F) (buff out : tensor3 F)
    (C l_start s_start n_a n_b idx n l k : Z) :
  0 <= idx -> 0 < n_a -> 0 < n_b ->
  ~ chunk_cell (size3_0 buff) C l_start n_a s_start n_b n l k ->
  get3 (select_call val buff out C l_start s_start (n_a * n_b) n_b idx) n l k
  = get3 out n l k.
Proof.
  intros Hidx Ha Hb Hcell.
  destruct (flat3_decomp Hidx Ha Hb) as [Hn [Hlo Hso]].
  unfold select_call. cbv zeta.
  set (n' := Z.quot idx (n_a * n_b)) in *.
  set (lo := Z.quot (idx - n' * (n_a * n_b)) n_b) in *.
  set (so := idx - n' * (n_a * n_b) - lo * n_b) in *.
  destruct (n' >=? size3_0 buff) eqn:En; [reflexivity|].
  destruct ((s_start + so - (l_start + lo) + Z.quot C 2 <? 0)
            || (s_start + so - (l_start + lo) + Z.quot C 2 >=? C)) eqn:Ek;
    [reflexivity|].
  rewrite get3_set3.
  destruct ((n =? n') && (l =? l_start + lo)
            && (k =? s_start + so - (l_start + lo) + Z.quot C 2)) eqn:Eq;
    [|reflexivity].
  exfalso. apply Hcell. unfold chunk_cell, key_index.
  apply andb_prop in Eq. destruct Eq as [Eq E3].
  apply andb_prop in Eq. destruct Eq as [E1 E2].
  apply orb_false_elim in Ek. destruct Ek as [Ek1 Ek2].
  lia.
Qed.

Lemma select_call_owner (val : Z -> Z -> F -> F) (buff out : tensor3 F)
    (C l_start s_start n_a n_b n l k : Z) :
  chunk_cell (size3_0 buff) C l_start n_a s_start n_b n l k ->
  get3 (select_call val buff out C l_start s_start (n_a * n_b) n_b
          (owner_idx l_start s_start n_a n_b C n l k)) n l k
  = val l (key_index C l k)
        (get3 buff n (l - l_start) (key_index C l k - s_start)).
Proof.
  intros (Hn & Hl & Hk & Hs).
  destruct (@flat3_compose n (l - l_start) (key_index C l k - s_start)
              n_a n_b) as [E1 E2]; try lia.
  unfold select_call, owner_idx. cbv zeta.
  rewrite E1, E2.
  replace (n * (n_a * n_b) + (l - l_start) * n_b
           + (key_index C l k - s_start) - n * (n_a * n_b)
           - (l - l_start) * n_b)
    with (key_index C l k - s_start) by lia.
  replace (l_start + (l - l_start)) with l by lia.
  replace (s_start + (key_index C l k - s_start)) with (key_index C l k)
    by lia.
  replace (key_index C l k - l + Z.quot C 2) with k
    by (unfold key_index; lia).
  destruct (n >=? size3_0 buff) eqn:En; [lia|].
  destruct ((k <? 0) || (k >=? C)) eqn:Ek.
  { apply orb_prop in Ek. lia. }
  rewrite get3_set3, !Z.eqb_refl. reflexivity.
Qed.

Lemma select_call_other (val : Z -> Z -> F -> F) (buff out : tensor3 F)
    (C l_start s_start n_a n_b idx n l k : Z) :
  0 <= idx -> 0 < n_a -> 0 < n_b ->
  idx <> owner_idx l_start s_start n_a n_b C n l k ->
  get3 (select_call val buff out C l_start s_start (n_a * n_b) n_b idx) n l k
  = get3 out n l k.
Proof.
  intros Hidx Ha Hb Hne.
  unfold select_call. cbv zeta.
  set (n' := Z.quot idx (n_a * n_b)) in *.
  set (lo := Z.quot (idx - n' * (n_a * n_b)) n_b) in *.
  set (so := idx - n' * (n_a * n_b) - lo * n_b) in *.
  destruct (n' >=? size3_0 buff) eqn:En; [reflexivity|].
  destruct ((s_start + so - (l_start + lo) + Z.quot C 2 <? 0)
            || (s_start + so - (l_start + lo) + Z.quot C 2 >=? C)) eqn:Ek;
    [reflexivity|].
  rewrite get3_set3.
  destruct ((n =? n') && (l =? l_start + lo)
            && (k =? s_start + so - (l_start + lo) + Z.quot C 2)) eqn:Eq;
    [|reflexivity].
  exfalso. apply Hne. unfold owner_idx, key_index.
  apply andb_prop in Eq. destruct Eq as [Eq E3].
  apply andb_prop in Eq. destruct Eq as [E1 E2].
  subst so. lia.
Qed.

Lemma half_bounds (C : Z) :
  0 <= C -> 0 <= Z.quot C 2 /\ 2 * Z.quot C 2 <= C <= 2 * Z.quot C 2 + 1.
Proof.
  intros HC. rewrite Z.quot_div_nonneg by lia.
  pose proof (Z.div_mod C 2 ltac:(lia)).
  pose proof (Z.mod_pos_bound C 2 ltac:(lia)). lia.
Qed.

Lemma launch_select_owner (val : Z -> Z -> F -> F) (buff out : tensor3 F)
    (C l_start s_start n l k : Z) :
  0 < size3_1 buff -> 0 < size3_2 buff ->
  chunk_cell (size3_0 buff) C l_start (size3_1 buff) s_start (size3_2 buff)
             n l k ->
  get3 (launch_flat (ceildiv (numel3 buff) 1024) 1024
          (fun idx out =>
             select_call val buff out C l_start s_start
                         (size3_1 buff * size3_2 buff) (size3_2 buff) idx)
          out) n l k
  = val l (key_index C l k)
        (get3 buff n (l - l_start) (key_index C l k - s_start)).
Proof.
  intros Ha Hb Hcell. unfold launch_flat.
  set (v := val l (key_index C l k)
                (get3 buff n (l - l_start) (key_index C l k - s_start))).
  apply (@fold_left_owner (tensor3 F) F Z (fun _ => True)
           (fun o => get3 o n l k)
           (fun st idx =>
              select_call val buff st C l_start s_start
                          (size3_1 buff * size3_2 buff) (size3_2 buff) idx)
           (fun _ => v) _
           (owner_idx l_start s_start (size3_1 buff) (size3_2 buff) C n l k));
    auto.
  - apply NoDup_zrange.
  - apply in_zrange. destruct Hcell as (Hn & Hl & Hk & Hs).
    unfold owner_idx, numel3.
    set (na := size3_1 buff) in *. set (nb := size3_2 buff) in *.
    set (N := size3_0 buff) in *.
    assert (0 <= (l - l_start) * nb + (key_index C l k - s_start) < na * nb)
      by nia.
    assert (0 <= n * (na * nb) <= (N - 1) * (na * nb)) by nia.
    assert (0 <= N * na * nb) by nia.
    destruct (@ceildiv_bounds (N * na * nb) 1024) as [[? ?]|[? ?]]; lia.
  - intros idx st Hin Hne _. apply in_zrange in Hin.
    apply select_call_other; auto; lia.
  - intros st _. apply select_call_owner; auto.
Qed.

Lemma launch_select_frame (val : Z -> Z -> F -> F) (buff out : tensor3 F)
    (C l_start s_start n l k blocks : Z) :
  0 < size3_1 buff -> 0 < size3_2 buff ->
  ~ chunk_cell (size3_0 buff) C l_start (size3_1 buff) s_start
      (size3_2 buff) n l k ->
  get3 (launch_flat blocks 1024
          (fun idx out =>
             select_call val buff out C l_start s_start
                         (size3_1 buff * size3_2 buff) (size3_2 buff) idx)
          out) n l k
  = get3 out n l k.
Proof.
  intros Ha Hb Hcell. unfold launch_flat.
  apply (@fold_left_frame (tensor3 F) F Z (fun _ => True)
           (fun o => get3 o n l k)); auto.
  intros idx st Hin _. apply in_zrange in Hin.
  apply select_call_frame; auto; lia.
Qed.

(** The sizes of the sub-problem of the chunk starting at [l0]. *)
Lemma chunk_sizes_pos (a L C l0 : Z) :
  0 < a -> 0 <= C -> 0 <= l0 < L ->
  0 < Z.min (L - l0) a /\ 0 < chunk_s_end a L C l0 - chunk_s_start C l0.
Proof.
  intros Ha HC Hl0. unfold chunk_s_end, chunk_s_start.
  pose proof (half_bounds HC). lia.
Qed.

Lemma sliding_dot_body_owner (a : Z) (val : Z -> Z -> F -> F)
    (A B : tensor3 F) (C l0 : Z) (st : tensor3 F * tensor3 F) (n l k : Z) :
  0 < a -> 0 <= C -> 0 <= l0 < size3_1 A ->
  size3_0 (fst st) = size3_0 A ->
  chunk_cell (size3_0 A) C l0 (Z.min (size3_1 A - l0) a)
             (chunk_s_start C l0)
             (chunk_s_end a (size3_1 A) C l0 - chunk_s_start C l0) n l k ->
  get3 (snd (sliding_dot_body a val A B C l0 st)) n l k
  = val l (key_index C l k)
        (dot (size3_2 A) (get3 A n l) (get3 B n (key_index C l k))).
Proof.
  intros Ha HC Hl0 Hsz Hcell.
  destruct (chunk_sizes_pos Ha HC Hl0) as [Hna Hnb].
  unfold sliding_dot_body. cbv zeta. cbn [snd].
  unfold sliding_dot_copy_kernel, copy_call, select_impl.
  fold (chunk_s_start C l0). fold (chunk_s_end a (size3_1 A) C l0).
  rewrite launch_select_owner.
  - cbn [narrow12 matmul_out get3].
    destruct Hcell as (Hn & Hl & Hk & Hs).
    replace (in_range n (size3_0 A)) with true by (unfold in_range; lia).
    replace (in_range (l - l0) (Z.min (size3_1 A - l0) a)) with true
      by (unfold in_range; lia).
    replace (in_range (key_index C l k - chunk_s_start C l0)
               (chunk_s_end a (size3_1 A) C l0 - chunk_s_start C l0))
      with true by (unfold in_range; lia).
    cbn [andb].
    replace (l0 + (l - l0)) with l by lia.
    replace (chunk_s_start C l0 + (key_index C l k - chunk_s_start C l0))
      with (key_index C l k) by lia.
    reflexivity.
  - cbn [narrow12 size3_1 size3_2]. lia.
  - cbn [narrow12 size3_1 size3_2]. lia.
  - cbn [narrow12 matmul_out size3_0 size3_1 size3_2]. rewrite Hsz. exact Hcell.
Qed.

Lemma sliding_dot_body_frame (a : Z) (val : Z -> Z -> F -> F)
    (A B : tensor3 F) (C l0 : Z) (st : tensor3 F * tensor3 F) (n l k : Z) :
  0 < a -> 0 <= C -> 0 <= l0 < size3_1 A ->
  size3_0 (fst st) = size3_0 A ->
  ~ chunk_cell (size3_0 A) C l0 (Z.min (size3_1 A - l0) a)
      (chunk_s_start C l0)
      (chunk_s_end a (size3_1 A) C l0 - chunk_s_start C l0) n l k ->
  get3 (snd (sliding_dot_body a val A B C l0 st)) n l k = get3 (snd st) n l k.
Proof.
  intros Ha HC Hl0 Hsz Hcell.
  destruct (chunk_sizes_pos Ha HC Hl0) as [Hna Hnb].
  unfold sliding_dot_body. cbv zeta. cbn [snd].
  unfold sliding_dot_copy_kernel, copy_call, select_impl.
  fold (chunk_s_start C l0). fold (chunk_s_end a (size3_1 A) C l0).
  rewrite launch_select_frame;
    [ reflexivity
    | cbn [narrow12 size3_1 size3_2]; lia
    | cbn [narrow12 size3_1 size3_2]; lia
    | cbn [narrow12 matmul_out size3_0 size3_1 size3_2];
      rewrite Hsz; exact Hcell ].
Qed.

Lemma sliding_dot_body_size (a : Z) (val : Z -> Z -> F -> F)
    (A B : tensor3 F) (C l0 : Z) (st : tensor3 F * tensor3 F) :
  size3_0 (fst (sliding_dot_body a val A B C l0 st)) = size3_0 (fst st).
Proof. reflexivity. Qed.

(** The loop of [sliding_dot] visits the chunk starts in order. *)
Lemma sliding_dot_unroll {T} `{CopyImplementation F T} (a : Z) (cp : T)
    (A B out : tensor3 F) (C : Z) :
  0 < a ->
  sliding_dot a cp A B out C =
  snd (fold_left (fun st l0 => sliding_dot_body a cp A B C l0 st)
         (chunk_starts a (size3_1 A))
         (full3 (size3_0 A) a (a + C) fzero, out)).
Proof.
  intros Ha. unfold sliding_dot, chunk_starts. cbv zeta.
  rewrite fold_left_map.
  destruct (Z_le_gt_dec 0 (size3_1 A)) as [HL|HL].
  - rewrite for_loop_chunks by lia. reflexivity.
  - replace (Z.to_nat (size3_1 A)) with O by lia.
    assert (ceildiv (size3_1 A) a <= 0).
    { unfold ceildiv.
      rewrite <- (Z.quot_small (a - 1) a) by lia.
      apply Z.quot_le_mono; lia. }
    replace (Z.to_nat (ceildiv (size3_1 A) a)) with O by lia.
    reflexivity.
Qed.

Lemma chunk_index_range (a L j : Z) :
  0 < a -> 0 <= L ->
  0 <= j < Z.of_nat (Z.to_nat (ceildiv L a)) -> 0 <= a * j < L.
Proof.
  intros Ha HL Hj.
  destruct (@ceildiv_bounds L a HL Ha) as [[? ?]|[? E]].
  - nia.
  - rewrite E in Hj. simpl in Hj. lia.
Qed.

(** Every band cell with an existing key receives its score. *)
Lemma sliding_dot_cell (a : Z) (val : Z -> Z -> F -> F)
    (A B out : tensor3 F) (C n l k : Z) :
  0 < a -> 0 <= n < size3_0 A -> 0 <= l < size3_1 A -> 0 <= k < C ->
  0 <= key_index C l k < size3_1 A ->
  get3 (sliding_dot a val A B out C) n l k
  = val l (key_index C l k)
        (dot (size3_2 A) (get3 A n l) (get3 B n (key_index C l k))).
Proof.
  intros Ha Hn Hl Hk Hs.
  assert (HC : 0 <= C) by lia.
  rewrite sliding_dot_unroll by assumption.
  unfold chunk_starts. rewrite fold_left_map.
  destruct (@quot_chunk_bounds a l Ha ltac:(lia)) as [Hj0 Hj1].
  pose proof (half_bounds HC) as Hh.
  set (v := val l (key_index C l k)
                (dot (size3_2 A) (get3 A n l) (get3 B n (key_index C l k)))).
  apply (@fold_left_owner (tensor3 F * tensor3 F) F Z
           (fun st => size3_0 (fst st) = size3_0 A)
           (fun st => get3 (snd st) n l k)
           (fun st j => sliding_dot_body a val A B C (a * j) st)
           (fun _ => v) _ (Z.quot l a)).
  - apply NoDup_zrange.
  - apply in_zrange.
    destruct (@ceildiv_bounds (size3_1 A) a ltac:(lia) Ha) as [[? ?]|[? ?]];
      [|lia].
    rewrite Z2Nat.id by lia. nia.
  - intros j st _ Hinv. rewrite sliding_dot_body_size. exact Hinv.
  - intros j st Hin Hne Hinv. apply in_zrange in Hin.
    pose proof (@chunk_index_range a (size3_1 A) j Ha ltac:(lia) Hin).
    apply sliding_dot_body_frame; auto.
    intros (_ & Hl' & _). apply Hne. symmetry. apply quot_chunk; lia.
  - intros st Hinv. apply sliding_dot_body_owner; auto; [lia|].
    unfold chunk_cell, chunk_s_start, chunk_s_end, key_index in *. lia.
  - reflexivity.
Qed.

(** Cells that are not writable keep the value they had in [out]. *)
Lemma sliding_dot_frame (a : Z) (val : Z -> Z -> F -> F)
    (A B out : tensor3 F) (C n l k : Z) :
  0 < a -> 0 <= C ->
  ~ writable a (size3_0 A) (size3_1 A) C n l k ->
  get3 (sliding_dot a val A B out C) n l k = get3 out n l k.
Proof.
  intros Ha HC Hw.
  rewrite sliding_dot_unroll by assumption.
  unfold chunk_starts. rewrite fold_left_map.
  destruct (Z_le_gt_dec 0 (size3_1 A)) as [HL|HL].
  2:{ assert (ceildiv (size3_1 A) a <= 0).
      { unfold ceildiv. rewrite <- (Z.quot_small (a - 1) a) by lia.
        apply Z.quot_le_mono; lia. }
      replace (Z.to_nat (ceildiv (size3_1 A) a)) with O by lia.
      reflexivity. }
  apply (@fold_left_frame (tensor3 F * tensor3 F) F Z
           (fun st => size3_0 (fst st) = size3_0 A)
           (fun st => get3 (snd st) n l k)
           (fun st j => sliding_dot_body a val A B C (a * j) st)).
  - intros j st _ Hinv. rewrite sliding_dot_body_size. exact Hinv.
  - intros j st Hin Hinv. apply in_zrange in Hin.
    pose proof (@chunk_index_range a (size3_1 A) j Ha HL Hin).
    apply sliding_dot_body_frame; auto.
    intros (Hn & Hl' & Hk & Hs). apply Hw. unfold writable. cbv zeta.
    rewrite (@quot_chunk a l j) by lia.
    unfold chunk_s_end in *. lia.
  - reflexivity.
Qed.

Lemma sliding_dot_masked (a : Z) (cp : masked_lp_copy)
    (A B out : tensor3 F) (C : Z) :
  sliding_dot a cp A B out C = sliding_dot a (masked_val cp) A B out C.
Proof. reflexivity. Qed.

Lemma sliding_dot_plain (a : Z) (A B out : tensor3 F) (C : Z) :
  sliding_dot a Lp_copy A B out C = sliding_dot a plain_val A B out C.
Proof. reflexivity. Qed.
End SlidingDotProofs.

(** ** Blocks, tiles and threads of the tiled kernels *)

Lemma block_coords_compose (H lb eb n h lblk eblk : Z) :
  0 <= n -> 0 <= h < H -> 0 <= lblk < lb -> 0 <= eblk < eb ->
  block_coords (Dim3 (H * lb * eb) (lb * eb) eb)
               (n * (H * lb * eb) + h * (lb * eb) + lblk * eb + eblk)
  = (n, h, lblk, eblk).
Proof.
  intros Hn Hh Hl He.
  assert (0 <= lblk * eb + eblk < lb * eb) by nia.
  assert (0 <= h * (lb * eb) + (lblk * eb + eblk) < H * lb * eb) by nia.
  assert (0 <= n * (H * lb * eb)) by nia.
  assert (0 <= h * (lb * eb)) by nia.
  assert (0 <= lblk * eb) by nia.
  unfold block_coords. cbn [dim3_x dim3_y dim3_z]. cbv zeta.
  set (b := n * (H * lb * eb) + h * (lb * eb) + lblk * eb + eblk).
  assert (E1 : Z.quot b (H * lb * eb) = n).
  { rewrite Z.quot_div_nonneg by lia. symmetry.
    apply Z.div_unique with (r := h * (lb * eb) + (lblk * eb + eblk)); lia. }
  rewrite E1.
  assert (E2 : Z.quot (b - n * (H * lb * eb)) (lb * eb) = h).
  { rewrite Z.quot_div_nonneg by lia. symmetry.
    apply Z.div_unique with (r := lblk * eb + eblk); lia. }
  rewrite E2.
  assert (E3 : Z.quot (b - n * (H * lb * eb) - h * (lb * eb)) eb = lblk).
  { rewrite Z.quot_div_nonneg by lia. symmetry.
    apply Z.div_unique with (r := eblk); lia. }
  rewrite E3. repeat f_equal. lia.
Qed.

Lemma block_coords_inj (strides : dim3) (b n h lblk eblk : Z) :
  block_coords strides b = (n, h, lblk, eblk) ->
  b = n * dim3_x strides + h * dim3_y strides + lblk * dim3_z strides + eblk.
Proof.
  unfold block_coords. cbv zeta. intros E. injection E as E1 E2 E3 E4.
  rewrite <- E4, <- E3, <- E2, <- E1. lia.
Qed.

Lemma thread_coords (t : Z) :
  0 <= t < 1024 ->
  0 <= Z.quot t 32 < 32 /\ 0 <= t - Z.quot t 32 * 32 < 32.
Proof.
  intros Ht. rewrite Z.quot_div_nonneg by lia.
  pose proof (Z.div_mod t 32 ltac:(lia)).
  pose proof (Z.mod_pos_bound t 32 ltac:(lia)). lia.
Qed.

Lemma thread_coords_compose (i j : Z) :
  0 <= i < 32 -> 0 <= j < 32 ->
  Z.quot (i * 32 + j) 32 = i.
Proof.
  intros Hi Hj. rewrite Z.quot_div_nonneg by lia. symmetry.
  apply Z.div_unique with (r := j); lia.
Qed.

Lemma tile_index (l : Z) :
  0 <= l ->
  0 <= Z.quot l 32 /\ 0 <= l - Z.quot l 32 * 32 < 32.
Proof.
  intros Hl. rewrite Z.quot_div_nonneg by lia.
  pose proof (Z.div_mod l 32 ltac:(lia)).
  pose proof (Z.mod_pos_bound l 32 ltac:(lia)). lia.
Qed.

Lemma tile_count (L l : Z) :
  0 <= l < L -> Z.quot l 32 < ceildiv L 32.
Proof.
  intros Hl. destruct (tile_index (l := l) ltac:(lia)).
  destruct (@ceildiv_bounds L 32) as [[? ?]|[? ?]]; lia.
Qed.

Section TiledProofs.
Context {F : Type} {SF : Scalar F}.

Lemma get4_set4 (t : tensor4 F) (n h l e n' h' l' e' : Z) (v : F) :
  get4 (set4 t n h l e v) n' h' l' e' =
  if (n' =? n) && (h' =? h) && (l' =? l) && (e' =? e)
  then v else get4 t n' h' l' e'.
Proof. reflexivity. Qed.

(** Three stores per thread at offsets that keep the threads apart. *)
Lemma fold_store3 (o1 o2 o3 : Z) (v1 v2 v3 : Z -> F) (m : shared)
    (a : Z) :
  let body := fun (m : shared) t =>
    store (store (store m (o1 + t) (v1 t)) (o2 + t) (v2 t)) (o3 + t) (v3 t) in
  1024 <= Z.abs (o1 - o2) -> 1024 <= Z.abs (o2 - o3) ->
  1024 <= Z.abs (o1 - o3) ->
  0 <= a < 1024 ->
  fold_left body (zrange 1024) m (o1 + a) = v1 a /\
  fold_left body (zrange 1024) m (o2 + a) = v2 a /\
  fold_left body (zrange 1024) m (o3 + a) = v3 a.
Proof.
  intros body H12 H23 H13 Ha.
  assert (Hin : In a (zrange 1024)) by (apply in_zrange; lia).
  repeat split.
  - apply (@fold_left_owner shared F Z (fun _ => True)
             (fun m => m (o1 + a)) body (fun _ => v1 a) _ a); auto.
    + apply NoDup_zrange.
    + intros t st Ht Hne _. apply in_zrange in Ht. unfold body, store.
      ztests; try lia; reflexivity.
    + intros st _. unfold body, store. ztests; try lia; reflexivity.
  - apply (@fold_left_owner shared F Z (fun _ => True)
             (fun m => m (o2 + a)) body (fun _ => v2 a) _ a); auto.
    + apply NoDup_zrange.
    + intros t st Ht Hne _. apply in_zrange in Ht. unfold body, store.
      ztests; try lia; reflexivity.
    + intros st _. unfold body, store. ztests; try lia; reflexivity.
  - apply (@fold_left_owner shared F Z (fun _ => True)
             (fun m => m (o3 + a)) body (fun _ => v3 a) _ a); auto.
    + apply NoDup_zrange.
    + intros t st Ht Hne _. apply in_zrange in Ht. unfold body, store.
      ztests; try lia; reflexivity.
    + intros st _. unfold body, store. ztests; try lia; reflexivity.
Qed.

(** *** local_copy_scaled *)

Section CopyScaled.
Variables (factors values : tensor4 F) (strides : dim3).
Variables (b n h lblk eblk : Z).
Hypothesis Hcoords : block_coords strides b = (n, h, lblk, eblk).

Lemma lcs_load_stores (k t : Z) (m : shared) :
  local_copy_scaled_load 32 32 32 factors values strides b k t m =
  store (store (store m (0 + t)
    (let l := lblk * 32 + Z.quot t 32 in
     let e_local := t - Z.quot t 32 * 32 in
     let s := l - Z.quot (size4_3 factors) 2 + k + e_local in
     if (l <? size4_2 factors) && (k + e_local <? size4_3 factors)
        && (s >=? 0) && (s <? size4_2 values)
     then get4 factors n h l (k + e_local) else fzero))
    (1024 + t)
    (let e := eblk * 32 + (t - Z.quot t 32 * 32) in
     let s := lblk * 32 + Z.quot t 32 - Z.quot (size4_3 factors) 2 + k in
     if (e <? size4_3 values) && (s >=? 0) && (s <? size4_2 values)
     then get4 values n h s e else fzero))
    (2048 + t)
    (let e := eblk * 32 + (t - Z.quot t 32 * 32) in
     let s := lblk * 32 + Z.quot t 32 - Z.quot (size4_3 factors) 2 + k + 32 in
     if (e <? size4_3 values) && (s >=? 0) && (s <? size4_2 values)
     then get4 values n h s e else fzero).
Proof.
  unfold local_copy_scaled_load. rewrite Hcoords. cbv zeta.
  replace (0 + (Z.quot t 32 * 32 + (t - Z.quot t 32 * 32)))
    with (0 + t) by lia.
  replace (0 + 32 * 32 + (Z.quot t 32 * 32 + (t - Z.quot t 32 * 32)))
    with (1024 + t) by lia.
  replace (0 + 32 * 32 + ((Z.quot t 32 + 32) * 32 + (t - Z.quot t 32 * 32)))
    with (2048 + t) by lia.
  reflexivity.
Qed.

Lemma lcs_load_factors (k : Z) (m : shared) (i j : Z) :
  0 <= i < 32 -> 0 <= j < 32 ->
  lcs_loaded factors values strides b k m (0 + (i * 32 + j)) =
  let l := lblk * 32 + i in
  let s := l - Z.quot (size4_3 factors) 2 + k + j in
  if (l <? size4_2 factors) && (k + j <? size4_3 factors)
     && (s >=? 0) && (s <? size4_2 values)
  then get4 factors n h l (k + j) else fzero.
Proof.
  intros Hi Hj. unfold lcs_loaded.
  change (Z.to_nat 1024) with 1024%nat.
  erewrite fold_left_ext_in by (intros; apply lcs_load_stores).
  match goal with
  | |- fold_left (fun m' t => store (store (store m' (0 + t) (@?v1 t))
                                       (1024 + t) (@?v2 t))
                                (2048 + t) (@?v3 t)) _ _ _ = _ =>
      destruct (@fold_store3 0 1024 2048 v1 v2 v3 m (i * 32 + j))
        as [E _]; try lia
  end.
  cbv zeta in E. rewrite E. cbv beta.
  rewrite thread_coords_compose by lia.
  replace (i * 32 + j - i * 32) with j by lia.
  reflexivity.
Qed.

Lemma lcs_load_values (k : Z) (m : shared) (r j : Z) :
  0 <= r < 64 -> 0 <= j < 32 ->
  lcs_loaded factors values strides b k m (0 + 32 * 32 + (r * 32 + j)) =
  let e := eblk * 32 + j in
  let s := lblk * 32 + r - Z.quot (size4_3 factors) 2 + k in
  if (e <? size4_3 values) && (s >=? 0) && (s <? size4_2 values)
  then get4 values n h s e else fzero.
Proof.
  intros Hr Hj. unfold lcs_loaded.
  change (Z.to_nat 1024) with 1024%nat.
  erewrite fold_left_ext_in by (intros; apply lcs_load_stores).
  destruct (Z_lt_dec r 32) as [Hlow|Hhigh].
  - match goal with
    | |- fold_left (fun m' t => store (store (store m' (0 + t) (@?v1 t))
                                         (1024 + t) (@?v2 t))
                                  (2048 + t) (@?v3 t)) _ _ _ = _ =>
        destruct (@fold_store3 0 1024 2048 v1 v2 v3 m (r * 32 + j))
          as [_ [E _]]; try lia
    end.
    cbv zeta in E.
    replace (0 + 32 * 32 + (r * 32 + j)) with (1024 + (r * 32 + j)) by lia.
    rewrite E. cbv beta.
    rewrite thread_coords_compose by lia.
    replace (r * 32 + j - r * 32) with j by lia.
    reflexivity.
  - match goal with
    | |- fold_left (fun m' t => store (store (store m' (0 + t) (@?v1 t))
                                         (1024 + t) (@?v2 t))
                                  (2048 + t) (@?v3 t)) _ _ _ = _ =>
        destruct (@fold_store3 0 1024 2048 v1 v2 v3 m ((r - 32) * 32 + j))
          as [_ [_ E]]; try lia
    end.
    cbv zeta in E.
    replace (0 + 32 * 32 + (r * 32 + j))
      with (2048 + ((r - 32) * 32 + j)) by lia.
    rewrite E. cbv beta.
    rewrite thread_coords_compose by lia.
    replace ((r - 32) * 32 + j - (r - 32) * 32) with j by lia.
    replace (lblk * 32 + (r - 32) - Z.quot (size4_3 factors) 2 + k + 32)
      with (lblk * 32 + r - Z.quot (size4_3 factors) 2 + k) by lia.
    reflexivity.
Qed.

(** The accumulation phase adds the thread's dot product to its cell. *)
Lemma lcs_compute_owner (k : Z) (sh : shared) (out : tensor4 F) (i j : Z) :
  0 <= i < 32 -> 0 <= j < 32 ->
  lblk * 32 + i < size4_2 factors -> eblk * 32 + j < size4_3 values ->
  get4 (fold_left
          (fun o t =>
             local_copy_scaled_compute 32 32 32 factors values strides b k
                                       sh t o)
          (zrange (Z.to_nat 1024)) out) n h (lblk * 32 + i) (eblk * 32 + j)
  = fadd (get4 out n h (lblk * 32 + i) (eblk * 32 + j))
         (fsum (Z.to_nat 32)
            (fun kl => fmul (sh (0 + (i * 32 + kl)))
                            (sh (0 + 32 * 32 + ((kl + i) * 32 + j))))).
Proof.
  intros Hi Hj Hl He.
  set (r := fsum (Z.to_nat 32)
              (fun kl => fmul (sh (0 + (i * 32 + kl)))
                              (sh (0 + 32 * 32 + ((kl + i) * 32 + j))))).
  apply (@fold_left_owner (tensor4 F) F Z (fun _ => True)
           (fun o => get4 o n h (lblk * 32 + i) (eblk * 32 + j))
           (fun o t =>
              local_copy_scaled_compute 32 32 32 factors values strides b k
                                        sh t o)
           (fun x => fadd x r) _ (i * 32 + j)); auto.
  - apply NoDup_zrange.
  - apply in_zrange. change (Z.of_nat (Z.to_nat 1024)) with 1024. lia.
  - intros t st Ht Hne _. apply in_zrange in Ht.
    change (Z.of_nat (Z.to_nat 1024)) with 1024 in Ht.
    destruct (thread_coords Ht) as [Hq Hr].
    unfold local_copy_scaled_compute. rewrite Hcoords. cbv zeta.
    match goal with |- context [if ?c then set4 _ _ _ _ _ _ else _] =>
      destruct c; [|reflexivity] end.
    rewrite get4_set4.
    match goal with |- (if ?c then _ else _) = _ =>
      destruct c eqn:Ec; [|reflexivity] end.
    exfalso. apply Hne.
    repeat (apply andb_prop in Ec; destruct Ec as [Ec ?]). lia.
  - intros st _.
    unfold local_copy_scaled_compute. rewrite Hcoords. cbv zeta.
    rewrite thread_coords_compose by lia.
    replace (i * 32 + j - i * 32) with j by lia.
    replace ((lblk * 32 + i <? size4_2 factors)
             && (eblk * 32 + j <? size4_3 values)) with true
      by (symmetry; apply andb_true_intro; split; apply Z.ltb_lt; lia).
    rewrite get4_set4, !Z.eqb_refl. reflexivity.
Qed.

(** Cells outside the tile of the block are left alone. *)
Lemma lcs_compute_frame (k : Z) (sh : shared) (out : tensor4 F)
    (n' h' l' e' : Z) :
  ~ in_tile n h lblk eblk n' h' l' e' ->
  get4 (fold_left
          (fun o t =>
             local_copy_scaled_compute 32 32 32 factors values strides b k
                                       sh t o)
          (zrange (Z.to_nat 1024)) out) n' h' l' e'
  = get4 out n' h' l' e'.
Proof.
  intros Hout.
  apply (@fold_left_frame (tensor4 F) F Z (fun _ => True)
           (fun o => get4 o n' h' l' e')); auto.
  intros t st Ht _. apply in_zrange in Ht.
  change (Z.of_nat (Z.to_nat 1024)) with 1024 in Ht.
  destruct (thread_coords Ht) as [Hq Hr].
  unfold local_copy_scaled_compute. rewrite Hcoords. cbv zeta.
  match goal with |- context [if ?c then set4 _ _ _ _ _ _ else _] =>
    destruct c; [|reflexivity] end.
  rewrite get4_set4.
  match goal with |- (if ?c then _ else _) = _ =>
    destruct c eqn:Ec; [|reflexivity] end.
  exfalso. apply Hout. unfold in_tile.
  repeat (apply andb_prop in Ec; destruct Ec as [Ec ?]). lia.
Qed.

Lemma lcs_chunk_sum (k : Z) (m : shared) (i j : Z) :
  0 <= i < 32 -> 0 <= j < 32 ->
  fsum (Z.to_nat 32)
    (fun kl =>
       fmul (lcs_loaded factors values strides b k m (0 + (i * 32 + kl)))
            (lcs_loaded factors values strides b k m
               (0 + 32 * 32 + ((kl + i) * 32 + j))))
  = fsum 32
      (fun kl => lcs_term factors values n h (lblk * 32 + i) (eblk * 32 + j)
                          (k + kl)).
Proof.
  intros Hi Hj. change (Z.to_nat 32) with 32%nat.
  apply fsum_ext. intros kl Hkl. change (Z.of_nat 32) with 32 in Hkl.
  rewrite lcs_load_factors, lcs_load_values by lia.
  unfold lcs_term. cbv zeta.
  replace (lblk * 32 + i - Z.quot (size4_3 factors) 2 + k + kl)
    with (lblk * 32 + i - Z.quot (size4_3 factors) 2 + (k + kl)) by lia.
  replace (lblk * 32 + (kl + i) - Z.quot (size4_3 factors) 2 + k)
    with (lblk * 32 + i - Z.quot (size4_3 factors) 2 + (k + kl)) by lia.
  reflexivity.
Qed.

Lemma lcs_block_owner (sh0 : shared) (out : tensor4 F) (i j : Z) :
  n <= size4_0 factors -> 0 <= size4_3 factors ->
  0 <= i < 32 -> 0 <= j < 32 ->
  lblk * 32 + i < size4_2 factors -> eblk * 32 + j < size4_3 values ->
  get4 (local_copy_scaled_block sh0 32 32 32 1024 factors values strides
                                b out)
       n h (lblk * 32 + i) (eblk * 32 + j)
  = fold_left
      (fun acc c =>
         fadd acc
           (fsum 32
              (fun kl => lcs_term factors values n h (lblk * 32 + i)
                                  (eblk * 32 + j) (32 * c + kl))))
      (zrange (Z.to_nat (ceildiv (size4_3 factors) 32)))
      (get4 out n h (lblk * 32 + i) (eblk * 32 + j)).
Proof.
  intros Hn HC Hi Hj Hl He.
  unfold local_copy_scaled_block. rewrite Hcoords. cbv zeta.
  destruct (Z.gtb_spec n (size4_0 factors)); [lia|].
  rewrite for_loop_chunks by lia.
  apply (@fold_left_accumulate (shared * tensor4 F) F Z
           (fun st => get4 (snd st) n h (lblk * 32 + i) (eblk * 32 + j))).
  intros c st _. cbn [snd fst].
  rewrite lcs_compute_owner by assumption.
  f_equal. fold (lcs_loaded factors values strides b (32 * c) (fst st)).
  apply lcs_chunk_sum; assumption.
Qed.

Lemma lcs_block_frame (sh0 : shared) (out : tensor4 F) (n' h' l' e' : Z) :
  ~ in_tile n h lblk eblk n' h' l' e' ->
  get4 (local_copy_scaled_block sh0 32 32 32 1024 factors values strides
                                b out) n' h' l' e'
  = get4 out n' h' l' e'.
Proof.
  intros Hout.
  unfold local_copy_scaled_block. rewrite Hcoords. cbv zeta.
  destruct (n >? size4_0 factors); [reflexivity|].
  set (body := fun (k : Z) (st : shared * tensor4 F) => _).
  assert (Hinv : forall fuel i st,
             get4 (snd (for_loop fuel i (size4_3 factors) 32 body st))
                  n' h' l' e' = get4 (snd st) n' h' l' e').
  { induction fuel as [|fuel IH]; intros i0 st; cbn [for_loop];
      [reflexivity|].
    destruct (i0 <? size4_3 factors); [|reflexivity].
    rewrite IH. unfold body. cbn [snd].
    apply lcs_compute_frame. exact Hout. }
  apply Hinv.
Qed.
End CopyScaled.

Section CopyScaledKernel.
Context `{!ExactArith F}.

Lemma lcs_term_window (factors values : tensor4 F) (n h l e kk : Z) :
  l < size4_2 factors -> e < size4_3 values -> 0 <= kk < size4_3 factors ->
  lcs_term factors values n h l e kk =
  if in_range (key_index (size4_3 factors) l kk) (size4_2 values)
  then fmul (get4 factors n h l kk)
            (get4 values n h (key_index (size4_3 factors) l kk) e)
  else fzero.
Proof.
  intros Hl He Hkk. unfold lcs_term, in_range, key_index. cbv zeta.
  ztests; try lia; try reflexivity; apply fmul_0_l.
Qed.

Lemma lcs_term_past (factors values : tensor4 F) (n h l e kk : Z) :
  size4_3 factors <= kk -> lcs_term factors values n h l e kk = fzero.
Proof.
  intros Hkk. unfold lcs_term. cbv zeta.
  replace (kk <? size4_3 factors) with false by (symmetry; apply Z.ltb_ge; lia).
  rewrite andb_false_r. cbn [andb]. apply fmul_0_l.
Qed.

(** Adding up the window in blocks of 32 positions, zero-padded past the
    window, is the windowed sum. *)
Lemma lcs_chunks_windowed (factors values : tensor4 F) (n h l e : Z)
    (a : F) :
  0 <= size4_3 factors -> l < size4_2 factors -> e < size4_3 values ->
  fold_left
    (fun acc c =>
       fadd acc
         (fsum 32 (fun kl => lcs_term factors values n h l e (32 * c + kl))))
    (zrange (Z.to_nat (ceildiv (size4_3 factors) 32))) a
  = fadd a (windowed_sum (size4_2 values) (size4_3 factors) l
              (get4 factors n h l) (fun s => get4 values n h s e)).
Proof.
  intros HC Hl He.
  rewrite (fsum_chunks 32 (Z.to_nat (ceildiv (size4_3 factors) 32))
             (lcs_term factors values n h l e) a).
  f_equal. unfold windowed_sum.
  rewrite (@fsum_trailing F _ _ (Z.to_nat (size4_3 factors))).
  - apply fsum_ext. intros kk Hkk. apply lcs_term_window; lia.
  - destruct (@ceildiv_bounds (size4_3 factors) 32) as [[? ?]|[? ?]]; lia.
  - intros kk Hkk. apply lcs_term_past. lia.
Qed.

Lemma block_index_range (N H lb eb n h lblk eblk : Z) :
  0 <= n < N -> 0 <= h < H -> 0 <= lblk < lb -> 0 <= eblk < eb ->
  0 <= n * (H * lb * eb) + h * (lb * eb) + lblk * eb + eblk
  < N * H * lb * eb.
Proof.
  intros Hn Hh Hl He.
  assert (0 <= lblk * eb + eblk < lb * eb) by nia.
  assert (0 <= h * (lb * eb) + (lblk * eb + eblk) < H * (lb * eb)) by nia.
  assert (0 <= n * (H * (lb * eb)) <= (N - 1) * (H * (lb * eb))) by nia.
  nia.
Qed.

Lemma local_copy_scaled_tile_cell (sh0 : shared)
    (factors values out : tensor4 F) (N H L E n h lblk i eblk j : Z) :
  size4_0 factors = N -> size4_1 factors = H -> size4_2 factors = L ->
  size4_3 values = E -> 0 <= size4_3 factors ->
  0 <= n < N -> 0 <= h < H ->
  0 <= lblk -> 0 <= i < 32 -> lblk * 32 + i < L ->
  0 <= eblk -> 0 <= j < 32 -> eblk * 32 + j < E ->
  let lb := ceildiv L 32 in
  let eb := ceildiv E 32 in
  get4 (local_copy_scaled sh0 32 32 32 (N * H * lb * eb) (32 * 32)
          factors values out (Dim3 (H * lb * eb) (lb * eb) eb))
       n h (lblk * 32 + i) (eblk * 32 + j)
  = fadd (get4 out n h (lblk * 32 + i) (eblk * 32 + j))
         (windowed_sum (size4_2 values) (size4_3 factors) (lblk * 32 + i)
            (get4 factors n h (lblk * 32 + i))
            (fun s => get4 values n h s (eblk * 32 + j))).
Proof.
  intros HN HH HL HE HC Hn Hh Hlb Hi Hl Heb Hj He lb eb.
  assert (Hlb' : lblk < lb).
  { pose proof (@tile_count L (lblk * 32 + i) ltac:(lia)) as P.
    rewrite (@quot_chunk 32 (lblk * 32 + i) lblk) in P by lia. exact P. }
  assert (Heb' : eblk < eb).
  { pose proof (@tile_count E (eblk * 32 + j) ltac:(lia)) as P.
    rewrite (@quot_chunk 32 (eblk * 32 + j) eblk) in P by lia. exact P. }
  unfold local_copy_scaled. change (32 * 32) with 1024.
  set (strides := Dim3 (H * lb * eb) (lb * eb) eb).
  set (b0 := n * (H * lb * eb) + h * (lb * eb) + lblk * eb + eblk).
  set (W := windowed_sum _ _ _ _ _).
  apply (@fold_left_owner (tensor4 F) F Z (fun _ => True)
           (fun o => get4 o n h (lblk * 32 + i) (eblk * 32 + j))
           (fun o b =>
              local_copy_scaled_block sh0 32 32 32 1024 factors values
                                      strides b o)
           (fun x => fadd x W) _ b0); auto.
  - apply NoDup_zrange.
  - apply in_zrange.
    pose proof (@block_index_range N H lb eb n h lblk eblk) as P.
    fold b0 in P. lia.
  - intros b st Hb Hne _.
    destruct (block_coords strides b) as [[[n' h'] lb'] eb'] eqn:Ec.
    apply (lcs_block_frame factors values Ec).
    intros (En & Eh & El & Ee). apply Hne.
    rewrite (block_coords_inj Ec). unfold b0, strides.
    cbn [dim3_x dim3_y dim3_z].
    assert (lb' = lblk) by lia. assert (eb' = eblk) by lia.
    subst. reflexivity.
  - intros st _.
    pose proof (@block_coords_compose H lb eb n h lblk eblk) as Ec.
    fold b0 strides in Ec.
    rewrite (lcs_block_owner factors values (Ec ltac:(lia) ltac:(lia)
               ltac:(lia) ltac:(lia))) by lia.
    apply lcs_chunks_windowed; lia.
Qed.

(** Every in-range cell of the output of [local_copy_scaled] gains the
    windowed sum of its row. *)
Lemma local_copy_scaled_cell (sh0 : shared)
    (factors values out : tensor4 F) (N H L E n h l e : Z) :
  size4_0 factors = N -> size4_1 factors = H -> size4_2 factors = L ->
  size4_3 values = E -> 0 <= size4_3 factors ->
  0 <= n < N -> 0 <= h < H -> 0 <= l < L -> 0 <= e < E ->
  let lb := ceildiv L 32 in
  let eb := ceildiv E 32 in
  get4 (local_copy_scaled sh0 32 32 32 (N * H * lb * eb) (32 * 32)
          factors values out (Dim3 (H * lb * eb) (lb * eb) eb))
       n h l e
  = fadd (get4 out n h l e)
         (windowed_sum (size4_2 values) (size4_3 factors) l
            (get4 factors n h l) (fun s => get4 values n h s e)).
Proof.
  intros HN HH HL HE HC Hn Hh Hl He lb eb.
  destruct (tile_index (l := l) ltac:(lia)) as [Hl1 Hl2].
  destruct (tile_index (l := e) ltac:(lia)) as [He1 He2].
  pose proof (@local_copy_scaled_tile_cell sh0 factors values out N H L E
                n h (Z.quot l 32) (l - Z.quot l 32 * 32)
                (Z.quot e 32) (e - Z.quot e 32 * 32)
                HN HH HL HE HC Hn Hh Hl1 Hl2 ltac:(lia) He1 He2 ltac:(lia))
    as P.
  cbv zeta in P.
  replace (Z.quot l 32 * 32 + (l - Z.quot l 32 * 32)) with l in P by lia.
  replace (Z.quot e 32 * 32 + (e - Z.quot e 32 * 32)) with e in P by lia.
  exact P.
Qed.
End CopyScaledKernel.

(** *** local_copy_scaled_transpose *)

Section CopyScaledTranspose.
Context {P : Type} {LP : LkPolicy P}.
Variables (factors values : tensor4 F) (strides : dim3) (lk_policy : P).
Variables (b n h sblk eblk : Z).
Variable lk : Z -> Z.
Hypothesis Hcoords : block_coords strides b = (n, h, sblk, eblk).
Hypothesis Hlk :
  forall k e_local, lk_call lk_policy k e_local (size4_3 factors)
                    = lk (k + e_local).

Lemma lcst_load_stores (k t : Z) (m : shared) :
  local_copy_scaled_transpose_load 32 32 32 factors values strides lk_policy
                                   b k t m =
  store (store (store m (1024 + t)
    (let e := eblk * 32 + (t - Z.quot t 32 * 32) in
     let l := sblk * 32 + Z.quot t 32
              - Z.quot (size4_3 factors - 1) 2 + k in
     if (l >=? 0) && (l <? size4_2 factors) && (e <? size4_3 values)
     then get4 values n h l e else fzero))
    (2048 + t)
    (let e := eblk * 32 + (t - Z.quot t 32 * 32) in
     let l := sblk * 32 + Z.quot t 32
              - Z.quot (size4_3 factors - 1) 2 + k + 32 in
     if (l >=? 0) && (l <? size4_2 factors) && (e <? size4_3 values)
     then get4 values n h l e else fzero))
    (0 + t)
    (let e_local := t - Z.quot t 32 * 32 in
     let l := sblk * 32 + Z.quot t 32
              - Z.quot (size4_3 factors - 1) 2 + k in
     if (l + e_local >=? 0) && (l + e_local <? size4_2 factors)
        && (k + e_local <? size4_3 factors)
     then get4 factors n h (l + e_local) (lk (k + e_local)) else fzero).
Proof.
  unfold local_copy_scaled_transpose_load. rewrite Hcoords. cbv zeta.
  rewrite Hlk.
  replace (0 + (Z.quot t 32 * 32 + (t - Z.quot t 32 * 32)))
    with (0 + t) by lia.
  replace (0 + 32 * 32 + (Z.quot t 32 * 32 + (t - Z.quot t 32 * 32)))
    with (1024 + t) by lia.
  replace (0 + 32 * 32 + ((Z.quot t 32 + 32) * 32 + (t - Z.quot t 32 * 32)))
    with (2048 + t) by lia.
  reflexivity.
Qed.

Lemma lcst_load_factors (k : Z) (m : shared) (i j : Z) :
  0 <= i < 32 -> 0 <= j < 32 ->
  lcst_loaded factors values strides lk_policy b k m (0 + (i * 32 + j)) =
  let l := sblk * 32 + i - Z.quot (size4_3 factors - 1) 2 + k in
  if (l + j >=? 0) && (l + j <? size4_2 factors)
     && (k + j <? size4_3 factors)
  then get4 factors n h (l + j) (lk (k + j)) else fzero.
Proof.
  intros Hi Hj. unfold lcst_loaded.
  change (Z.to_nat 1024) with 1024%nat.
  erewrite fold_left_ext_in by (intros; apply lcst_load_stores).
  match goal with
  | |- fold_left (fun m' t => store (store (store m' (1024 + t) (@?v1 t))
                                       (2048 + t) (@?v2 t))
                                (0 + t) (@?v3 t)) _ _ _ = _ =>
      destruct (@fold_store3 1024 2048 0 v1 v2 v3 m (i * 32 + j))
        as [_ [_ E]]; try lia
  end.
  cbv zeta in E. rewrite E. cbv beta.
  rewrite thread_coords_compose by lia.
  replace (i * 32 + j - i * 32) with j by lia.
  reflexivity.
Qed.

Lemma lcst_load_values (k : Z) (m : shared) (r j : Z) :
  0 <= r < 64 -> 0 <= j < 32 ->
  lcst_loaded factors values strides lk_policy b k m
              (0 + 32 * 32 + (r * 32 + j)) =
  let e := eblk * 32 + j in
  let l := sblk * 32 + r - Z.quot (size4_3 factors - 1) 2 + k in
  if (l >=? 0) && (l <? size4_2 factors) && (e <? size4_3 values)
  then get4 values n h l e else fzero.
Proof.
  intros Hr Hj. unfold lcst_loaded.
  change (Z.to_nat 1024) with 1024%nat.
  erewrite fold_left_ext_in by (intros; apply lcst_load_stores).
  destruct (Z_lt_dec r 32) as [Hlow|Hhigh].
  - match goal with
    | |- fold_left (fun m' t => store (store (store m' (1024 + t) (@?v1 t))
                                         (2048 + t) (@?v2 t))
                                  (0 + t) (@?v3 t)) _ _ _ = _ =>
        destruct (@fold_store3 1024 2048 0 v1 v2 v3 m (r * 32 + j))
          as [E _]; try lia
    end.
    cbv zeta in E.
    replace (0 + 32 * 32 + (r * 32 + j)) with (1024 + (r * 32 + j)) by lia.
    rewrite E. cbv beta.
    rewrite thread_coords_compose by lia.
    replace (r * 32 + j - r * 32) with j by lia.
    reflexivity.
  - match goal with
    | |- fold_left (fun m' t => store (store (store m' (1024 + t) (@?v1 t))
                                         (2048 + t) (@?v2 t))
                                  (0 + t) (@?v3 t)) _ _ _ = _ =>
        destruct (@fold_store3 1024 2048 0 v1 v2 v3 m ((r - 32) * 32 + j))
          as [_ [E _]]; try lia
    end.
    cbv zeta in E.
    replace (0 + 32 * 32 + (r * 32 + j))
      with (2048 + ((r - 32) * 32 + j)) by lia.
    rewrite E. cbv beta.
    rewrite thread_coords_compose by lia.
    replace ((r - 32) * 32 + j - (r - 32) * 32) with j by lia.
    replace (sblk * 32 + (r - 32) - Z.quot (size4_3 factors - 1) 2 + k + 32)
      with (sblk * 32 + r - Z.quot (size4_3 factors - 1) 2 + k) by lia.
    reflexivity.
Qed.

Lemma lcst_compute_owner (k : Z) (sh : shared) (out : tensor4 F) (i j : Z) :
  0 <= i < 32 -> 0 <= j < 32 ->
  sblk * 32 + i < size4_2 values -> eblk * 32 + j < size4_3 values ->
  get4 (fold_left
          (fun o t =>
             local_copy_scaled_transpose_compute 32 32 32 factors values
               strides b k sh t o)
          (zrange (Z.to_nat 1024)) out) n h (sblk * 32 + i) (eblk * 32 + j)
  = fadd (get4 out n h (sblk * 32 + i) (eblk * 32 + j))
         (fsum (Z.to_nat 32)
            (fun kl => fmul (sh (0 + 32 * 32 + ((i + kl) * 32 + j)))
                            (sh (0 + (i * 32 + kl))))).
Proof.
  intros Hi Hj Hs He.
  set (r := fsum (Z.to_nat 32)
              (fun kl => fmul (sh (0 + 32 * 32 + ((i + kl) * 32 + j)))
                              (sh (0 + (i * 32 + kl))))).
  apply (@fold_left_owner (tensor4 F) F Z (fun _ => True)
           (fun o => get4 o n h (sblk * 32 + i) (eblk * 32 + j))
           (fun o t =>
              local_copy_scaled_transpose_compute 32 32 32 factors values
                strides b k sh t o)
           (fun x => fadd x r) _ (i * 32 + j)); auto.
  - apply NoDup_zrange.
  - apply in_zrange. change (Z.of_nat (Z.to_nat 1024)) with 1024. lia.
  - intros t st Ht Hne _. apply in_zrange in Ht.
    change (Z.of_nat (Z.to_nat 1024)) with 1024 in Ht.
    destruct (thread_coords Ht) as [Hq Hr].
    unfold local_copy_scaled_transpose_compute. rewrite Hcoords. cbv zeta.
    match goal with |- context [if ?c then set4 _ _ _ _ _ _ else _] =>
      destruct c; [|reflexivity] end.
    rewrite get4_set4.
    match goal with |- (if ?c then _ else _) = _ =>
      destruct c eqn:Ec; [|reflexivity] end.
    exfalso. apply Hne.
    repeat (apply andb_prop in Ec; destruct Ec as [Ec ?]). lia.
  - intros st _.
    unfold local_copy_scaled_transpose_compute. rewrite Hcoords. cbv zeta.
    rewrite thread_coords_compose by lia.
    replace (i * 32 + j - i * 32) with j by lia.
    replace ((sblk * 32 + i <? size4_2 values)
             && (eblk * 32 + j <? size4_3 values)) with true
      by (symmetry; apply andb_true_intro; split; apply Z.ltb_lt; lia).
    rewrite get4_set4, !Z.eqb_refl. reflexivity.
Qed.

Lemma lcst_compute_frame (k : Z) (sh : shared) (out : tensor4 F)
    (n' h' l' e' : Z) :
  ~ in_tile n h sblk eblk n' h' l' e' ->
  get4 (fold_left
          (fun o t =>
             local_copy_scaled_transpose_compute 32 32 32 factors values
               strides b k sh t o)
          (zrange (Z.to_nat 1024)) out) n' h' l' e'
  = get4 out n' h' l' e'.
Proof.
  intros Hout.
  apply (@fold_left_frame (tensor4 F) F Z (fun _ => True)
           (fun o => get4 o n' h' l' e')); auto.
  intros t st Ht _. apply in_zrange in Ht.
  change (Z.of_nat (Z.to_nat 1024)) with 1024 in Ht.
  destruct (thread_coords Ht) as [Hq Hr].
  unfold local_copy_scaled_transpose_compute. rewrite Hcoords. cbv zeta.
  match goal with |- context [if ?c then set4 _ _ _ _ _ _ else _] =>
    destruct c; [|reflexivity] end.
  rewrite get4_set4.
  match goal with |- (if ?c then _ else _) = _ =>
    destruct c eqn:Ec; [|reflexivity] end.
  exfalso. apply Hout. unfold in_tile.
  repeat (apply andb_prop in Ec; destruct Ec as [Ec ?]). lia.
Qed.

Lemma lcst_chunk_sum (k : Z) (m : shared) (i j : Z) :
  0 <= i < 32 -> 0 <= j < 32 ->
  fsum (Z.to_nat 32)
    (fun kl =>
       fmul (lcst_loaded factors values strides lk_policy b k m
               (0 + 32 * 32 + ((i + kl) * 32 + j)))
            (lcst_loaded factors values strides lk_policy b k m
               (0 + (i * 32 + kl))))
  = fsum 32
      (fun kl => lcst_term lk factors values n h (sblk * 32 + i)
                           (eblk * 32 + j) (k + kl)).
Proof.
  intros Hi Hj. change (Z.to_nat 32) with 32%nat.
  apply fsum_ext. intros kl Hkl. change (Z.of_nat 32) with 32 in Hkl.
  rewrite lcst_load_factors, lcst_load_values by lia.
  unfold lcst_term. cbv zeta.
  replace (sblk * 32 + (i + kl) - Z.quot (size4_3 factors - 1) 2 + k)
    with (sblk * 32 + i - Z.quot (size4_3 factors - 1) 2 + (k + kl)) by lia.
  replace (sblk * 32 + i - Z.quot (size4_3 factors - 1) 2 + k + kl)
    with (sblk * 32 + i - Z.quot (size4_3 factors - 1) 2 + (k + kl)) by lia.
  reflexivity.
Qed.

Lemma lcst_block_owner (sh0 : shared) (out : tensor4 F) (i j : Z) :
  n <= size4_0 factors -> 0 <= size4_3 factors ->
  0 <= i < 32 -> 0 <= j < 32 ->
  sblk * 32 + i < size4_2 values -> eblk * 32 + j < size4_3 values ->
  get4 (local_copy_scaled_transpose_block sh0 32 32 32 1024 factors values
          strides lk_policy b out)
       n h (sblk * 32 + i) (eblk * 32 + j)
  = fold_left
      (fun acc c =>
         fadd acc
           (fsum 32
              (fun kl => lcst_term lk factors values n h (sblk * 32 + i)
                                   (eblk * 32 + j) (32 * c + kl))))
      (zrange (Z.to_nat (ceildiv (size4_3 factors) 32)))
      (get4 out n h (sblk * 32 + i) (eblk * 32 + j)).
Proof.
  intros Hn HC Hi Hj Hs He.
  unfold local_copy_scaled_transpose_block. rewrite Hcoords. cbv zeta.
  destruct (Z.gtb_spec n (size4_0 factors)); [lia|].
  rewrite for_loop_chunks by lia.
  apply (@fold_left_accumulate (shared * tensor4 F) F Z
           (fun st => get4 (snd st) n h (sblk * 32 + i) (eblk * 32 + j))).
  intros c st _. cbn [snd fst].
  rewrite lcst_compute_owner by assumption.
  f_equal.
  fold (lcst_loaded factors values strides lk_policy b (32 * c) (fst st)).
  apply lcst_chunk_sum; assumption.
Qed.

Lemma lcst_block_frame (sh0 : shared) (out : tensor4 F) (n' h' l' e' : Z) :
  ~ in_tile n h sblk eblk n' h' l' e' ->
  get4 (local_copy_scaled_transpose_block sh0 32 32 32 1024 factors values
          strides lk_policy b out) n' h' l' e'
  = get4 out n' h' l' e'.
Proof.
  intros Hout.
  unfold local_copy_scaled_transpose_block. rewrite Hcoords. cbv zeta.
  destruct (n >? size4_0 factors); [reflexivity|].
  set (body := fun (k : Z) (st : shared * tensor4 F) => _).
  assert (Hinv : forall fuel i st,
             get4 (snd (for_loop fuel i (size4_3 factors) 32 body st))
                  n' h' l' e' = get4 (snd st) n' h' l' e').
  { induction fuel as [|fuel IH]; intros i0 st; cbn [for_loop];
      [reflexivity|].
    destruct (i0 <? size4_3 factors); [|reflexivity].
    rewrite IH. unfold body. cbn [snd].
    apply lcst_compute_frame. exact Hout. }
  apply Hinv.
Qed.
End CopyScaledTranspose.

Section CopyScaledTransposeKernel.
Context `{!ExactArith F}.

Lemma lcst_term_window (lk : Z -> Z) (factors values : tensor4 F)
    (n h s e kk : Z) :
  e < size4_3 values -> 0 <= kk < size4_3 factors ->
  lcst_term lk factors values n h s e kk =
  let l := s - Z.quot (size4_3 factors - 1) 2 + kk in
  if in_range l (size4_2 factors)
  then fmul (get4 values n h l e) (get4 factors n h l (lk kk)) else fzero.
Proof.
  intros He Hkk. unfold lcst_term, in_range. cbv zeta.
  ztests; try lia; try reflexivity; apply fmul_0_l.
Qed.

Lemma lcst_term_past (lk : Z -> Z) (factors values : tensor4 F)
    (n h s e kk : Z) :
  size4_3 factors <= kk -> lcst_term lk factors values n h s e kk = fzero.
Proof.
  intros Hkk. unfold lcst_term. cbv zeta.
  replace (kk <? size4_3 factors) with false by (symmetry; apply Z.ltb_ge; lia).
  rewrite andb_false_r. apply fmul_0_r.
Qed.

Lemma lcst_chunks_sum (lk : Z -> Z) (factors values : tensor4 F)
    (n h s e : Z) (a : F) :
  0 <= size4_3 factors -> e < size4_3 values ->
  fold_left
    (fun acc c =>
       fadd acc
         (fsum 32
            (fun kl => lcst_term lk factors values n h s e (32 * c + kl))))
    (zrange (Z.to_nat (ceildiv (size4_3 factors) 32))) a
  = fadd a (transpose_sum (size4_2 factors) (size4_3 factors) s lk
              (get4 factors n h) (fun l => get4 values n h l e)).
Proof.
  intros HC He.
  rewrite (fsum_chunks 32 (Z.to_nat (ceildiv (size4_3 factors) 32))
             (lcst_term lk factors values n h s e) a).
  f_equal. unfold transpose_sum.
  rewrite (@fsum_trailing F _ _ (Z.to_nat (size4_3 factors))).
  - apply fsum_ext. intros kk Hkk. apply lcst_term_window; lia.
  - destruct (@ceildiv_bounds (size4_3 factors) 32) as [[? ?]|[? ?]]; lia.
  - intros kk Hkk. apply lcst_term_past. lia.
Qed.

Lemma local_copy_scaled_transpose_tile_cell {P} {LP : LkPolicy P}
    (sh0 : shared) (lk_policy : P) (lk : Z -> Z)
    (factors values out : tensor4 F) (N H L E n h sblk i eblk j : Z) :
  (forall k e_local, lk_call lk_policy k e_local (size4_3 factors)
                     = lk (k + e_local)) ->
  size4_0 factors = N -> size4_1 factors = H -> size4_2 factors = L ->
  size4_2 values = L -> size4_3 values = E -> 0 <= size4_3 factors ->
  0 <= n < N -> 0 <= h < H ->
  0 <= sblk -> 0 <= i < 32 -> sblk * 32 + i < L ->
  0 <= eblk -> 0 <= j < 32 -> eblk * 32 + j < E ->
  let lb := ceildiv L 32 in
  let eb := ceildiv E 32 in
  get4 (local_copy_scaled_transpose sh0 32 32 32 (N * H * lb * eb) (32 * 32)
          factors values out (Dim3 (H * lb * eb) (lb * eb) eb) lk_policy)
       n h (sblk * 32 + i) (eblk * 32 + j)
  = fadd (get4 out n h (sblk * 32 + i) (eblk * 32 + j))
         (transpose_sum L (size4_3 factors) (sblk * 32 + i) lk
            (get4 factors n h)
            (fun l => get4 values n h l (eblk * 32 + j))).
Proof.
  intros Hlk HN HH HL HS HE HC Hn Hh Hsb Hi Hs Heb Hj He lb eb.
  assert (Hsb' : sblk < lb).
  { pose proof (@tile_count L (sblk * 32 + i) ltac:(lia)) as Q.
    rewrite (@quot_chunk 32 (sblk * 32 + i) sblk) in Q by lia. exact Q. }
  assert (Heb' : eblk < eb).
  { pose proof (@tile_count E (eblk * 32 + j) ltac:(lia)) as Q.
    rewrite (@quot_chunk 32 (eblk * 32 + j) eblk) in Q by lia. exact Q. }
  unfold local_copy_scaled_transpose. change (32 * 32) with 1024.
  set (strides := Dim3 (H * lb * eb) (lb * eb) eb).
  set (b0 := n * (H * lb * eb) + h * (lb * eb) + sblk * eb + eblk).
  set (W := transpose_sum _ _ _ _ _ _).
  apply (@fold_left_owner (tensor4 F) F Z (fun _ => True)
           (fun o => get4 o n h (sblk * 32 + i) (eblk * 32 + j))
           (fun o b =>
              local_copy_scaled_transpose_block sh0 32 32 32 1024 factors
                values strides lk_policy b o)
           (fun x => fadd x W) _ b0); auto.
  - apply NoDup_zrange.
  - apply in_zrange.
    pose proof (@block_index_range N H lb eb n h sblk eblk) as Q.
    fold b0 in Q. lia.
  - intros b st Hb Hne _.
    destruct (block_coords strides b) as [[[n' h'] lb'] eb'] eqn:Ec.
    apply (lcst_block_frame factors values lk_policy Ec).
    intros (En & Eh & El & Ee). apply Hne.
    rewrite (block_coords_inj Ec). unfold b0, strides.
    cbn [dim3_x dim3_y dim3_z].
    assert (lb' = sblk) by lia. assert (eb' = eblk) by lia.
    subst. reflexivity.
  - intros st _.
    pose proof (@block_coords_compose H lb eb n h sblk eblk) as Ec.
    fold b0 strides in Ec.
    rewrite (lcst_block_owner factors values lk_policy lk
               (Ec ltac:(lia) ltac:(lia) ltac:(lia) ltac:(lia)) Hlk) by lia.
    unfold W. rewrite <- HL. apply lcst_chunks_sum; lia.
Qed.

(** Every in-range cell of the output of [local_copy_scaled_transpose]
    gains the sum the policy selects. *)
Lemma local_copy_scaled_transpose_cell {P} {LP : LkPolicy P}
    (sh0 : shared) (lk_policy : P) (lk : Z -> Z)
    (factors values out : tensor4 F) (N H L E n h s e : Z) :
  (forall k e_local, lk_call lk_policy k e_local (size4_3 factors)
                     = lk (k + e_local)) ->
  size4_0 factors = N -> size4_1 factors = H -> size4_2 factors = L ->
  size4_2 values = L -> size4_3 values = E -> 0 <= size4_3 factors ->
  0 <= n < N -> 0 <= h < H -> 0 <= s < L -> 0 <= e < E ->
  let lb := ceildiv L 32 in
  let eb := ceildiv E 32 in
  get4 (local_copy_scaled_transpose sh0 32 32 32 (N * H * lb * eb) (32 * 32)
          factors values out (Dim3 (H * lb * eb) (lb * eb) eb) lk_policy)
       n h s e
  = fadd (get4 out n h s e)
         (transpose_sum L (size4_3 factors) s lk (get4 factors n h)
            (fun l => get4 values n h l e)).
Proof.
  intros Hlk HN HH HL HS HE HC Hn Hh Hs He lb eb.
  destruct (tile_index (l := s) ltac:(lia)) as [Hs1 Hs2].
  destruct (tile_index (l := e) ltac:(lia)) as [He1 He2].
  pose proof (@local_copy_scaled_transpose_tile_cell P _ sh0 lk_policy lk
                factors values out N H L E
                n h (Z.quot s 32) (s - Z.quot s 32 * 32)
                (Z.quot e 32) (e - Z.quot e 32 * 32)
                Hlk HN HH HL HS HE HC Hn Hh Hs1 Hs2 ltac:(lia)
                He1 He2 ltac:(lia))
    as Q.
  cbv zeta in Q.
  replace (Z.quot s 32 * 32 + (s - Z.quot s 32 * 32)) with s in Q by lia.
  replace (Z.quot e 32 * 32 + (e - Z.quot e 32 * 32)) with e in Q by lia.
  exact Q.
Qed.
End CopyScaledTransposeKernel.
End TiledProofs.

(** ** The public operations *)

#[export] Instance xint_exact : ExactArith xint.
Proof.
  split.
  - intros [|x]; reflexivity.
  - intros [|x]; cbn; [reflexivity|]. f_equal. lia.
  - intros [|x] [|y] [|z]; cbn; try reflexivity. f_equal. lia.
  - intros [|x]; reflexivity.
  - intros [|[|p|p]]; cbn; try reflexivity.
  - intros [|[|p|p]]; cbn; try reflexivity.
  - intros [|[|p|p]] [|[|q|q]]; cbn; try reflexivity; f_equal; lia.
Qed.

Section Operations.
Context {F : Type} {SF : Scalar F}.

Lemma view3_row (t : tensor4 F) (NH L E H n h l e : Z) :
  size4_1 t = H -> 0 <= n -> 0 <= h < H ->
  get3 (view3 t NH L E) (n * H + h) l e = get4 t n h l e.
Proof.
  intros HH Hn Hh. unfold view3. cbn [get3]. rewrite HH.
  assert (0 <= n * H) by nia.
  assert (Eq : Z.quot (n * H + h) H = n).
  { rewrite Z.quot_div_nonneg by lia. symmetry.
    apply Z.div_unique with (r := h); lia. }
  pose proof (Z.quot_rem' (n * H + h) H) as Er. rewrite Eq in Er.
  replace (Z.rem (n * H + h) H) with h by lia.
  rewrite Eq. reflexivity.
Qed.

Lemma row_index_range (N H n h : Z) :
  0 <= n < N -> 0 <= h < H -> 0 <= n * H + h < N * H.
Proof. intros. nia. Qed.

Lemma writable_key_range (a N L C n l k : Z) :
  writable a N L C n l k -> 0 <= key_index C l k < L.
Proof.
  unfold writable, chunk_s_start, chunk_s_end. cbv zeta. lia.
Qed.

(** The band cells of [sliding_dot] on the views of two [(N, H, L, E)]
    tensors. *)
Lemma sliding_dot_view_cell (val : Z -> Z -> F -> F) (X Y : tensor4 F)
    (out : tensor3 F) (N H L E C n h l k : Z) :
  size4_1 X = H -> size4_1 Y = H ->
  0 <= n < N -> 0 <= h < H -> 0 <= l < L -> 0 <= k < C ->
  0 <= key_index C l k < L ->
  get3 (sliding_dot 64 val (view3 X (N * H) L E) (view3 Y (N * H) L E)
          out C) (n * H + h) l k
  = val l (key_index C l k)
        (dot E (get4 X n h l) (get4 Y n h (key_index C l k))).
Proof.
  intros HX HY Hn Hh Hl Hk Hs.
  pose proof (row_index_range Hn Hh).
  rewrite sliding_dot_cell; cbn [view3 size3_0 size3_1 size3_2]; try lia.
  f_equal. apply dot_ext; intros e _; apply view3_row; lia.
Qed.

Lemma sliding_dot_view_fill (val : Z -> Z -> F -> F) (X Y : tensor4 F)
    (out : tensor3 F) (N H L E C b l k : Z) :
  0 <= C -> ~ 0 <= key_index C l k < L ->
  get3 (sliding_dot 64 val (view3 X (N * H) L E) (view3 Y (N * H) L E)
          out C) b l k
  = get3 out b l k.
Proof.
  intros HC Hs. apply sliding_dot_frame; try lia.
  intros Hw. apply Hs. cbn [view3 size3_0 size3_1] in Hw.
  exact (writable_key_range Hw).
Qed.

Lemma local_dot_product_cell (Q K : tensor4 F) (mask : tensor2 F)
    (kl : tensor1) (C N H L E n h l k : Z) :
  shape4 Q N H L E -> shape4 K N H L E ->
  0 <= n < N -> 0 <= h < H -> 0 <= l < L -> 0 <= k < C ->
  0 <= key_index C l k < L ->
  get4 (local_dot_product Q K mask kl C) n h l k
  = fadd (dot E (get4 Q n h l) (get4 K n h (key_index C l k)))
         (get2 mask l (key_index C l k)).
Proof.
  intros (Q0 & Q1 & Q2 & Q3) (K0 & K1 & K2 & K3) Hn Hh Hl Hk Hs.
  unfold local_dot_product. cbv zeta. rewrite Q0, Q1, Q2, Q3.
  cbn [unview3 get4]. rewrite sliding_dot_masked.
  rewrite sliding_dot_view_cell; auto.
Qed.

Lemma local_dot_product_fill (Q K : tensor4 F) (mask : tensor2 F)
    (kl : tensor1) (C n h l k : Z) :
  0 <= C -> ~ 0 <= key_index C l k < size4_2 Q ->
  get4 (local_dot_product Q K mask kl C) n h l k = fninf.
Proof.
  intros HC Hs. unfold local_dot_product. cbv zeta.
  cbn [unview3 get4]. rewrite sliding_dot_masked.
  rewrite sliding_dot_view_fill; auto.
Qed.

Lemma grad_attention_cell (attn V grad : tensor4 F) (sh0 : shared)
    (N H L E C n h l k : Z) :
  shape4 attn N H L C -> shape4 V N H L E -> shape4 grad N H L E ->
  0 <= n < N -> 0 <= h < H -> 0 <= l < L -> 0 <= k < C ->
  0 <= key_index C l k < L ->
  get4 (fst (local_weighted_average_backward sh0 attn V grad)) n h l k
  = dot E (get4 grad n h l) (get4 V n h (key_index C l k)).
Proof.
  intros (A0 & A1 & A2 & A3) (V0 & V1 & V2 & V3) (G0 & G1 & G2 & G3)
         Hn Hh Hl Hk Hs.
  unfold local_weighted_average_backward. cbv zeta. cbn [fst].
  rewrite A0, A1, A2, A3, V3.
  cbn [unview3 get4]. rewrite sliding_dot_plain.
  rewrite sliding_dot_view_cell; auto.
Qed.

Lemma grad_attention_fill (attn V grad : tensor4 F) (sh0 : shared)
    (n h l k : Z) :
  0 <= size4_3 attn ->
  ~ 0 <= key_index (size4_3 attn) l k < size4_2 attn ->
  get4 (fst (local_weighted_average_backward sh0 attn V grad)) n h l k
  = fzero.
Proof.
  intros HC Hs. unfold local_weighted_average_backward. cbv zeta. cbn [fst].
  cbn [unview3 get4]. rewrite sliding_dot_plain.
  rewrite sliding_dot_view_fill; auto.
Qed.

Context {EA : ExactArith F}.

Lemma local_weighted_average_cell (attn V : tensor4 F) (sh0 : shared)
    (N H L E C n h l e : Z) :
  shape4 attn N H L C -> shape4 V N H L E -> 0 <= C ->
  0 <= n < N -> 0 <= h < H -> 0 <= l < L -> 0 <= e < E ->
  get4 (local_weighted_average sh0 attn V) n h l e
  = windowed_sum L C l (get4 attn n h l) (fun s => get4 V n h s e).
Proof.
  intros (A0 & A1 & A2 & A3) (V0 & V1 & V2 & V3) HC Hn Hh Hl He.
  unfold local_weighted_average. cbv zeta. rewrite A0, A1, A2, V3.
  rewrite (@local_copy_scaled_cell F SF EA sh0 attn V (zeros_like V)
             N H L E n h l e) by (assumption || lia).
  rewrite V2, A3. cbn [zeros_like full4 get4]. apply fadd_0_l.
Qed.

Lemma local_dot_backward_grad_queries_cell (Q K G : tensor4 F)
    (kl : tensor1) (sh0 : shared) (C' N H L E C n h l e : Z) :
  shape4 G N H L C -> shape4 K N H L E -> 0 <= C ->
  0 <= n < N -> 0 <= h < H -> 0 <= l < L -> 0 <= e < E ->
  get4 (fst (local_dot_backward sh0 Q K kl G C')) n h l e
  = windowed_sum L C l (get4 G n h l) (fun s => get4 K n h s e).
Proof.
  intros (G0 & G1 & G2 & G3) (K0 & K1 & K2 & K3) HC Hn Hh Hl He.
  unfold local_dot_backward. cbv zeta. cbn [fst].
  rewrite G0, G1, G2, K3.
  rewrite (@local_copy_scaled_cell F SF EA sh0 G K (zeros_like Q)
             N H L E n h l e) by (assumption || lia).
  rewrite K2, G3. cbn [zeros_like full4 get4]. apply fadd_0_l.
Qed.

Lemma local_dot_backward_grad_keys_cell (Q K G : tensor4 F)
    (kl : tensor1) (sh0 : shared) (C' N H L E C n h s e : Z) :
  shape4 G N H L C -> shape4 Q N H L E -> size4_3 K = E -> 0 <= C ->
  0 <= n < N -> 0 <= h < H -> 0 <= s < L -> 0 <= e < E ->
  get4 (snd (local_dot_backward sh0 Q K kl G C')) n h s e
  = transpose_sum L C s (fun kk => kk) (get4 G n h)
                  (fun l => get4 Q n h l e).
Proof.
  intros (G0 & G1 & G2 & G3) (Q0 & Q1 & Q2 & Q3) K3 HC Hn Hh Hs He.
  unfold local_dot_backward. cbv zeta. cbn [snd].
  rewrite G0, G1, G2, K3.
  rewrite (@local_copy_scaled_transpose_cell F SF EA IncreasingLK _ sh0
             IncreasingLK_mk (fun kk => kk) G Q (zeros_like K)
             N H L E n h s e) by (reflexivity || assumption || lia).
  rewrite G3. cbn [zeros_like full4 get4]. apply fadd_0_l.
Qed.

Lemma grad_values_cell (attn V grad : tensor4 F) (sh0 : shared)
    (N H L E C n h s e : Z) :
  shape4 attn N H L C -> shape4 grad N H L E -> size4_3 V = E -> 0 <= C ->
  0 <= n < N -> 0 <= h < H -> 0 <= s < L -> 0 <= e < E ->
  get4 (snd (local_weighted_average_backward sh0 attn V grad)) n h s e
  = transpose_sum L C s (fun kk => C - kk - 1) (get4 attn n h)
                  (fun l => get4 grad n h l e).
Proof.
  intros (A0 & A1 & A2 & A3) (G0 & G1 & G2 & G3) V3 HC Hn Hh Hs He.
  unfold local_weighted_average_backward. cbv zeta. cbn [snd].
  rewrite A0, A1, A2, V3.
  rewrite (@local_copy_scaled_transpose_cell F SF EA ReverseLK _ sh0
             ReverseLK_mk (fun kk => C - kk - 1) attn grad (zeros_like V)
             N H L E n h s e); try assumption; try lia.
  - rewrite A3. cbn [zeros_like full4 get4]. apply fadd_0_l.
  - intros k e_local. rewrite A3. unfold lk_call, ReverseLK_policy,
      ReverseLK_call. lia.
Qed.

Lemma half_sum (C : Z) :
  1 <= C -> Z.quot (C - 1) 2 + Z.quot C 2 = C - 1.
Proof.
  intros HC. rewrite !Z.quot_div_nonneg by lia.
  pose proof (Z.div_mod C 2 ltac:(lia)).
  pose proof (Z.mod_pos_bound C 2 ltac:(lia)).
  pose proof (Z.div_mod (C - 1) 2 ltac:(lia)).
  pose proof (Z.mod_pos_bound (C - 1) 2 ltac:(lia)). lia.
Qed.

(** Reading the band backwards along [l = s - (C-1)/2 + kk] enumerates
    the pairs [(l, k)] with [l - C/2 + k = s]: the transposed sum with the
    reverse policy is the adjoint sum. *)
Lemma transpose_sum_reverse (L C s : Z) (w : Z -> Z -> F) (x : Z -> F) :
  0 <= L -> 0 <= C ->
  transpose_sum L C s (fun kk => C - kk - 1) w x = scatter_sum L C s w x.
Proof.
  intros HL HC. unfold transpose_sum, scatter_sum.
  destruct (Z.eq_dec C 0) as [->|HC0].
  { cbn [Z.to_nat]. symmetry. apply fsum_zero. intros; reflexivity. }
  pose proof (half_sum (C := C) ltac:(lia)) as Hh.
  set (a := s - Z.quot (C - 1) 2).
  transitivity
    (fsum (Z.to_nat L)
       (fun l => if (a <=? l) && (l <? a + Z.of_nat (Z.to_nat C))
                 then fmul (w l (s - l + Z.quot C 2)) (x l) else fzero)).
  - rewrite fsum_window. apply fsum_ext. intros kk Hkk. cbv zeta.
    rewrite Z2Nat.id by lia. fold a.
    destruct (in_range (a + kk) L); [|reflexivity].
    rewrite fmul_comm. do 2 f_equal. subst a. lia.
  - apply fsum_ext. intros l Hl. rewrite Z2Nat.id by lia.
    destruct ((a <=? l) && (l <? a + C)) eqn:Ein.
    + apply andb_prop in Ein. destruct Ein as [E1 E2].
      apply Z.leb_le in E1. apply Z.ltb_lt in E2.
      rewrite (@fsum_single F SF EA (Z.to_nat C) _ (s - l + Z.quot C 2)).
      * unfold key_index.
        replace (l - Z.quot C 2 + (s - l + Z.quot C 2) =? s) with true
          by (symmetry; apply Z.eqb_eq; lia).
        reflexivity.
      * subst a. lia.
      * intros k Hk Hne. unfold key_index.
        replace (l - Z.quot C 2 + k =? s) with false
          by (symmetry; apply Z.eqb_neq; lia).
        reflexivity.
    + symmetry. apply fsum_zero. intros k Hk. unfold key_index.
      replace (l - Z.quot C 2 + k =? s) with false; [reflexivity|].
      symmetry. apply Z.eqb_neq. intros Heq.
      apply andb_false_iff in Ein.
      destruct Ein as [E|E]; [apply Z.leb_gt in E|apply Z.ltb_ge in E];
        subst a; lia.
Qed.
End Operations.

(** ** The operations evaluated on the small instance *)

Example ex_scores :
  let scores := local_dot_product ex_Q ex_K ex_mask ex_key_lengths 2 in
  map (fun lk => get4 scores 0 0 (fst lk) (snd lk))
      [(0, 0); (0, 1); (1, 0); (1, 1)]
  = [NInf; Fin 10; Fin 115; Fin 131].
Proof. reflexivity. Qed.

Example ex_weighted_average :
  let out := local_weighted_average ex_shared ex_attn ex_K in
  (get4 out 0 0 0 0, get4 out 0 0 1 0) = (Fin 15, Fin 38).
Proof. reflexivity. Qed.

Example ex_weighted_average_backward :
  let g := local_weighted_average_backward ex_shared ex_attn ex_K ex_ones in
  map (fun lk => get4 (fst g) 0 0 (fst lk) (snd lk))
      [(0, 0); (0, 1); (1, 0); (1, 1)]
  = [Fin 0; Fin 5; Fin 5; Fin 7]
  /\ (get4 (snd g) 0 0 0 0, get4 (snd g) 0 0 1 0) = (Fin 5, Fin 4).
Proof. split; reflexivity. Qed.

Example ex_dot_backward_grad_queries :
  let g :=
    local_dot_backward ex_shared ex_Q ex_K ex_key_lengths ex_grad_scores 2 in
  (get4 (fst g) 0 0 0 0, get4 (fst g) 0 0 1 0) = (Fin 0, Fin 7).
Proof. reflexivity. Qed.

(** * The claims *)

Section Claims.
Context {F : Type} {SF : Scalar F}.

(** C1. For every batch n, head h, query position l and relative index k
    with 0 <= k < C, letting s = l - C/2 + k: the output of
    [local_dot_product] is Q[n,h,l].K[n,h,s] + mask[l,s] when 0 <= s < L,
    and minus infinity when s is outside [0, L). *)
Theorem local_dot_product_scores (Q K : tensor4 F) (mask : tensor2 F)
    (kl : tensor1) (C N H L E n h l k : Z) :
  shape4 Q N H L E -> shape4 K N H L E ->
  0 <= n < N -> 0 <= h < H -> 0 <= l < L -> 0 <= k < C ->
  let s := l - Z.quot C 2 + k in
  let scores := local_dot_product Q K mask kl C in
  (0 <= s < L ->
   get4 scores n h l k
   = fadd (dot E (get4 Q n h l) (get4 K n h s)) (get2 mask l s))
  /\ (~ 0 <= s < L -> get4 scores n h l k = fninf).
Proof.
  intros HQ HK Hn Hh Hl Hk s scores. split; intros Hs.
  - apply (local_dot_product_cell mask kl HQ HK); auto.
  - apply local_dot_product_fill; [lia|].
    destruct HQ as (_ & _ & -> & _). exact Hs.
Qed.

(** C10. The outputs of [local_dot_product] and [local_dot_backward] do
    not depend on the contents of the key-length vector. *)
Theorem key_lengths_irrelevant (Q K G : tensor4 F) (mask : tensor2 F)
    (kl1 kl2 : tensor1) (C : Z) (sh0 : shared) :
  local_dot_product Q K mask kl1 C = local_dot_product Q K mask kl2 C
  /\ local_dot_backward sh0 Q K kl1 G C = local_dot_backward sh0 Q K kl2 G C.
Proof. split; reflexivity. Qed.

(** C9. The selection kernels of the sliding dot-product engine write only
    output cells (n, l, k) with 0 <= l < L and 0 <= k < C whose key index
    lies inside the clipped key range of the chunk of l; every other cell
    keeps the value it had before the call. *)
Theorem sliding_dot_writes_only_band (A B out : tensor3 F)
    (C n l k : Z) :
  0 <= C ->
  ~ writable 64 (size3_0 A) (size3_1 A) C n l k ->
  (forall cp : masked_lp_copy,
      get3 (sliding_dot 64 cp A B out C) n l k = get3 out n l k)
  /\ get3 (sliding_dot 64 Lp_copy A B out C) n l k = get3 out n l k.
Proof.
  intros HC Hw. split; [intros cp; rewrite sliding_dot_masked
                       | rewrite sliding_dot_plain];
    apply sliding_dot_frame; auto; lia.
Qed.

(** C8. The driver visits the query positions in chunks of 64, at
    l = 0, 64, 128, ... below L.  For the chunk starting at l, with
    n_a = min(L-l, 64) queries and the key range
    [s_start, s_end) = [max(0, l - C/2), min(L, l - C/2 + C + 64)), the
    matmul writes exactly the n_a x (s_end - s_start) rectangle of the
    scratch buffer (the dot products of the queries of the chunk with the
    keys of the range) and leaves every other scratch cell as it was; the
    selection kernel is then launched over the elements of that rectangle,
    in blocks of 1024 threads; and a selection thread whose relative index
    k = s - l + C/2 is outside [0, C) leaves the output as it is. *)
Theorem sliding_dot_driver {T} {CI : CopyImplementation T} (cp : T)
    (A B out : tensor3 F) (C : Z) :
  let N := size3_0 A in
  let L := size3_1 A in
  sliding_dot 64 cp A B out C
  = snd (fold_left (fun st l => sliding_dot_body 64 cp A B C l st)
           (map (fun i => 64 * i) (zrange (Z.to_nat (ceildiv L 64))))
           (full3 N 64 (64 + C) fzero, out))
  /\ (forall l st,
        let n_a := Z.min (L - l) 64 in
        let s_start := Z.max 0 (l - Z.quot C 2) in
        let s_end := Z.min L (l - Z.quot C 2 + C + 64) in
        let n_b := s_end - s_start in
        let scratch := fst (sliding_dot_body 64 cp A B C l st) in
        (forall n i j,
            0 <= n < N -> 0 <= i < n_a -> 0 <= j < n_b ->
            get3 scratch n i j
            = dot (size3_2 A) (get3 A n (l + i)) (get3 B n (s_start + j)))
        /\ (forall n i j,
              ~ (0 <= n < N /\ 0 <= i < n_a /\ 0 <= j < n_b) ->
              get3 scratch n i j = get3 (fst st) n i j)
        /\ size3_0 scratch = size3_0 (fst st)
        /\ snd (sliding_dot_body 64 cp A B C l st)
           = launch_flat (ceildiv (size3_0 scratch * n_a * n_b) 1024) 1024
               (fun idx o =>
                  sliding_dot_copy_kernel cp (narrow12 scratch n_a n_b) o C
                    l s_start (n_a * n_b) n_b idx)
               (snd st))
  /\ (forall (self : masked_lp_copy) (buffer output : tensor3 F)
             l_start s_start buffer_dim12 buffer_dim2 idx,
        let n := Z.quot idx buffer_dim12 in
        let l_offset := Z.quot (idx - n * buffer_dim12) buffer_dim2 in
        let s_offset := idx - n * buffer_dim12 - l_offset * buffer_dim2 in
        let k := s_start + s_offset - (l_start + l_offset) + Z.quot C 2 in
        k < 0 \/ C <= k ->
        masked_lp_copy_call self buffer output C l_start s_start
                            buffer_dim12 buffer_dim2 idx = output)
  /\ (forall (buffer output : tensor3 F) l_start s_start
             buffer_dim12 buffer_dim2 idx,
        let n := Z.quot idx buffer_dim12 in
        let l_offset := Z.quot (idx - n * buffer_dim12) buffer_dim2 in
        let s_offset := idx - n * buffer_dim12 - l_offset * buffer_dim2 in
        let k := s_start + s_offset - (l_start + l_offset) + Z.quot C 2 in
        k < 0 \/ C <= k ->
        lp_copy_call Lp_copy buffer output C l_start s_start
                     buffer_dim12 buffer_dim2 idx = output).
Proof.
  intros N L. split; [|split; [|split]].
  - apply sliding_dot_unroll. lia.
  - intros l st n_a s_start s_end n_b scratch.
    assert (Hcell : forall n i j,
               get3 scratch n i j
               = if in_range n N && in_range i n_a && in_range j n_b
                 then dot (size3_2 A) (get3 A n (l + i))
                          (get3 B n (s_start + j))
                 else get3 (fst st) n i j) by (intros; reflexivity).
    split; [|split; [|split]].
    + intros n i j Hn Hi Hj. rewrite Hcell.
      replace (in_range n N) with true by (unfold in_range; lia).
      replace (in_range i n_a) with true by (unfold in_range; lia).
      replace (in_range j n_b) with true by (unfold in_range; lia).
      reflexivity.
    + intros n i j Hout. rewrite Hcell.
      destruct (in_range n N && in_range i n_a && in_range j n_b) eqn:Hin;
        [|reflexivity].
      exfalso. apply Hout.
      apply andb_true_iff in Hin. destruct Hin as [Hin Hj].
      apply andb_true_iff in Hin. destruct Hin as [Hn Hi].
      unfold in_range in Hn, Hi, Hj. lia.
    + reflexivity.
    + reflexivity.
  - intros self buffer output l_start s_start d12 d2 idx n l_offset
           s_offset k Hk.
    unfold masked_lp_copy_call. cbv zeta. fold n. fold l_offset.
    fold s_offset. fold k.
    destruct (n >=? size3_0 buffer); [reflexivity|].
    replace ((k <? 0) || (k >=? C)) with true; [reflexivity|].
    symmetry. apply orb_true_iff. rewrite Z.ltb_lt, Z.geb_le. lia.
  - intros buffer output l_start s_start d12 d2 idx n l_offset
           s_offset k Hk.
    unfold lp_copy_call. cbv zeta. fold n. fold l_offset.
    fold s_offset. fold k.
    destruct (n >=? size3_0 buffer); [reflexivity|].
    replace ((k <? 0) || (k >=? C)) with true; [reflexivity|].
    symmetry. apply orb_true_iff. rewrite Z.ltb_lt, Z.geb_le. lia.
Qed.

(** C5 (as amended). With C even, keeping exactly the dense entries with
    -C/2 <= s - l < C/2 gives the band of [local_dot_product]: every kept
    dense entry (l, s) sits at band position k = s - l + C/2, and every band
    cell different from minus infinity is such a kept dense entry. *)
Theorem dense_window_equiv (Q K : tensor4 F) (mask : tensor2 F)
    (kl : tensor1) (C N H L E : Z) :
  shape4 Q N H L E -> shape4 K N H L E -> 0 <= C -> Z.even C = true ->
  dense_band_equiv window_kept (local_dot_product Q K mask kl C) Q K mask C.
Proof.
  intros HQ HK HC Hev.
  assert (Hhalf : C = 2 * Z.quot C 2).
  { rewrite Z.quot_div_nonneg by lia.
    pose proof (Z.div_mod C 2 ltac:(lia)) as Hd.
    rewrite Zmod_even, Hev in Hd. lia. }
  pose proof HQ as (Q0 & Q1 & Q2 & Q3).
  unfold dense_band_equiv. cbv zeta. rewrite Q0, Q1, Q2. split.
  - intros n h l s Hn Hh Hl Hs Hkept.
    unfold window_kept in Hkept. apply andb_prop in Hkept.
    destruct Hkept as [E1 E2]. apply Z.leb_le in E1. apply Z.ltb_lt in E2.
    rewrite (local_dot_product_cell mask kl HQ HK) by
      (try assumption; unfold key_index; lia).
    unfold dense_scores, key_index. rewrite Q3.
    replace (l - Z.quot C 2 + (s - l + Z.quot C 2)) with s by lia.
    reflexivity.
  - intros n h l k Hn Hh Hl Hk Hfin.
    destruct (Z_le_dec 0 (key_index C l k)) as [Hlo|Hlo];
      [destruct (Z_lt_dec (key_index C l k) L) as [Hhi|Hhi]|].
    + exists (key_index C l k). repeat split; try lia.
      * unfold window_kept, key_index.
        apply andb_true_intro. rewrite Z.leb_le, Z.ltb_lt. lia.
      * unfold key_index. lia.
      * rewrite (local_dot_product_cell mask kl HQ HK) by
          (try assumption; lia).
        unfold dense_scores. rewrite Q3. reflexivity.
    + exfalso. apply Hfin. apply local_dot_product_fill; [lia|].
      rewrite Q2. lia.
    + exfalso. apply Hfin. apply local_dot_product_fill; [lia|].
      rewrite Q2. lia.
Qed.

(** C7. With [grad_output] the all-ones tensor, the weight gradient of
    [local_weighted_average_backward] at (n, h, l, k) is the sum over the
    features of V[n, h, l - C/2 + k, :] when that key index lies in [0, L),
    and zero otherwise. *)
Theorem grad_attention_of_ones {EA : ExactArith F} (attn V grad : tensor4 F)
    (sh0 : shared) (N H L E C n h l k : Z) :
  shape4 attn N H L C -> shape4 V N H L E -> shape4 grad N H L E ->
  (forall n h l e, 0 <= n < N -> 0 <= h < H -> 0 <= l < L -> 0 <= e < E ->
                   get4 grad n h l e = fone) ->
  0 <= n < N -> 0 <= h < H -> 0 <= l < L -> 0 <= k < C ->
  let s := l - Z.quot C 2 + k in
  let grad_attn := fst (local_weighted_average_backward sh0 attn V grad) in
  (0 <= s < L ->
   get4 grad_attn n h l k = fsum (Z.to_nat E) (fun e => get4 V n h s e))
  /\ (~ 0 <= s < L -> get4 grad_attn n h l k = fzero).
Proof.
  intros HA HV HG Hones Hn Hh Hl Hk s grad_attn. split; intros Hs.
  - unfold grad_attn. rewrite (grad_attention_cell sh0 HA HV HG); auto.
    unfold dot. apply fsum_ext. intros e He.
    rewrite Hones by lia. apply fmul_1_l.
  - unfold grad_attn. destruct HA as (_ & _ & A2 & A3).
    apply grad_attention_fill; rewrite ?A2, ?A3; [lia|exact Hs].
Qed.

(** C2. [local_weighted_average] returns, in a zero-initialised output,
    output[n,h,l,e] = sum_{k=0}^{C-1} attn[n,h,l,k] * V[n,h,l-C/2+k,e],
    where terms whose key index is outside [0, L) contribute zero. *)
Theorem local_weighted_average_sum {EA : ExactArith F} (attn V : tensor4 F)
    (sh0 : shared) (N H L E C n h l e : Z) :
  shape4 attn N H L C -> shape4 V N H L E -> 0 <= C ->
  0 <= n < N -> 0 <= h < H -> 0 <= l < L -> 0 <= e < E ->
  get4 (local_weighted_average sh0 attn V) n h l e
  = fsum (Z.to_nat C)
      (fun k =>
         let s := l - Z.quot C 2 + k in
         if in_range s L
         then fmul (get4 attn n h l k) (get4 V n h s e) else fzero).
Proof.
  intros HA HV HC Hn Hh Hl He.
  rewrite (local_weighted_average_cell sh0 HA HV); auto.
Qed.

(** C4. [local_weighted_average_backward] returns, computed by
    [local_copy_scaled_transpose] with the reverse index policy
    k_mapped = C - k - e_local - 1, the adjoint of the windowed gather in
    its value operand: grad_V[n,h,s,e] is the sum over all (l, k) with
    0 <= k < C and l - C/2 + k = s of attn[n,h,l,k] * grad_output[n,h,l,e]. *)
Theorem local_weighted_average_backward_grad_values {EA : ExactArith F}
    (attn V grad : tensor4 F) (sh0 : shared) (N H L E C n h s e : Z) :
  shape4 attn N H L C -> shape4 V N H L E -> shape4 grad N H L E ->
  0 <= C ->
  0 <= n < N -> 0 <= h < H -> 0 <= s < L -> 0 <= e < E ->
  (let lblocks := ceildiv L 32 in
   let eblocks := ceildiv E 32 in
   snd (local_weighted_average_backward sh0 attn V grad)
   = local_copy_scaled_transpose sh0 32 32 32
       (N * H * lblocks * eblocks) (32 * 32) attn grad (zeros_like V)
       (Dim3 (H * lblocks * eblocks) (lblocks * eblocks) eblocks)
       ReverseLK_mk)
  /\ (forall k e_local, lk_call ReverseLK_mk k e_local C
                        = C - k - e_local - 1)
  /\ get4 (snd (local_weighted_average_backward sh0 attn V grad)) n h s e
     = fsum (Z.to_nat L)
         (fun l =>
            fsum (Z.to_nat C)
              (fun k =>
                 if l - Z.quot C 2 + k =? s
                 then fmul (get4 attn n h l k) (get4 grad n h l e)
                 else fzero)).
Proof.
  intros HA HV HG HC Hn Hh Hs He. repeat split.
  - destruct HA as (A0 & A1 & A2 & A3). destruct HV as (V0 & V1 & V2 & V3).
    unfold local_weighted_average_backward. cbv zeta. cbn [snd].
    rewrite A0, A1, A2, V3. reflexivity.
  - destruct HV as (_ & _ & _ & V3).
    rewrite (grad_values_cell V sh0 HA HG V3); auto.
    rewrite transpose_sum_reverse by lia. reflexivity.
Qed.

End Claims.

(** ** The claims on the small instance *)

Lemma local_dot_product_scores_witness :
  get4 (local_dot_product ex_Q ex_K ex_mask ex_key_lengths 2) 0 0 1 1
  = Fin 131.
Proof.
  apply (proj1 (@local_dot_product_scores xint _ ex_Q ex_K ex_mask
                  ex_key_lengths 2 1 1 2 1 0 0 1 1
                  ltac:(repeat split) ltac:(repeat split)
                  ltac:(lia) ltac:(lia) ltac:(lia) ltac:(lia))).
  change (Z.quot 2 2) with 1. lia.
Defined.

Lemma sliding_dot_writes_only_band_witness :
  (forall cp : masked_lp_copy,
      get3 (sliding_dot 64 cp (view3 ex_Q 1 2 1) (view3 ex_K 1 2 1)
              (full3 1 2 2 NInf) 2) 0 0 0 = NInf)
  /\ get3 (sliding_dot 64 Lp_copy (view3 ex_Q 1 2 1) (view3 ex_K 1 2 1)
             (full3 1 2 2 NInf) 2) 0 0 0 = NInf.
Proof.
  apply (@sliding_dot_writes_only_band xint _ (view3 ex_Q 1 2 1)
           (view3 ex_K 1 2 1) (full3 1 2 2 NInf) 2 0 0 0); [lia|].
  intros Hw. apply writable_key_range in Hw. unfold key_index in Hw.
  change (Z.quot 2 2) with 1 in Hw. lia.
Defined.

Lemma local_weighted_average_sum_witness :
  get4 (local_weighted_average ex_shared ex_attn ex_K) 0 0 1 0 = Fin 38.
Proof.
  refine (eq_trans
            (@local_weighted_average_sum xint _ _ ex_attn ex_K ex_shared
               1 1 2 1 2 0 0 1 0
               ltac:(repeat split) ltac:(repeat split) ltac:(lia)
               ltac:(lia) ltac:(lia) ltac:(lia) ltac:(lia)) _).
  reflexivity.
Defined.

Lemma local_weighted_average_backward_grad_values_witness :
  get4 (snd (local_weighted_average_backward ex_shared ex_attn ex_K ex_ones))
       0 0 0 0 = Fin 5.
Proof.
  refine (eq_trans
            (proj2 (proj2
               (@local_weighted_average_backward_grad_values xint _ _
                  ex_attn ex_K ex_ones ex_shared 1 1 2 1 2 0 0 0 0
                  ltac:(repeat split) ltac:(repeat split)
                  ltac:(repeat split)
                  ltac:(lia) ltac:(lia) ltac:(lia) ltac:(lia) ltac:(lia))))
            _).
  reflexivity.
Defined.

Lemma dense_window_equiv_witness :
  dense_band_equiv window_kept
    (local_dot_product ex_Q ex_K ex_mask ex_key_lengths 2)
    ex_Q ex_K ex_mask 2.
Proof.
  apply (@dense_window_equiv xint _ ex_Q ex_K ex_mask ex_key_lengths
           2 1 1 2 1); try (repeat split); lia.
Defined.

Lemma grad_attention_of_ones_witness :
  get4 (fst (local_weighted_average_backward ex_shared ex_attn ex_K ex_ones))
       0 0 1 1 = Fin 7.
Proof.
  refine (eq_trans
            (proj1 (@grad_attention_of_ones xint _ _ ex_attn ex_K ex_ones
                      ex_shared 1 1 2 1 2 0 0 1 1
                      ltac:(repeat split) ltac:(repeat split)
                      ltac:(repeat split) ltac:(reflexivity)
                      ltac:(lia) ltac:(lia) ltac:(lia) ltac:(lia)) _) _).
  - change (Z.quot 2 2) with 1. lia.
  - reflexivity.
Defined.

(** C3. On the small instance the only non-zero score gradient is at
    (l, k) = (1, 1), the score of query 1 with key 1.  The adjoint sum
    sends it to grad_K[1] (as 3 = Q[1]) and nothing to grad_K[0]; the key
    gradient of [local_dot_backward] has it at grad_K[0] and zero at
    grad_K[1]. *)
Theorem local_dot_backward_grad_keys_mismatch (sh0 : shared) :
  let grad_keys :=
    snd (local_dot_backward sh0 ex_Q ex_K ex_key_lengths ex_grad_scores 2) in
  let adjoint s :=
    scatter_sum 2 2 s (get4 ex_grad_scores 0 0) (fun l => get4 ex_Q 0 0 l 0)
  in
  get4 grad_keys 0 0 0 0 = Fin 3 /\ adjoint 0 = Fin 0
  /\ get4 grad_keys 0 0 1 0 = Fin 0 /\ adjoint 1 = Fin 3.
Proof.
  cbv zeta. split; [|split; [|split]]; reflexivity.
Qed.

(** C6. On the small instance let the only non-zero score gradient sit at
    the band cell (l, k) = (0, 0), whose key index 0 - C/2 + 0 = -1 is out
    of the sequence.  Dropping out-of-range contributions gives a key
    gradient that is zero everywhere, and [local_dot_backward] does drop the
    cell from grad_Q; but its key gradient has grad_K[0] = 2 = Q[0], the
    contribution of the out-of-range cell.  The same kernel launched by
    [local_weighted_average_backward] on the same band and values drops
    it. *)
Theorem local_dot_backward_grad_keys_out_of_range (sh0 : shared) :
  let grad := local_dot_backward sh0 ex_Q ex_K ex_key_lengths ex_grad_edge 2 in
  let dropped s :=
    scatter_sum 2 2 s (get4 ex_grad_edge 0 0) (fun l => get4 ex_Q 0 0 l 0) in
  let sibling := local_weighted_average_backward sh0 ex_grad_edge ex_K ex_Q in
  key_index 2 0 0 = -1
  /\ map (fun s => get4 (snd grad) 0 0 s 0) [0; 1] = [Fin 2; Fin 0]
  /\ map dropped [0; 1] = [Fin 0; Fin 0]
  /\ map (fun l => get4 (fst grad) 0 0 l 0) [0; 1] = [Fin 0; Fin 0]
  /\ map (fun s => get4 (snd sibling) 0 0 s 0) [0; 1] = [Fin 0; Fin 0].
Proof.
  cbv zeta. split; [|split; [|split; [|split]]]; reflexivity.
Qed.

(** C5 as stated fails on the small instance: the band cell (l, k) = (1, 0)
    holds the finite score of query 1 with key 0, for which |l - s| = 1 is
    not below C/2 = 1, so no kept dense entry corresponds to it. *)
Lemma dense_symmetric_band_counterexample :
  get4 (local_dot_product ex_Q ex_K ex_mask ex_key_lengths 2) 0 0 1 0
  = Fin 115
  /\ dense_kept 2 1 0 = false
  /\ ~ dense_band_equiv dense_kept
        (local_dot_product ex_Q ex_K ex_mask ex_key_lengths 2)
        ex_Q ex_K ex_mask 2.
Proof.
  assert (Hcell : get4 (local_dot_product ex_Q ex_K ex_mask ex_key_lengths 2)
                       0 0 1 0 = Fin 115).
  { reflexivity. }
  split; [exact Hcell|]. split; [reflexivity|].
  intros [_ Hband].
  destruct (Hband 0 0 1 0) as (s & Hs & Hkept & Hk & _);
    try (cbn; lia).
  - rewrite Hcell. discriminate.
  - change (Z.quot 2 2) with 1 in Hk. assert (s = 0) by lia. subst s.
    discriminate Hkept.
Qed.

(** * Further properties of the code *)

(** ** Grids and index decoding *)

(** X1. [ceildiv a b] blocks of [b] threads cover [a] elements with less
    than one block to spare: [a <= b * ceildiv a b < a + b]. *)
Theorem ceildiv_covers (a b : Z) :
  0 <= a -> 0 < b -> a <= b * ceildiv a b < a + b.
Proof.
  intros Ha Hb.
  destruct (ceildiv_bounds Ha Hb) as [[? ?]|[-> ->]]; lia.
Qed.

Lemma quot_range (x q d : Z) :
  0 < d -> 0 <= x < q * d ->
  0 <= Z.quot x d < q /\ 0 <= x - Z.quot x d * d < d.
Proof.
  intros Hd Hx. rewrite Z.quot_div_nonneg by lia.
  pose proof (Z.div_mod x d ltac:(lia)).
  pose proof (Z.mod_pos_bound x d Hd).
  assert (0 <= x / d) by (apply Z.div_pos; lia).
  assert (x / d < q) by (apply Z.div_lt_upper_bound; lia).
  lia.
Qed.

(** X2. The split of [blockIdx.x] along the strides of the tiled launches
    is a bijection between the launched blocks [0 .. N*H*lblocks*eblocks)
    and the grid of (n, h, length tile, feature tile): every launched block
    decodes to in-range coordinates that encode back to it, and every
    in-range coordinate tuple is decoded from its code. *)
Theorem block_coords_bijection (N H lblocks eblocks : Z) :
  0 < H -> 0 < lblocks -> 0 < eblocks ->
  let strides :=
    Dim3 (H * lblocks * eblocks) (lblocks * eblocks) eblocks in
  (forall b, 0 <= b < N * H * lblocks * eblocks ->
     let '(n, h, lblock, eblock) := block_coords strides b in
     0 <= n < N /\ 0 <= h < H /\ 0 <= lblock < lblocks
     /\ 0 <= eblock < eblocks
     /\ b = ((n * H + h) * lblocks + lblock) * eblocks + eblock)
  /\ (forall n h lblock eblock,
        0 <= n < N -> 0 <= h < H -> 0 <= lblock < lblocks ->
        0 <= eblock < eblocks ->
        let b := ((n * H + h) * lblocks + lblock) * eblocks + eblock in
        0 <= b < N * H * lblocks * eblocks
        /\ block_coords strides b = (n, h, lblock, eblock)).
Proof.
  intros HH Hl He strides. split.
  - intros b Hb. unfold block_coords, strides.
    cbn [dim3_x dim3_y dim3_z]. cbv zeta.
    assert (0 < lblocks * eblocks) by nia.
    assert (0 < H * lblocks * eblocks) by nia.
    destruct (@quot_range b N (H * lblocks * eblocks)) as [Hn Hr1];
      [lia|lia|].
    set (n := Z.quot b (H * lblocks * eblocks)) in *.
    set (r1 := b - n * (H * lblocks * eblocks)) in *.
    destruct (@quot_range r1 H (lblocks * eblocks)) as [Hh Hr2];
      [lia|lia|].
    set (h := Z.quot r1 (lblocks * eblocks)) in *.
    set (r2 := r1 - h * (lblocks * eblocks)) in *.
    destruct (@quot_range r2 lblocks eblocks) as [Hlb Hr3]; [lia|lia|].
    set (l := Z.quot r2 eblocks) in *.
    repeat split; lia.
  - intros n h lblock eblock Hn Hh Hlb Heb b.
    replace b with (n * (H * lblocks * eblocks) + h * (lblocks * eblocks)
                    + lblock * eblocks + eblock) by (subst b; ring).
    split.
    + apply block_index_range; lia.
    + apply block_coords_compose; lia.
Qed.

(** ** The block matmul driver and its selection threads *)

Section SlidingDotExtras.
Context {F : Type} {SF : Scalar F}.

(** X3. Clipping the key range of a chunk loses no key: a cell of the band
    can be written by the chunk of its query exactly when it is inside the
    shape and its key index exists, [0 <= l - C/2 + k < L]. *)
Theorem writable_iff_band (a_blocks N L C n l k : Z) :
  0 < a_blocks -> 0 <= C ->
  writable a_blocks N L C n l k
  <-> 0 <= n < N /\ 0 <= l < L /\ 0 <= k < C
      /\ 0 <= l - Z.quot C 2 + k < L.
Proof.
  intros Ha HC. unfold writable, chunk_s_start, chunk_s_end, key_index.
  cbv zeta. pose proof (half_bounds HC).
  split.
  - lia.
  - intros (Hn & Hl & Hk & Hs).
    destruct (@quot_chunk_bounds a_blocks l Ha ltac:(lia)). lia.
Qed.

(** X4. Every sub-problem the loop of [sliding_dot] sets up fits: for each
    chunk start visited, the query rows [l, l + n_a) lie in [0, L), the key
    rows [s_start, s_start + n_b) lie in [0, L), both are non-empty, and
    the (n_a, n_b) view fits the (a_blocks, a_blocks + C) scratch buffer
    the product is written to. *)
Theorem sliding_dot_subproblems_fit {T} {CI : CopyImplementation T} (cp : T)
    (A B : tensor3 F) (C l : Z) (st : tensor3 F * tensor3 F) :
  0 <= C -> In l (chunk_starts 64 (size3_1 A)) ->
  let L := size3_1 A in
  let s_start := Z.max 0 (l - Z.quot C 2) in
  let s_end := Z.min L (l - Z.quot C 2 + C + 64) in
  let n_b := s_end - s_start in
  let n_a := Z.min (L - l) 64 in
  fst (sliding_dot_body 64 cp A B C l st)
  = matmul_out (fst st) A B l n_a s_start n_b
  /\ 0 <= l /\ 0 < n_a <= 64 /\ l + n_a <= L
  /\ 0 <= s_start /\ 0 < n_b <= 64 + C /\ s_start + n_b <= L.
Proof.
  intros HC Hin L s_start s_end n_b n_a.
  split; [reflexivity|]. subst n_a n_b s_start s_end L.
  set (L := size3_1 A) in *.
  unfold chunk_starts in Hin. apply in_map_iff in Hin.
  destruct Hin as (j & <- & Hj). apply in_zrange in Hj.
  assert (HL : 0 <= L).
  { destruct (Z_le_gt_dec 0 L) as [|Hneg]; [assumption|exfalso].
    assert (ceildiv L 64 <= 0).
    { unfold ceildiv. rewrite <- (Z.quot_small (64 - 1) 64) by lia.
      apply Z.quot_le_mono; lia. }
    lia. }
  pose proof (@chunk_index_range 64 L j ltac:(lia) HL Hj).
  pose proof (half_bounds HC). lia.
Qed.

(** X5. The threads a launch rounds up to, those whose flat index is at or
    past the number of elements of the dense block, write nothing: both
    selection kernels return the output as it is. *)
Theorem selection_surplus_threads (self : masked_lp_copy)
    (buffer output : tensor3 F) (C l_start s_start idx : Z) :
  0 < size3_1 buffer -> 0 < size3_2 buffer -> 0 <= size3_0 buffer ->
  numel3 buffer <= idx ->
  masked_lp_copy_call self buffer output C l_start s_start
    (size3_1 buffer * size3_2 buffer) (size3_2 buffer) idx = output
  /\ lp_copy_call Lp_copy buffer output C l_start s_start
       (size3_1 buffer * size3_2 buffer) (size3_2 buffer) idx = output.
Proof.
  intros H1 H2 H0 Hidx. unfold numel3 in Hidx.
  assert (Hd : 0 < size3_1 buffer * size3_2 buffer) by nia.
  assert (Hn : size3_0 buffer
               <= Z.quot idx (size3_1 buffer * size3_2 buffer)).
  { rewrite Z.quot_div_nonneg by nia.
    apply Z.div_le_lower_bound; [lia|]. nia. }
  unfold masked_lp_copy_call, lp_copy_call. cbv zeta.
  replace (Z.quot idx (size3_1 buffer * size3_2 buffer)
           >=? size3_0 buffer) with true
    by (symmetry; apply Z.geb_le; lia).
  split; reflexivity.
Qed.

End SlidingDotExtras.

Section SlidingDotExtras2.
Context {F : Type} {SF : Scalar F}.

Lemma select_call_commute (val : Z -> Z -> F -> F) (buff out : tensor3 F)
    (C l_start s_start n_a n_b idx1 idx2 n l k : Z) :
  0 <= idx1 -> 0 <= idx2 -> 0 < n_a -> 0 < n_b ->
  get3 (select_call val buff
          (select_call val buff out C l_start s_start (n_a * n_b) n_b idx2)
          C l_start s_start (n_a * n_b) n_b idx1) n l k
  = get3 (select_call val buff
            (select_call val buff out C l_start s_start (n_a * n_b) n_b idx1)
            C l_start s_start (n_a * n_b) n_b idx2) n l k.
Proof.
  intros H1 H2 Ha Hb.
  destruct (Z.eq_dec idx1 idx2) as [->|Hne]; [reflexivity|].
  assert (Hdec : chunk_cell (size3_0 buff) C l_start n_a s_start n_b n l k
                 \/ ~ chunk_cell (size3_0 buff) C l_start n_a s_start n_b
                      n l k)
    by (unfold chunk_cell; lia).
  destruct Hdec as [Hcell|Hcell].
  2:{ rewrite !select_call_frame by assumption. reflexivity. }
  set (o := owner_idx l_start s_start n_a n_b C n l k).
  destruct (Z.eq_dec idx1 o) as [E1|E1];
    destruct (Z.eq_dec idx2 o) as [E2|E2].
  - congruence.
  - rewrite E1. unfold o. rewrite select_call_owner by assumption.
    rewrite (@select_call_other F val buff _ C l_start s_start n_a n_b
               idx2 n l k) by assumption.
    rewrite select_call_owner by assumption. reflexivity.
  - rewrite E2. unfold o.
    rewrite (@select_call_other F val buff _ C l_start s_start n_a n_b
               idx1 n l k) by assumption.
    rewrite !select_call_owner by assumption. reflexivity.
  - rewrite !select_call_other by assumption. reflexivity.
Qed.

(** X6. The selection threads of a launch do not race: two threads write
    different cells, so running them in either order leaves the same
    output, for the masked and for the plain selector. *)
Theorem selection_threads_commute (self : masked_lp_copy)
    (buff out : tensor3 F) (C l_start s_start idx1 idx2 n l k : Z) :
  0 <= idx1 -> 0 <= idx2 -> 0 < size3_1 buff -> 0 < size3_2 buff ->
  let d12 := size3_1 buff * size3_2 buff in
  let d2 := size3_2 buff in
  get3 (masked_lp_copy_call self buff
          (masked_lp_copy_call self buff out C l_start s_start d12 d2 idx2)
          C l_start s_start d12 d2 idx1) n l k
  = get3 (masked_lp_copy_call self buff
            (masked_lp_copy_call self buff out C l_start s_start d12 d2 idx1)
            C l_start s_start d12 d2 idx2) n l k
  /\ get3 (lp_copy_call Lp_copy buff
             (lp_copy_call Lp_copy buff out C l_start s_start d12 d2 idx2)
             C l_start s_start d12 d2 idx1) n l k
     = get3 (lp_copy_call Lp_copy buff
               (lp_copy_call Lp_copy buff out C l_start s_start d12 d2 idx1)
               C l_start s_start d12 d2 idx2) n l k.
Proof.
  intros H1 H2 Ha Hb d12 d2. split.
  - apply (@select_call_commute (masked_val self)); assumption.
  - apply (@select_call_commute plain_val); assumption.
Qed.

(** X7. The weight gradient of [local_weighted_average_backward] is exact
    for every [grad_output]: grad_attn[n,h,l,k] is the dot product of
    grad_output[n,h,l,:] with V[n,h,l-C/2+k,:] when that key exists, and
    zero when it does not. *)
Theorem grad_attention_exact (attn V grad : tensor4 F) (sh0 : shared)
    (N H L E C n h l k : Z) :
  shape4 attn N H L C -> shape4 V N H L E -> shape4 grad N H L E ->
  0 <= n < N -> 0 <= h < H -> 0 <= l < L -> 0 <= k < C ->
  let s := l - Z.quot C 2 + k in
  let grad_attn := fst (local_weighted_average_backward sh0 attn V grad) in
  (0 <= s < L ->
   get4 grad_attn n h l k
   = fsum (Z.to_nat E)
       (fun e => fmul (get4 grad n h l e) (get4 V n h s e)))
  /\ (~ 0 <= s < L -> get4 grad_attn n h l k = fzero).
Proof.
  intros HA HV HG Hn Hh Hl Hk s grad_attn. split; intros Hs.
  - unfold grad_attn. rewrite (grad_attention_cell sh0 HA HV HG); auto.
  - unfold grad_attn. destruct HA as (_ & _ & A2 & A3).
    apply grad_attention_fill; rewrite ?A2, ?A3; [lia|exact Hs].
Qed.

Lemma for_loop_inv {St : Type} (Inv : St -> Prop) (body : Z -> St -> St)
    (bound step : Z) :
  (forall i st, Inv st -> Inv (body i st)) ->
  forall fuel i st, Inv st -> Inv (for_loop fuel i bound step body st).
Proof.
  intros Hb. induction fuel as [|fuel IH]; intros i st Hst; cbn [for_loop];
    [assumption|].
  destruct (i <? bound); [|assumption]. apply IH. apply Hb. assumption.
Qed.

End SlidingDotExtras2.

(** ** The tiled kernels, without arithmetic laws *)

Section TiledExtras.
Context {F : Type} {SF : Scalar F}.

(** The accumulation [local_copy_scaled] performs on a cell, as the
    kernel orders it: one partial sum of 32 products per window chunk,
    added chunk after chunk onto the cell. *)
Lemma local_copy_scaled_cell_chunks (sh0 : shared)
    (factors values out : tensor4 F) (N H L E n h l e : Z) :
  size4_0 factors = N -> size4_1 factors = H -> size4_2 factors = L ->
  size4_3 values = E -> 0 <= size4_3 factors ->
  0 <= n < N -> 0 <= h < H -> 0 <= l < L -> 0 <= e < E ->
  let lb := ceildiv L 32 in
  let eb := ceildiv E 32 in
  get4 (local_copy_scaled sh0 32 32 32 (N * H * lb * eb) (32 * 32)
          factors values out (Dim3 (H * lb * eb) (lb * eb) eb))
       n h l e
  = fold_left
      (fun acc c =>
         fadd acc
           (fsum 32 (fun kl => lcs_term factors values n h l e (32 * c + kl))))
      (zrange (Z.to_nat (ceildiv (size4_3 factors) 32)))
      (get4 out n h l e).
Proof.
  intros HN HH HL HE HC Hn Hh Hl He lb eb.
  destruct (tile_index (l := l) ltac:(lia)) as [Hl1 Hl2].
  destruct (tile_index (l := e) ltac:(lia)) as [He1 He2].
  set (lblk := Z.quot l 32) in *. set (i := l - lblk * 32) in *.
  set (eblk := Z.quot e 32) in *. set (j := e - eblk * 32) in *.
  assert (Hlb' : lblk < lb) by (apply tile_count; lia).
  assert (Heb' : eblk < eb) by (apply tile_count; lia).
  assert (El : l = lblk * 32 + i) by lia.
  assert (Ee : e = eblk * 32 + j) by lia.
  unfold local_copy_scaled. change (32 * 32) with 1024.
  set (strides := Dim3 (H * lb * eb) (lb * eb) eb).
  set (b0 := n * (H * lb * eb) + h * (lb * eb) + lblk * eb + eblk).
  set (g := fun x : F =>
              fold_left
                (fun acc c =>
                   fadd acc
                     (fsum 32 (fun kl => lcs_term factors values n h l e
                                                  (32 * c + kl))))
                (zrange (Z.to_nat (ceildiv (size4_3 factors) 32))) x).
  apply (@fold_left_owner (tensor4 F) F Z (fun _ => True)
           (fun o => get4 o n h l e)
           (fun o b =>
              local_copy_scaled_block sh0 32 32 32 1024 factors values
                                      strides b o)
           g _ b0); auto.
  - apply NoDup_zrange.
  - apply in_zrange.
    pose proof (@block_index_range N H lb eb n h lblk eblk) as P.
    fold b0 in P. lia.
  - intros b st Hb Hne _.
    destruct (block_coords strides b) as [[[n' h'] lb'] eb'] eqn:Ec.
    apply (lcs_block_frame factors values Ec).
    intros (En & Eh & El' & Ee'). apply Hne.
    rewrite (block_coords_inj Ec). unfold b0, strides.
    cbn [dim3_x dim3_y dim3_z].
    assert (lb' = lblk) by lia. assert (eb' = eblk) by lia.
    subst n' h' lb' eb'. reflexivity.
  - intros st _.
    pose proof (@block_coords_compose H lb eb n h lblk eblk) as Ec.
    fold b0 strides in Ec.
    pose proof (lcs_block_owner factors values
                  (Ec ltac:(lia) ltac:(lia) ltac:(lia) ltac:(lia))
                  sh0 st (i := i) (j := j)
                  ltac:(lia) HC ltac:(lia) ltac:(lia) ltac:(lia) ltac:(lia))
      as P.
    rewrite <- El, <- Ee in P. exact P.
Qed.

Lemma local_copy_scaled_transpose_cell_chunks {P} {LP : LkPolicy P}
    (sh0 : shared) (lk_policy : P) (lk : Z -> Z)
    (factors values out : tensor4 F) (N H L E n h s e : Z) :
  (forall k e_local, lk_call lk_policy k e_local (size4_3 factors)
                     = lk (k + e_local)) ->
  size4_0 factors = N -> size4_1 factors = H -> size4_2 factors = L ->
  size4_2 values = L -> size4_3 values = E -> 0 <= size4_3 factors ->
  0 <= n < N -> 0 <= h < H -> 0 <= s < L -> 0 <= e < E ->
  let lb := ceildiv L 32 in
  let eb := ceildiv E 32 in
  get4 (local_copy_scaled_transpose sh0 32 32 32 (N * H * lb * eb) (32 * 32)
          factors values out (Dim3 (H * lb * eb) (lb * eb) eb) lk_policy)
       n h s e
  = fold_left
      (fun acc c =>
         fadd acc
           (fsum 32
              (fun kl => lcst_term lk factors values n h s e (32 * c + kl))))
      (zrange (Z.to_nat (ceildiv (size4_3 factors) 32)))
      (get4 out n h s e).
Proof.
  intros Hlk HN HH HL HS HE HC Hn Hh Hs He lb eb.
  destruct (tile_index (l := s) ltac:(lia)) as [Hs1 Hs2].
  destruct (tile_index (l := e) ltac:(lia)) as [He1 He2].
  set (sblk := Z.quot s 32) in *. set (i := s - sblk * 32) in *.
  set (eblk := Z.quot e 32) in *. set (j := e - eblk * 32) in *.
  assert (Hsb' : sblk < lb) by (apply tile_count; lia).
  assert (Heb' : eblk < eb) by (apply tile_count; lia).
  assert (Es : s = sblk * 32 + i) by lia.
  assert (Ee : e = eblk * 32 + j) by lia.
  unfold local_copy_scaled_transpose. change (32 * 32) with 1024.
  set (strides := Dim3 (H * lb * eb) (lb * eb) eb).
  set (b0 := n * (H * lb * eb) + h * (lb * eb) + sblk * eb + eblk).
  set (g := fun x : F =>
              fold_left
                (fun acc c =>
                   fadd acc
                     (fsum 32 (fun kl => lcst_term lk factors values n h s e
                                                   (32 * c + kl))))
                (zrange (Z.to_nat (ceildiv (size4_3 factors) 32))) x).
  apply (@fold_left_owner (tensor4 F) F Z (fun _ => True)
           (fun o => get4 o n h s e)
           (fun o b =>
              local_copy_scaled_transpose_block sh0 32 32 32 1024 factors
                values strides lk_policy b o)
           g _ b0); auto.
  - apply NoDup_zrange.
  - apply in_zrange.
    pose proof (@block_index_range N H lb eb n h sblk eblk) as Q.
    fold b0 in Q. lia.
  - intros b st Hb Hne _.
    destruct (block_coords strides b) as [[[n' h'] lb'] eb'] eqn:Ec.
    apply (lcst_block_frame factors values lk_policy Ec).
    intros (En & Eh & El' & Ee'). apply Hne.
    rewrite (block_coords_inj Ec). unfold b0, strides.
    cbn [dim3_x dim3_y dim3_z].
    assert (lb' = sblk) by lia. assert (eb' = eblk) by lia.
    subst n' h' lb' eb'. reflexivity.
  - intros st _.
    pose proof (@block_coords_compose H lb eb n h sblk eblk) as Ec.
    fold b0 strides in Ec.
    pose proof (lcst_block_owner factors values lk_policy lk
                  (Ec ltac:(lia) ltac:(lia) ltac:(lia) ltac:(lia)) Hlk
                  sh0 st (i := i) (j := j)
                  ltac:(lia) HC ltac:(lia) ltac:(lia) ltac:(lia) ltac:(lia))
      as Q.
    rewrite <- Es, <- Ee in Q. exact Q.
Qed.
End TiledExtras.

Section TiledExtras2.
Context {F : Type} {SF : Scalar F}.

(** X8. With no law of arithmetic assumed, a cell of
    [local_weighted_average] is the kernel's own accumulation: starting
    from zero, one partial sum per window chunk of 32 positions, each the
    left-to-right sum of the 32 products of a zero-padded weight with a
    zero-padded value. *)
Theorem local_weighted_average_accumulation (attn V : tensor4 F)
    (sh0 : shared) (N H L E C n h l e : Z) :
  shape4 attn N H L C -> shape4 V N H L E -> 0 <= C ->
  0 <= n < N -> 0 <= h < H -> 0 <= l < L -> 0 <= e < E ->
  get4 (local_weighted_average sh0 attn V) n h l e
  = fold_left
      (fun acc c =>
         fadd acc
           (fsum 32
              (fun k_local =>
                 let k := 32 * c + k_local in
                 let s := l - Z.quot C 2 + k in
                 fmul (if (l <? L) && (k <? C) && (s >=? 0) && (s <? L)
                       then get4 attn n h l k else fzero)
                      (if (e <? E) && (s >=? 0) && (s <? L)
                       then get4 V n h s e else fzero))))
      (zrange (Z.to_nat (ceildiv C 32))) fzero.
Proof.
  intros (A0 & A1 & A2 & A3) (V0 & V1 & V2 & V3) HC Hn Hh Hl He.
  unfold local_weighted_average. cbv zeta. rewrite A0, A1, A2, V3.
  rewrite (@local_copy_scaled_cell_chunks F SF sh0 attn V (zeros_like V)
             N H L E n h l e) by (assumption || lia).
  unfold lcs_term. rewrite A2, A3, V2, V3. reflexivity.
Qed.

(** X9. No result depends on what the shared memory held before the
    launch: every cell a tiled kernel accumulates into is computed from
    slots the block has loaded in the same iteration. *)
Theorem shared_memory_init_irrelevant (sh0 sh1 : shared)
    (Q K G attn V grad : tensor4 F) (kl : tensor1)
    (N H L E C C' n h l e : Z) :
  shape4 Q N H L E -> shape4 K N H L E -> shape4 G N H L C ->
  shape4 attn N H L C -> shape4 V N H L E -> shape4 grad N H L E ->
  0 <= C ->
  0 <= n < N -> 0 <= h < H -> 0 <= l < L -> 0 <= e < E ->
  get4 (local_weighted_average sh0 attn V) n h l e
  = get4 (local_weighted_average sh1 attn V) n h l e
  /\ get4 (fst (local_dot_backward sh0 Q K kl G C')) n h l e
     = get4 (fst (local_dot_backward sh1 Q K kl G C')) n h l e
  /\ get4 (snd (local_dot_backward sh0 Q K kl G C')) n h l e
     = get4 (snd (local_dot_backward sh1 Q K kl G C')) n h l e
  /\ get4 (snd (local_weighted_average_backward sh0 attn V grad)) n h l e
     = get4 (snd (local_weighted_average_backward sh1 attn V grad)) n h l e
  /\ fst (local_weighted_average_backward sh0 attn V grad)
     = fst (local_weighted_average_backward sh1 attn V grad).
Proof.
  intros (Q0 & Q1 & Q2 & Q3) (K0 & K1 & K2 & K3) (G0 & G1 & G2 & G3)
         (A0 & A1 & A2 & A3) (V0 & V1 & V2 & V3) (D0 & D1 & D2 & D3)
         HC Hn Hh Hl He.
  repeat split.
  - unfold local_weighted_average. cbv zeta. rewrite A0, A1, A2, V3.
    rewrite !(@local_copy_scaled_cell_chunks F SF _ attn V (zeros_like V)
                N H L E n h l e) by (assumption || lia).
    reflexivity.
  - unfold local_dot_backward. cbv zeta. cbn [fst].
    rewrite G0, G1, G2, K3.
    rewrite !(@local_copy_scaled_cell_chunks F SF _ G K (zeros_like Q)
                N H L E n h l e) by (assumption || lia).
    reflexivity.
  - unfold local_dot_backward. cbv zeta. cbn [snd].
    rewrite G0, G1, G2, K3.
    rewrite !(@local_copy_scaled_transpose_cell_chunks F SF IncreasingLK _
                _ IncreasingLK_mk (fun kk => kk) G Q (zeros_like K)
                N H L E n h l e) by (reflexivity || assumption || lia).
    reflexivity.
  - unfold local_weighted_average_backward. cbv zeta. cbn [snd].
    rewrite A0, A1, A2, V3.
    assert (Hlk : forall k e_local,
               lk_call ReverseLK_mk k e_local (size4_3 attn)
               = (fun kk => C - kk - 1) (k + e_local)).
    { intros k0 e0. rewrite A3.
      unfold lk_call, ReverseLK_policy, ReverseLK_call. lia. }
    rewrite !(@local_copy_scaled_transpose_cell_chunks F SF ReverseLK _
                _ ReverseLK_mk (fun kk => C - kk - 1) attn grad
                (zeros_like V) N H L E n h l e Hlk)
      by (assumption || lia).
    reflexivity.
Qed.

Context {EA : ExactArith F}.

(** X10. [local_copy_scaled] accumulates: whatever the output buffer held,
    each in-range cell gains the windowed sum of its row on top of its
    previous value. *)
Theorem local_copy_scaled_accumulates (sh0 : shared)
    (factors values output : tensor4 F) (N H L E C n h l e : Z) :
  shape4 factors N H L C -> shape4 values N H L E -> 0 <= C ->
  0 <= n < N -> 0 <= h < H -> 0 <= l < L -> 0 <= e < E ->
  let lblocks := ceildiv L 32 in
  let eblocks := ceildiv E 32 in
  get4 (local_copy_scaled sh0 32 32 32 (N * H * lblocks * eblocks) (32 * 32)
          factors values output
          (Dim3 (H * lblocks * eblocks) (lblocks * eblocks) eblocks))
       n h l e
  = fadd (get4 output n h l e)
         (fsum (Z.to_nat C)
            (fun k =>
               let s := l - Z.quot C 2 + k in
               if in_range s L
               then fmul (get4 factors n h l k) (get4 values n h s e)
               else fzero)).
Proof.
  intros (A0 & A1 & A2 & A3) (V0 & V1 & V2 & V3) HC Hn Hh Hl He lb eb.
  unfold lb, eb.
  rewrite (@local_copy_scaled_cell F SF EA sh0 factors values output
             N H L E n h l e) by (assumption || lia).
  rewrite V2, A3. reflexivity.
Qed.

(** X11. [local_copy_scaled_transpose] accumulates onto the previous value
    of each in-range cell (s, e) the sum over kk = 0 .. C-1 of
    values[l, e] * factors[l, t] with l = s - (C-1)/2 + kk inside [0, L),
    where t = kk under [IncreasingLK] and t = C - 1 - kk under
    [ReverseLK]. *)
Theorem local_copy_scaled_transpose_accumulates (sh0 : shared)
    (factors values output : tensor4 F) (N H L E C n h s e : Z) :
  shape4 factors N H L C -> shape4 values N H L E -> 0 <= C ->
  0 <= n < N -> 0 <= h < H -> 0 <= s < L -> 0 <= e < E ->
  let lblocks := ceildiv L 32 in
  let eblocks := ceildiv E 32 in
  let strides :=
    Dim3 (H * lblocks * eblocks) (lblocks * eblocks) eblocks in
  let blocks := N * H * lblocks * eblocks in
  let gathered (t : Z -> Z) :=
    fsum (Z.to_nat C)
      (fun kk =>
         let l := s - Z.quot (C - 1) 2 + kk in
         if in_range l L
         then fmul (get4 values n h l e) (get4 factors n h l (t kk))
         else fzero) in
  get4 (local_copy_scaled_transpose sh0 32 32 32 blocks (32 * 32)
          factors values output strides IncreasingLK_mk) n h s e
  = fadd (get4 output n h s e) (gathered (fun kk => kk))
  /\ get4 (local_copy_scaled_transpose sh0 32 32 32 blocks (32 * 32)
             factors values output strides ReverseLK_mk) n h s e
     = fadd (get4 output n h s e) (gathered (fun kk => C - 1 - kk)).
Proof.
  intros (A0 & A1 & A2 & A3) (V0 & V1 & V2 & V3) HC Hn Hh Hs He
         lb eb strides blocks gathered.
  split.
  - unfold blocks, strides, lb, eb.
    rewrite (@local_copy_scaled_transpose_cell F SF EA IncreasingLK _ sh0
               IncreasingLK_mk (fun kk => kk) factors values output
               N H L E n h s e) by (reflexivity || assumption || lia).
    rewrite A3. reflexivity.
  - unfold blocks, strides, lb, eb.
    rewrite (@local_copy_scaled_transpose_cell F SF EA ReverseLK _ sh0
               ReverseLK_mk (fun kk => C - 1 - kk) factors values output
               N H L E n h s e); try assumption; try lia.
    + rewrite A3. reflexivity.
    + intros k e_local. rewrite A3.
      unfold lk_call, ReverseLK_policy, ReverseLK_call. lia.
Qed.

(** X12. The query gradient of [local_dot_backward] is the exact adjoint
    of the banded score map in Q: grad_Q[n,h,l,e] is the sum over
    k = 0 .. C-1 of grad_scores[n,h,l,k] * K[n,h,l-C/2+k,e], out-of-range
    keys contributing zero. *)
Theorem local_dot_backward_grad_queries (Q K G : tensor4 F) (kl : tensor1)
    (sh0 : shared) (C' N H L E C n h l e : Z) :
  shape4 G N H L C -> shape4 K N H L E -> 0 <= C ->
  0 <= n < N -> 0 <= h < H -> 0 <= l < L -> 0 <= e < E ->
  get4 (fst (local_dot_backward sh0 Q K kl G C')) n h l e
  = fsum (Z.to_nat C)
      (fun k =>
         let s := l - Z.quot C 2 + k in
         if in_range s L
         then fmul (get4 G n h l k) (get4 K n h s e) else fzero).
Proof.
  intros HG HK HC Hn Hh Hl He.
  rewrite (local_dot_backward_grad_queries_cell Q kl sh0 C' HG HK); auto.
Qed.

(** X13. The key gradient [local_dot_backward] returns is the adjoint sum
    of the score gradient with its band columns reversed:
    grad_K[n,h,s,e] is the sum over all (l, k) with 0 <= k < C and
    l - C/2 + k = s of grad_scores[n,h,l,C-1-k] * Q[n,h,l,e]. *)
Theorem local_dot_backward_grad_keys_reversed (Q K G : tensor4 F)
    (kl : tensor1) (sh0 : shared) (C' N H L E C n h s e : Z) :
  shape4 G N H L C -> shape4 Q N H L E -> shape4 K N H L E -> 0 <= C ->
  0 <= n < N -> 0 <= h < H -> 0 <= s < L -> 0 <= e < E ->
  get4 (snd (local_dot_backward sh0 Q K kl G C')) n h s e
  = fsum (Z.to_nat L)
      (fun l =>
         fsum (Z.to_nat C)
           (fun k =>
              if l - Z.quot C 2 + k =? s
              then fmul (get4 G n h l (C - 1 - k)) (get4 Q n h l e)
              else fzero)).
Proof.
  intros HG HQ (_ & _ & _ & K3) HC Hn Hh Hs He.
  rewrite (local_dot_backward_grad_keys_cell K kl sh0 C' HG HQ K3); auto.
  transitivity
    (transpose_sum L C s (fun kk => C - kk - 1)
       (fun l k => get4 G n h l (C - 1 - k)) (fun l => get4 Q n h l e)).
  - unfold transpose_sum. apply fsum_ext. intros kk Hkk. cbv zeta.
    destruct (in_range _ L); [|reflexivity].
    do 2 f_equal. lia.
  - rewrite transpose_sum_reverse by lia. reflexivity.
Qed.
End TiledExtras2.

(** ** Threads of a block *)

Section TiledExtras3.
Context {F : Type} {SF : Scalar F}.

Lemma lcs_compute_commute (factors values : tensor4 F) (strides : dim3)
    (b k : Z) (sh : shared) (out : tensor4 F) (t1 t2 n' h' l' e' : Z) :
  0 <= t1 < 1024 -> 0 <= t2 < 1024 ->
  get4 (local_copy_scaled_compute 32 32 32 factors values strides b k sh t1
          (local_copy_scaled_compute 32 32 32 factors values strides b k sh
             t2 out)) n' h' l' e'
  = get4 (local_copy_scaled_compute 32 32 32 factors values strides b k sh t2
            (local_copy_scaled_compute 32 32 32 factors values strides b k sh
               t1 out)) n' h' l' e'.
Proof.
  intros H1 H2.
  destruct (Z.eq_dec t1 t2) as [->|Hne]; [reflexivity|].
  destruct (thread_coords H1) as [Hq1 Hr1].
  destruct (thread_coords H2) as [Hq2 Hr2].
  unfold local_copy_scaled_compute.
  destruct (block_coords strides b) as [[[n h] lblk] eblk]. cbv zeta.
  set (r1 := fsum _ _). set (r2 := fsum _ _).
  set (q1 := Z.quot t1 32) in *. set (q2 := Z.quot t2 32) in *.
  destruct ((lblk * 32 + q1 <? size4_2 factors)
            && (eblk * 32 + (t1 - q1 * 32) <? size4_3 values));
    destruct ((lblk * 32 + q2 <? size4_2 factors)
              && (eblk * 32 + (t2 - q2 * 32) <? size4_3 values));
    try reflexivity.
  rewrite !get4_set4.
  destruct (Z.eqb_spec n' n); cbn [andb]; [|reflexivity].
  destruct (Z.eqb_spec h' h); cbn [andb]; [|reflexivity].
  destruct (Z.eqb_spec l' (lblk * 32 + q1));
    destruct (Z.eqb_spec l' (lblk * 32 + q2));
    destruct (Z.eqb_spec e' (eblk * 32 + (t1 - q1 * 32)));
    destruct (Z.eqb_spec e' (eblk * 32 + (t2 - q2 * 32)));
    cbn [andb]; try reflexivity; try (exfalso; lia);
    repeat match goal with
      | |- context [?a =? ?b] => destruct (Z.eqb_spec a b); try lia
      end; cbn [andb]; reflexivity.
Qed.

Lemma lcst_compute_commute (factors values : tensor4 F) (strides : dim3)
    (b k : Z) (sh : shared) (out : tensor4 F) (t1 t2 n' h' l' e' : Z) :
  0 <= t1 < 1024 -> 0 <= t2 < 1024 ->
  get4 (local_copy_scaled_transpose_compute 32 32 32 factors values strides
          b k sh t1
          (local_copy_scaled_transpose_compute 32 32 32 factors values
             strides b k sh t2 out)) n' h' l' e'
  = get4 (local_copy_scaled_transpose_compute 32 32 32 factors values
            strides b k sh t2
            (local_copy_scaled_transpose_compute 32 32 32 factors values
               strides b k sh t1 out)) n' h' l' e'.
Proof.
  intros H1 H2.
  destruct (Z.eq_dec t1 t2) as [->|Hne]; [reflexivity|].
  destruct (thread_coords H1) as [Hq1 Hr1].
  destruct (thread_coords H2) as [Hq2 Hr2].
  unfold local_copy_scaled_transpose_compute.
  destruct (block_coords strides b) as [[[n h] sblk] eblk]. cbv zeta.
  set (r1 := fsum _ _). set (r2 := fsum _ _).
  set (q1 := Z.quot t1 32) in *. set (q2 := Z.quot t2 32) in *.
  destruct ((sblk * 32 + q1 <? size4_2 values)
            && (eblk * 32 + (t1 - q1 * 32) <? size4_3 values));
    destruct ((sblk * 32 + q2 <? size4_2 values)
              && (eblk * 32 + (t2 - q2 * 32) <? size4_3 values));
    try reflexivity.
  rewrite !get4_set4.
  destruct (Z.eqb_spec n' n); cbn [andb]; [|reflexivity].
  destruct (Z.eqb_spec h' h); cbn [andb]; [|reflexivity].
  destruct (Z.eqb_spec l' (sblk * 32 + q1));
    destruct (Z.eqb_spec l' (sblk * 32 + q2));
    destruct (Z.eqb_spec e' (eblk * 32 + (t1 - q1 * 32)));
    destruct (Z.eqb_spec e' (eblk * 32 + (t2 - q2 * 32)));
    cbn [andb]; try reflexivity; try (exfalso; lia);
    repeat match goal with
      | |- context [?a =? ?b] => destruct (Z.eqb_spec a b); try lia
      end; cbn [andb]; reflexivity.
Qed.

Lemma lcs_load_commute (factors values : tensor4 F) (strides : dim3)
    (b k : Z) (m : shared) (t1 t2 a : Z) :
  0 <= t1 < 1024 -> 0 <= t2 < 1024 ->
  local_copy_scaled_load 32 32 32 factors values strides b k t1
    (local_copy_scaled_load 32 32 32 factors values strides b k t2 m) a
  = local_copy_scaled_load 32 32 32 factors values strides b k t2
      (local_copy_scaled_load 32 32 32 factors values strides b k t1 m) a.
Proof.
  intros H1 H2.
  destruct (Z.eq_dec t1 t2) as [->|Hne]; [reflexivity|].
  destruct (block_coords strides b) as [[[n h] lblk] eblk] eqn:Ec.
  rewrite !(lcs_load_stores factors values Ec). cbv zeta.
  unfold store.
  destruct (Z.eqb_spec a (2048 + t1)); destruct (Z.eqb_spec a (2048 + t2));
    destruct (Z.eqb_spec a (1024 + t1)); destruct (Z.eqb_spec a (1024 + t2));
    destruct (Z.eqb_spec a (0 + t1)); destruct (Z.eqb_spec a (0 + t2));
    try reflexivity; exfalso; lia.
Qed.

Lemma lcst_load_commute {P} {LP : LkPolicy P} (lk_policy : P)
    (factors values : tensor4 F) (strides : dim3)
    (b k : Z) (m : shared) (t1 t2 a : Z) :
  0 <= t1 < 1024 -> 0 <= t2 < 1024 ->
  local_copy_scaled_transpose_load 32 32 32 factors values strides lk_policy
    b k t1
    (local_copy_scaled_transpose_load 32 32 32 factors values strides
       lk_policy b k t2 m) a
  = local_copy_scaled_transpose_load 32 32 32 factors values strides
      lk_policy b k t2
      (local_copy_scaled_transpose_load 32 32 32 factors values strides
         lk_policy b k t1 m) a.
Proof.
  intros H1 H2.
  destruct (Z.eq_dec t1 t2) as [->|Hne]; [reflexivity|].
  destruct (block_coords strides b) as [[[n h] sblk] eblk] eqn:Ec.
  unfold local_copy_scaled_transpose_load. rewrite Ec. cbv zeta.
  unfold store.
  repeat match goal with
    | |- context [a =? ?x] => destruct (Z.eqb_spec a x)
    end; try reflexivity; exfalso; lia.
Qed.

(** X14. The threads of a block of [local_copy_scaled] do not race: in
    the load phase two threads store to different shared-memory slots and
    in the accumulation phase they add to different output cells, so
    either order of two threads leaves the same shared memory and the same
    output. *)
Theorem local_copy_scaled_threads_commute (factors values : tensor4 F)
    (strides : dim3) (b k : Z) (m sh : shared) (out : tensor4 F)
    (t1 t2 a n h l e : Z) :
  0 <= t1 < 1024 -> 0 <= t2 < 1024 ->
  local_copy_scaled_load 32 32 32 factors values strides b k t1
    (local_copy_scaled_load 32 32 32 factors values strides b k t2 m) a
  = local_copy_scaled_load 32 32 32 factors values strides b k t2
      (local_copy_scaled_load 32 32 32 factors values strides b k t1 m) a
  /\ get4 (local_copy_scaled_compute 32 32 32 factors values strides b k sh
             t1 (local_copy_scaled_compute 32 32 32 factors values strides
                   b k sh t2 out)) n h l e
     = get4 (local_copy_scaled_compute 32 32 32 factors values strides b k
               sh t2 (local_copy_scaled_compute 32 32 32 factors values
                        strides b k sh t1 out)) n h l e.
Proof.
  intros H1 H2. split.
  - apply lcs_load_commute; assumption.
  - apply lcs_compute_commute; assumption.
Qed.

(** X15. The threads of a block of [local_copy_scaled_transpose] do not
    race either, under any index-lookup policy: loads go to different
    shared-memory slots and accumulations to different output cells. *)
Theorem local_copy_scaled_transpose_threads_commute {P} {LP : LkPolicy P}
    (lk_policy : P) (factors values : tensor4 F)
    (strides : dim3) (b k : Z) (m sh : shared) (out : tensor4 F)
    (t1 t2 a n h l e : Z) :
  0 <= t1 < 1024 -> 0 <= t2 < 1024 ->
  local_copy_scaled_transpose_load 32 32 32 factors values strides lk_policy
    b k t1
    (local_copy_scaled_transpose_load 32 32 32 factors values strides
       lk_policy b k t2 m) a
  = local_copy_scaled_transpose_load 32 32 32 factors values strides
      lk_policy b k t2
      (local_copy_scaled_transpose_load 32 32 32 factors values strides
         lk_policy b k t1 m) a
  /\ get4 (local_copy_scaled_transpose_compute 32 32 32 factors values
             strides b k sh t1
             (local_copy_scaled_transpose_compute 32 32 32 factors values
                strides b k sh t2 out)) n h l e
     = get4 (local_copy_scaled_transpose_compute 32 32 32 factors values
               strides b k sh t2
               (local_copy_scaled_transpose_compute 32 32 32 factors values
                  strides b k sh t1 out)) n h l e.
Proof.
  intros H1 H2. split.
  - apply lcst_load_commute; assumption.
  - apply lcst_compute_commute; assumption.
Qed.
End TiledExtras3.

(** ** The empty window *)

Section ShapeExtras.
Context {F : Type} {SF : Scalar F}.

Lemma fold_left_id {St X : Type} (body : St -> X -> St) (xs : list X) :
  (forall x st, In x xs -> body st x = st) ->
  forall st, fold_left body xs st = st.
Proof.
  intros Hb st.
  apply (@fold_left_frame St St X (fun _ => True) (fun s => s)); auto.
Qed.

Lemma select_call_empty_window (val : Z -> Z -> F -> F)
    (buff out : tensor3 F) (l0 s0 d12 d2 idx : Z) :
  select_call val buff out 0 l0 s0 d12 d2 idx = out.
Proof.
  unfold select_call. cbv zeta.
  destruct (_ >=? _); [reflexivity|].
  match goal with |- (if (?k <? 0) || (?k >=? 0) then _ else _) = _ =>
    destruct (Z.ltb_spec k 0); cbn [orb]; [reflexivity|];
    replace (k >=? 0) with true by (symmetry; apply Z.geb_le; lia)
  end.
  reflexivity.
Qed.

Lemma sliding_dot_empty_window (a : Z) (val : Z -> Z -> F -> F)
    (A B out : tensor3 F) :
  sliding_dot a val A B out 0 = out.
Proof.
  unfold sliding_dot. cbv zeta.
  apply (@for_loop_inv (tensor3 F * tensor3 F) (fun st => snd st = out));
    [|reflexivity].
  intros l st Hst. unfold sliding_dot_body. cbv zeta. cbn [snd].
  unfold launch_flat. rewrite fold_left_id; [assumption|].
  intros idx o _. unfold sliding_dot_copy_kernel, copy_call, select_impl.
  apply select_call_empty_window.
Qed.

Lemma local_copy_scaled_empty_window (sh0 : shared) (blocks threads : Z)
    (factors values o : tensor4 F) (strides : dim3) :
  size4_3 factors = 0 ->
  local_copy_scaled sh0 32 32 32 blocks threads factors values o strides = o.
Proof.
  intros HC. unfold local_copy_scaled. apply fold_left_id.
  intros b st _. unfold local_copy_scaled_block.
  destruct (block_coords strides b) as [[[n h] lblk] eblk]. cbv zeta.
  destruct (n >? size4_0 factors); [reflexivity|].
  rewrite HC. reflexivity.
Qed.

Lemma local_copy_scaled_transpose_empty_window {P} {LP : LkPolicy P}
    (sh0 : shared) (blocks threads : Z) (lk_policy : P)
    (factors values o : tensor4 F) (strides : dim3) :
  size4_3 factors = 0 ->
  local_copy_scaled_transpose sh0 32 32 32 blocks threads factors values o
    strides lk_policy = o.
Proof.
  intros HC. unfold local_copy_scaled_transpose. apply fold_left_id.
  intros b st _. unfold local_copy_scaled_transpose_block.
  destruct (block_coords strides b) as [[[n h] lblk] eblk]. cbv zeta.
  destruct (n >? size4_0 factors); [reflexivity|].
  rewrite HC. reflexivity.
Qed.

(** X17. With an empty window (last size of the band 0) no kernel writes
    anything and every operation returns its initial tensors: scores of
    minus infinity with no column, and zero tensors for the weighted
    average and for all four gradients. *)
Theorem empty_window_returns_initial (Q K G attn V grad : tensor4 F)
    (mask : tensor2 F) (kl : tensor1) (sh0 : shared) (C' : Z) :
  size4_3 attn = 0 -> size4_3 G = 0 ->
  local_dot_product Q K mask kl 0
  = full4 (size4_0 Q) (size4_1 Q) (size4_2 Q) 0 fninf
  /\ local_weighted_average sh0 attn V = zeros_like V
  /\ local_weighted_average_backward sh0 attn V grad
     = (zeros_like attn, zeros_like V)
  /\ local_dot_backward sh0 Q K kl G C' = (zeros_like Q, zeros_like K).
Proof.
  intros HA HG. split; [|split; [|split]].
  - unfold local_dot_product. cbv zeta.
    rewrite sliding_dot_masked, sliding_dot_empty_window. reflexivity.
  - unfold local_weighted_average. cbv zeta.
    apply local_copy_scaled_empty_window. assumption.
  - unfold local_weighted_average_backward. cbv zeta.
    rewrite local_copy_scaled_transpose_empty_window by assumption.
    rewrite HA, sliding_dot_plain, sliding_dot_empty_window.
    f_equal. unfold zeros_like, unview3, view3, full4.
    cbn [size3_1 size3_2 get3 get4]. rewrite HA. reflexivity.
  - unfold local_dot_backward. cbv zeta.
    rewrite local_copy_scaled_empty_window by assumption.
    rewrite local_copy_scaled_transpose_empty_window by assumption.
    reflexivity.
Qed.
End ShapeExtras.

(** ** The further properties on the small instance *)

Lemma ceildiv_covers_witness : 2050 <= 1024 * ceildiv 2050 1024 < 2050 + 1024.
Proof. apply ceildiv_covers; lia. Defined.

Lemma block_coords_bijection_witness :
  block_coords (Dim3 (2 * 3 * 2) (3 * 2) 2)
               (((1 * 2 + 1) * 3 + 2) * 2 + 1) = (1, 1, 2, 1).
Proof.
  apply (proj2 (@block_coords_bijection 2 2 3 2
                  ltac:(lia) ltac:(lia) ltac:(lia))); lia.
Defined.

Lemma writable_iff_band_witness :
  writable 64 1 200 4 0 130 3
  <-> 0 <= 0 < 1 /\ 0 <= 130 < 200 /\ 0 <= 3 < 4
      /\ 0 <= 130 - Z.quot 4 2 + 3 < 200.
Proof. apply writable_iff_band; lia. Defined.

Lemma sliding_dot_subproblems_fit_witness :
  let A := view3 ex_Q 1 2 1 in
  let st := (full3 1 64 (64 + 2) (Fin 0), full3 1 2 2 NInf) in
  fst (sliding_dot_body 64 Lp_copy A A 2 0 st)
  = matmul_out (fst st) A A 0 (Z.min (2 - 0) 64)
      (Z.max 0 (0 - Z.quot 2 2))
      (Z.min 2 (0 - Z.quot 2 2 + 2 + 64) - Z.max 0 (0 - Z.quot 2 2))
  /\ 0 <= 0 /\ 0 < Z.min (2 - 0) 64 <= 64 /\ 0 + Z.min (2 - 0) 64 <= 2
  /\ 0 <= Z.max 0 (0 - Z.quot 2 2)
  /\ 0 < Z.min 2 (0 - Z.quot 2 2 + 2 + 64) - Z.max 0 (0 - Z.quot 2 2)
       <= 64 + 2
  /\ Z.max 0 (0 - Z.quot 2 2)
     + (Z.min 2 (0 - Z.quot 2 2 + 2 + 64) - Z.max 0 (0 - Z.quot 2 2)) <= 2.
Proof.
  apply (@sliding_dot_subproblems_fit xint _ lp_copy _ Lp_copy
           (view3 ex_Q 1 2 1) (view3 ex_Q 1 2 1) 2 0
           (full3 1 64 (64 + 2) (Fin 0), full3 1 2 2 NInf)); [lia|].
  left. reflexivity.
Defined.

Lemma selection_surplus_threads_witness :
  let buff := narrow12 (full3 1 64 66 (Fin 0)) 2 2 in
  let self := masked_lp_copy_factory ex_mask ex_key_lengths in
  masked_lp_copy_call self buff (full3 1 2 2 NInf) 2 0 0 (2 * 2) 2 1023
  = full3 1 2 2 NInf
  /\ lp_copy_call Lp_copy buff (full3 1 2 2 NInf) 2 0 0 (2 * 2) 2 1023
     = full3 1 2 2 NInf.
Proof.
  apply (@selection_surplus_threads xint _
           (masked_lp_copy_factory ex_mask ex_key_lengths)
           (narrow12 (full3 1 64 66 (Fin 0)) 2 2)
           (full3 1 2 2 NInf) 2 0 0 1023); cbn; lia.
Defined.

Lemma selection_threads_commute_witness :
  let buff := narrow12 (full3 1 64 66 (Fin 0)) 2 2 in
  let out := full3 1 2 2 NInf in
  let self := masked_lp_copy_factory ex_mask ex_key_lengths in
  get3 (masked_lp_copy_call self buff
          (masked_lp_copy_call self buff out 2 0 0 (2 * 2) 2 1)
          2 0 0 (2 * 2) 2 0) 0 0 1
  = get3 (masked_lp_copy_call self buff
            (masked_lp_copy_call self buff out 2 0 0 (2 * 2) 2 0)
            2 0 0 (2 * 2) 2 1) 0 0 1
  /\ get3 (lp_copy_call Lp_copy buff
             (lp_copy_call Lp_copy buff out 2 0 0 (2 * 2) 2 1)
             2 0 0 (2 * 2) 2 0) 0 0 1
     = get3 (lp_copy_call Lp_copy buff
               (lp_copy_call Lp_copy buff out 2 0 0 (2 * 2) 2 0)
               2 0 0 (2 * 2) 2 1) 0 0 1.
Proof.
  apply (@selection_threads_commute xint _
           (masked_lp_copy_factory ex_mask ex_key_lengths)
           (narrow12 (full3 1 64 66 (Fin 0)) 2 2) (full3 1 2 2 NInf)
           2 0 0 0 1 0 0 1); cbn; lia.
Defined.

Lemma grad_attention_exact_witness :
  get4 (fst (local_weighted_average_backward ex_shared ex_attn ex_K ex_Q))
       0 0 1 1 = Fin 21.
Proof.
  refine (eq_trans
            (proj1 (@grad_attention_exact xint _ ex_attn ex_K ex_Q
                      ex_shared 1 1 2 1 2 0 0 1 1
                      ltac:(repeat split) ltac:(repeat split)
                      ltac:(repeat split)
                      ltac:(lia) ltac:(lia) ltac:(lia) ltac:(lia)) _) _).
  - change (Z.quot 2 2) with 1. lia.
  - reflexivity.
Defined.

Lemma local_weighted_average_accumulation_witness :
  get4 (local_weighted_average ex_shared ex_attn ex_K) 0 0 0 0 = Fin 15.
Proof.
  refine (eq_trans
            (@local_weighted_average_accumulation xint _ ex_attn ex_K
               ex_shared 1 1 2 1 2 0 0 0 0
               ltac:(repeat split) ltac:(repeat split) ltac:(lia)
               ltac:(lia) ltac:(lia) ltac:(lia) ltac:(lia)) _).
  reflexivity.
Defined.

Lemma shared_memory_init_irrelevant_witness :
  get4 (local_weighted_average ex_shared ex_attn ex_K) 0 0 1 0
  = get4 (local_weighted_average (fun _ => Fin 7) ex_attn ex_K) 0 0 1 0.
Proof.
  exact (proj1 (@shared_memory_init_irrelevant xint _ ex_shared
                  (fun _ => Fin 7) ex_Q ex_K ex_grad_scores ex_attn ex_K
                  ex_ones ex_key_lengths 1 1 2 1 2 2 0 0 1 0
                  ltac:(repeat split) ltac:(repeat split)
                  ltac:(repeat split) ltac:(repeat split)
                  ltac:(repeat split) ltac:(repeat split)
                  ltac:(lia) ltac:(lia) ltac:(lia) ltac:(lia) ltac:(lia))).
Defined.

Lemma local_copy_scaled_accumulates_witness :
  get4 (local_copy_scaled ex_shared 32 32 32
          (1 * 1 * ceildiv 2 32 * ceildiv 1 32) (32 * 32)
          ex_attn ex_K ex_ones
          (Dim3 (1 * ceildiv 2 32 * ceildiv 1 32)
                (ceildiv 2 32 * ceildiv 1 32) (ceildiv 1 32)))
       0 0 1 0 = Fin 39.
Proof.
  refine (eq_trans
            (@local_copy_scaled_accumulates xint _ _ ex_shared ex_attn ex_K
               ex_ones 1 1 2 1 2 0 0 1 0
               ltac:(repeat split) ltac:(repeat split) ltac:(lia)
               ltac:(lia) ltac:(lia) ltac:(lia) ltac:(lia)) _).
  reflexivity.
Defined.

Lemma local_copy_scaled_transpose_accumulates_witness :
  get4 (local_copy_scaled_transpose ex_shared 32 32 32
          (1 * 1 * ceildiv 2 32 * ceildiv 1 32) (32 * 32)
          ex_grad_scores ex_Q ex_ones
          (Dim3 (1 * ceildiv 2 32 * ceildiv 1 32)
                (ceildiv 2 32 * ceildiv 1 32) (ceildiv 1 32))
          IncreasingLK_mk)
       0 0 0 0 = Fin 4.
Proof.
  refine (eq_trans
            (proj1 (@local_copy_scaled_transpose_accumulates xint _ _
                      ex_shared ex_grad_scores ex_Q ex_ones 1 1 2 1 2
                      0 0 0 0
                      ltac:(repeat split) ltac:(repeat split) ltac:(lia)
                      ltac:(lia) ltac:(lia) ltac:(lia) ltac:(lia))) _).
  reflexivity.
Defined.

Lemma local_dot_backward_grad_queries_witness :
  get4 (fst (local_dot_backward ex_shared ex_Q ex_K ex_key_lengths
               ex_grad_scores 2)) 0 0 1 0 = Fin 7.
Proof.
  refine (eq_trans
            (@local_dot_backward_grad_queries xint _ _ ex_Q ex_K
               ex_grad_scores ex_key_lengths ex_shared 2 1 1 2 1 2 0 0 1 0
               ltac:(repeat split) ltac:(repeat split) ltac:(lia)
               ltac:(lia) ltac:(lia) ltac:(lia) ltac:(lia)) _).
  reflexivity.
Defined.

Lemma local_dot_backward_grad_keys_reversed_witness :
  get4 (snd (local_dot_backward ex_shared ex_Q ex_K ex_key_lengths
               ex_grad_scores 2)) 0 0 0 0 = Fin 3.
Proof.
  refine (eq_trans
            (@local_dot_backward_grad_keys_reversed xint _ _ ex_Q ex_K
               ex_grad_scores ex_key_lengths ex_shared 2 1 1 2 1 2 0 0 0 0
               ltac:(repeat split) ltac:(repeat split) ltac:(repeat split)
               ltac:(lia) ltac:(lia) ltac:(lia) ltac:(lia) ltac:(lia)) _).
  reflexivity.
Defined.

Lemma local_copy_scaled_threads_commute_witness :
  let strides := Dim3 1 1 1 in
  local_copy_scaled_load 32 32 32 ex_attn ex_K strides 0 0 0
    (local_copy_scaled_load 32 32 32 ex_attn ex_K strides 0 0 1 ex_shared) 1
  = local_copy_scaled_load 32 32 32 ex_attn ex_K strides 0 0 1
      (local_copy_scaled_load 32 32 32 ex_attn ex_K strides 0 0 0 ex_shared) 1
  /\ get4 (local_copy_scaled_compute 32 32 32 ex_attn ex_K strides 0 0
             ex_shared 0
             (local_copy_scaled_compute 32 32 32 ex_attn ex_K strides 0 0
                ex_shared 32 ex_ones)) 0 0 1 0
     = get4 (local_copy_scaled_compute 32 32 32 ex_attn ex_K strides 0 0
               ex_shared 32
               (local_copy_scaled_compute 32 32 32 ex_attn ex_K strides 0 0
                  ex_shared 0 ex_ones)) 0 0 1 0.
Proof.
  split.
  - apply (proj1 (@local_copy_scaled_threads_commute xint _ ex_attn ex_K
                    (Dim3 1 1 1) 0 0 ex_shared ex_shared ex_ones
                    0 1 1 0 0 1 0 ltac:(lia) ltac:(lia))).
  - apply (proj2 (@local_copy_scaled_threads_commute xint _ ex_attn ex_K
                    (Dim3 1 1 1) 0 0 ex_shared ex_shared ex_ones
                    0 32 1 0 0 1 0 ltac:(lia) ltac:(lia))).
Defined.

Lemma local_copy_scaled_transpose_threads_commute_witness :
  let strides := Dim3 1 1 1 in
  get4 (local_copy_scaled_transpose_compute 32 32 32 ex_attn ex_ones strides
          0 0 ex_shared 0
          (local_copy_scaled_transpose_compute 32 32 32 ex_attn ex_ones
             strides 0 0 ex_shared 32 ex_ones)) 0 0 1 0
  = get4 (local_copy_scaled_transpose_compute 32 32 32 ex_attn ex_ones
            strides 0 0 ex_shared 32
            (local_copy_scaled_transpose_compute 32 32 32 ex_attn ex_ones
               strides 0 0 ex_shared 0 ex_ones)) 0 0 1 0.
Proof.
  apply (proj2 (@local_copy_scaled_transpose_threads_commute xint _
                  ReverseLK _ ReverseLK_mk ex_attn ex_ones (Dim3 1 1 1)
                  0 0 ex_shared ex_shared ex_ones 0 32 1 0 0 1 0
                  ltac:(lia) ltac:(lia))).
Defined.

Lemma empty_window_returns_initial_witness :
  local_weighted_average ex_shared (T4 1 1 2 0 (fun _ _ _ _ => Fin 1)) ex_K
  = zeros_like ex_K.
Proof.
  exact (proj1 (proj2
           (@empty_window_returns_initial xint _ ex_Q ex_K
              (T4 1 1 2 0 (fun _ _ _ _ => Fin 1))
              (T4 1 1 2 0 (fun _ _ _ _ => Fin 1)) ex_K ex_ones
              ex_mask ex_key_lengths ex_shared 0 eq_refl eq_refl))).
Defined.
